(** * snapuserd: the COW translation engine of the dm-user snapshot daemon

    A shallow embedding of [fs_mgr/libsnapshot/snapuserd.cpp]:
    the [BufferSink] scratch buffer, the metadata build ([ReadMetadata]),
    the metadata and data read paths ([ReadDiskExceptions], [ReadData]),
    merge reconciliation ([ProcessMergeComplete] and its phases) and one
    iteration of the request loop ([Run]).

    Conventions.
    - [uint64_t], [size_t], [chunk_t] are [Z] with the wrap-around at
      [2^64] written out ([wrap64]); [lldiv] works on the signed reading.
    - Memory is a list of bytes ([Z] in [0, 256)); a pointer is a byte
      offset into the buffer it points into, [None] is [nullptr].
    - A [CHECK] that fails aborts the process: [CheckFailed].  An access
      outside the object it is made on is undefined behaviour: [Fault].
    - An area page is kept in its typed view, a list of [disk_exception]
      (the code reaches it through [reinterpret_cast] only); [area_bytes]
      is its byte image, used where the page is copied with [memcpy]. *)

From Stdlib Require Import ZArith List Lia Bool.
From stdpp Require Import base option list gmap sorting.

Local Open Scope Z_scope.

(** ** Fixed constants *)

(** Modelled from the spec: the constants of [snapuserd.h], [cow_format.h]
    and the kernel's [dm-snapshot] format (spec section 3 and 6.2); the
    headers that declare them are not part of the source tree. *)
Definition BLOCK_SIZE : Z := 4096.
Definition BLOCK_SHIFT : Z := 12.
Definition SECTOR_SHIFT : Z := 9.
Definition CHUNK_SIZE : Z := 8.
Definition CHUNK_SHIFT : Z := 3.
Definition NUM_SNAPSHOT_HDR_CHUNKS : Z := 1.
Definition SNAP_MAGIC : Z := 0x70416e53.
Definition SNAPSHOT_VALID : Z := 1.
Definition SNAPSHOT_DISK_VERSION : Z := 1.

(** [static constexpr size_t PAYLOAD_SIZE = (1UL << 16);] *)
Definition PAYLOAD_SIZE : Z := Z.shiftl 1 16.

(** Modelled from the spec: [sizeof(struct disk_exception)] is 16 (two
    [u64] fields) and [sizeof(struct dm_user_header)] is 32 (spec 6.1:
    [seq : u64], [type : u32], [flags : u32], [sector : u64], [len : u64]). *)
Definition sizeof_disk_exception : Z := 16.
Definition sizeof_dm_user_header : Z := 32.

(** Modelled from the spec: request and response codes of the kernel's
    [dm-user.h] (spec 6.1). *)
Definition DM_USER_REQ_MAP_READ : Z := 0.
Definition DM_USER_REQ_MAP_WRITE : Z := 1.
Definition DM_USER_RESP_SUCCESS : Z := 0.
Definition DM_USER_RESP_ERROR : Z := 1.

(** [exceptions_per_area_ = (CHUNK_SIZE << SECTOR_SHIFT) /
    sizeof(struct disk_exception)], the value [ReadMetadata] stores. *)
Definition EXCEPTIONS_PER_AREA : Z :=
  Z.shiftl CHUNK_SIZE SECTOR_SHIFT / sizeof_disk_exception.

(** ** Machine integers *)

Definition wrap64 (z : Z) : Z := z mod 2 ^ 64.

(** The conversion [uint64_t -> long long] made when a [chunk_t] is
    passed to [lldiv]. *)
Definition to_sll (z : Z) : Z := if z <? 2 ^ 63 then z else z - 2 ^ 64.

Record lldiv_t := { quot : Z; rem : Z }.

(** C's [lldiv]: the quotient truncates toward zero. *)
Definition lldiv (numer denom : Z) : lldiv_t :=
  {| quot := Z.quot numer denom; rem := Z.rem numer denom |}.

(** Modelled from the spec: [SectorToChunk] and [ChunkToSector] of
    [snapuserd.h] (spec 3: [sector = chunk * CHUNK_SIZE],
    [chunk = sector / CHUNK_SIZE]), written with the shifts. *)
Definition SectorToChunk (sector : Z) : Z := Z.shiftr sector CHUNK_SHIFT.
Definition ChunkToSector (chunk : Z) : Z := wrap64 (Z.shiftl chunk CHUNK_SHIFT).

(** ** Outcomes of a call *)

Inductive check :=
  | CHECK_header_fits            (* sizeof(dm_user_header) <= buffer_size_ *)
  | CHECK_buffer_nonnull         (* buffer != nullptr *)
  | CHECK_size_aligned           (* (read_size & (BLOCK_SIZE - 1)) == 0 *)
  | CHECK_cow_op_nonnull         (* cow_op != nullptr *)
  | CHECK_copy_is_last           (* copy op: read_size == 0 *)
  | CHECK_boundary_is_last       (* metadata boundary: read_size == 0 *)
  | CHECK_merged_new_chunk       (* merged_de->new_chunk != 0 *)
  | CHECK_same_old_chunk         (* merged_de->old_chunk == cow_de->old_chunk *)
  | CHECK_same_new_chunk         (* merged_de->new_chunk == cow_de->new_chunk *)
  | CHECK_merged_zero            (* merged_de->new_chunk == 0 / old_chunk == 0 *)
  | CHECK_not_fully_unmerged     (* !(unmerged_exceptions == exceptions_per_area_) *)
  | CHECK_cow_de_zero            (* cow_de->new_chunk == 0 *)
  | CHECK_index_in_range         (* divresult.quot < vec_.size() *)
  | CHECK_some_op_merged         (* merged_ops_cur_iter > 0 *)
  | CHECK_all_credits_used       (* iterator done: merged_ops_cur_iter == 0 *)
  | CHECK_block_size             (* header.block_size == BLOCK_SIZE *)
  | CHECK_metadata_read_done     (* metadata_read_done_ == true *)
  | CHECK_read_size_is_block     (* read_size == BLOCK_SIZE *)
  | CHECK_flush_len_zero         (* header->len == 0 *)
  | CHECK_sector_positive        (* header->sector > 0 *)
  | CHECK_chunk_is_metadata.     (* chunk_map_.find(chunk) == chunk_map_.end() *)

Inductive outcome (A : Type) :=
  | Ok (a : A)
  | CheckFailed (c : check)
  | Fault.
Arguments Ok {A} a.
Arguments CheckFailed {A} c.
Arguments Fault {A}.

#[global] Instance outcome_bind : MBind outcome := fun A B k m =>
  match m with
  | Ok a => k a
  | CheckFailed c => CheckFailed c
  | Fault => Fault
  end.

Definition CHECK (c : check) (b : bool) : outcome unit :=
  if b then Ok tt else CheckFailed c.

(** ** Bytes and memory *)

(** Little-endian image of an [n]-byte unsigned value, and its inverse. *)
Fixpoint le_bytes (n : nat) (v : Z) : list Z :=
  match n with
  | O => []
  | S n' => v mod 256 :: le_bytes n' (v / 256)
  end.

Definition le_value (bs : list Z) : Z :=
  fold_right (fun b acc => b + 256 * acc) 0 bs.

Definition zeros (n : Z) : list Z := replicate (Z.to_nat n) 0.

(** [memcpy(base + p, data, |data|)] on a buffer; [None] when the range
    leaves the buffer. *)
Definition mem_write (buf : list Z) (p : Z) (data : list Z) : option (list Z) :=
  if (0 <=? p) && (p + Z.of_nat (length data) <=? Z.of_nat (length buf)) then
    Some (take (Z.to_nat p) buf ++ data
            ++ drop (Z.to_nat p + length data) buf)
  else None.

(** The [n] bytes at [base + p]; [None] when the range leaves the buffer. *)
Definition mem_read (buf : list Z) (p n : Z) : option (list Z) :=
  if (0 <=? p) && (0 <=? n) && (p + n <=? Z.of_nat (length buf)) then
    Some (take (Z.to_nat n) (drop (Z.to_nat p) buf))
  else None.

Definition lift_mem {A} (o : option A) : outcome A :=
  match o with
  | Some a => Ok a
  | None => Fault
  end.

(** ** BufferSink *)

Record BufferSink := {
  buffer_size_ : Z;
  buffer_offset_ : Z;
  buffer_ : list Z
}.

Definition Initialize (size : Z) : BufferSink :=
  {| buffer_size_ := size; buffer_offset_ := 0; buffer_ := zeros size |}.

Definition GetPayloadBuffer (b : BufferSink) (size : Z) : option Z :=
  if wrap64 (buffer_size_ b - buffer_offset_ b) <? size then None
  else Some (sizeof_dm_user_header + buffer_offset_ b).

(** Returns the pointer and [*actual]. *)
Definition GetBuffer (b : BufferSink) (requested : Z) : option Z * Z :=
  match GetPayloadBuffer b requested with
  | None => (None, 0)
  | Some buf => (Some buf, requested)
  end.

Definition GetHeaderPtr (b : BufferSink) : outcome Z :=
  _ ← CHECK CHECK_header_fits (sizeof_dm_user_header <=? buffer_size_ b);
  Ok 0.

(** Modelled from the spec: the inline members of [snapuserd.h]
    (spec 4.1): [advance(n)] increments the offset, [reset()] sets it to
    0, [clear()] zeroes the buffer and sets the offset to 0. *)
Definition UpdateBufferOffset (b : BufferSink) (size : Z) : BufferSink :=
  {| buffer_size_ := buffer_size_ b;
     buffer_offset_ := wrap64 (buffer_offset_ b + size);
     buffer_ := buffer_ b |}.

Definition ResetBufferOffset (b : BufferSink) : BufferSink :=
  {| buffer_size_ := buffer_size_ b; buffer_offset_ := 0; buffer_ := buffer_ b |}.

Definition Clear (b : BufferSink) : BufferSink :=
  {| buffer_size_ := buffer_size_ b; buffer_offset_ := 0;
     buffer_ := zeros (buffer_size_ b) |}.

Definition set_buffer (b : BufferSink) (buf : list Z) : BufferSink :=
  {| buffer_size_ := buffer_size_ b; buffer_offset_ := buffer_offset_ b;
     buffer_ := buf |}.

(** A store through a pointer into the sink's buffer. *)
Definition sink_write (b : BufferSink) (p : Z) (data : list Z) : outcome BufferSink :=
  buf ← lift_mem (mem_write (buffer_ b) p data);
  Ok (set_buffer b buf).

(** The region of [n] bytes behind a pointer returned by
    [GetPayloadBuffer] lies inside the allocation. *)
Definition region_valid (b : BufferSink) (p n : Z) : Prop :=
  0 <= p ∧ p + n <= buffer_size_ b.

(** The sink as [InitCowDevice] allocates it. *)
Definition bufsink_init : BufferSink :=
  Initialize (sizeof_dm_user_header + PAYLOAD_SIZE).

(** ** The COW log and the kernel's disk exceptions *)

(** The [type] byte of a [CowOperation]; [kCowUnknownOp] stands for any
    value that is none of the five the code names. *)
Inductive CowOpType :=
  | kCowCopyOp
  | kCowReplaceOp
  | kCowZeroOp
  | kCowLabelOp
  | kCowFooterOp
  | kCowUnknownOp (raw : Z).

#[global] Instance CowOpType_eq_dec : EqDecision CowOpType.
Proof. solve_decision. Defined.

Record CowOperation := {
  type : CowOpType;
  new_block : Z;
  source : Z
}.

#[global] Instance CowOperation_eq_dec : EqDecision CowOperation.
Proof. solve_decision. Defined.

Record CowHeader := {
  block_size : Z;
  num_merge_ops : Z
}.

Record disk_exception := {
  old_chunk : Z;
  new_chunk : Z
}.

#[global] Instance disk_exception_eq_dec : EqDecision disk_exception.
Proof. solve_decision. Defined.

Definition is_type (t : CowOpType) (cow_op : CowOperation) : bool :=
  bool_decide (type cow_op = t).

(** [type == kCowFooterOp || type == kCowLabelOp] *)
Definition is_footer_or_label (cow_op : CowOperation) : bool :=
  is_type kCowFooterOp cow_op || is_type kCowLabelOp cow_op.

(** [type == kCowReplaceOp || type == kCowZeroOp || type == kCowCopyOp] *)
Definition is_data_op (cow_op : CowOperation) : bool :=
  is_type kCowReplaceOp cow_op || is_type kCowZeroOp cow_op
  || is_type kCowCopyOp cow_op.

(** The external collaborators (spec 6.3).  [CowReader] and [CowWriter]
    live outside this file; the engine is parametrised by their
    interface: what [Parse], [GetHeader], the operation iterator,
    [ReadData], [UpdateMergeProgress], [InitializeMerge] and
    [CommitMerge] do to the reader and the writer is left open. *)
Class CowReaderI (R : Type) := {
  Parse : R → option R;
  GetHeader : R → option CowHeader;
  GetOpIter : R → list CowOperation;
  CowReader_ReadData : R → CowOperation → option (list Z);
  UpdateMergeProgress : R → Z → R
}.

Class CowWriterI (W : Type) := {
  InitializeMerge : W → CowHeader → W;
  CommitMerge : W → Z → bool * W
}.

(** Modelled from the spec: the reverse iterator of the CowLog yields the
    operations of the forward iterator, last first (spec 3, invariant 4). *)
Definition GetRevOpIter `{CowReaderI R} (r : R) : list CowOperation :=
  reverse (GetOpIter r).

(** *** Area pages in their typed view *)

Definition zero_exception : disk_exception := {| old_chunk := 0; new_chunk := 0 |}.

(** [make_unique<uint8_t[]>(n)] followed by [memset(.., 0, n)]. *)
Definition zero_area (bytes : Z) : list disk_exception :=
  replicate (Z.to_nat (bytes / sizeof_disk_exception)) zero_exception.

Definition in_area (a : list disk_exception) (off : Z) : bool :=
  (0 <=? off) && (off mod sizeof_disk_exception =? 0)
  && (off + sizeof_disk_exception <=? sizeof_disk_exception * Z.of_nat (length a)).

(** [*reinterpret_cast<disk_exception*>((char* )a + off)] *)
Definition area_load (a : list disk_exception) (off : Z) : option disk_exception :=
  if in_area a off then a !! Z.to_nat (off / sizeof_disk_exception) else None.

Definition area_store (a : list disk_exception) (off : Z) (de : disk_exception)
  : option (list disk_exception) :=
  if in_area a off then Some (<[Z.to_nat (off / sizeof_disk_exception) := de]> a)
  else None.

Definition exception_bytes (de : disk_exception) : list Z :=
  le_bytes 8 (old_chunk de) ++ le_bytes 8 (new_chunk de).

Definition area_bytes (a : list disk_exception) : list Z :=
  flat_map exception_bytes a.

(** The typed view of raw memory: consecutive 16-byte records. *)
Fixpoint exceptions_of_bytes (n : nat) (bs : list Z) : list disk_exception :=
  match n with
  | O => []
  | S n' =>
      {| old_chunk := le_value (take 8 bs);
         new_chunk := le_value (take 8 (drop 8 bs)) |}
      :: exceptions_of_bytes n' (drop 16 bs)
  end.

(** ** The device state *)

(** The control device: the bytes the kernel has queued for the daemon,
    the fate of the coming writes ([true]: the write fails) and the
    frames written so far, oldest first. *)
Record ctrl_dev := {
  ctrl_in : list Z;
  ctrl_wr_fail : list bool;
  ctrl_out : list (list Z)
}.

Record Snapuserd (R W : Type) := {
  bufsink_ : BufferSink;
  reader_ : R;
  writer_ : W;
  cowop_iter_ : list CowOperation;
  vec_ : list (list disk_exception);
  chunk_map_ : gmap Z CowOperation;
  exceptions_per_area_ : Z;
  num_sectors_ : Z;
  metadata_read_done_ : bool;
  backing_store_fd_ : Z → option (list Z);
  ctrl_fd_ : ctrl_dev
}.
Arguments bufsink_ {R W} _.
Arguments reader_ {R W} _.
Arguments writer_ {R W} _.
Arguments cowop_iter_ {R W} _.
Arguments vec_ {R W} _.
Arguments chunk_map_ {R W} _.
Arguments exceptions_per_area_ {R W} _.
Arguments num_sectors_ {R W} _.
Arguments metadata_read_done_ {R W} _.
Arguments backing_store_fd_ {R W} _.
Arguments ctrl_fd_ {R W} _.

(** ** Chunk identifiers *)

Definition stride_of (epa : Z) : Z := (epa + 1) mod 2 ^ 32.

Definition IsChunkIdMetadata (epa chunk : Z) : bool :=
  let stride := stride_of epa in
  let divresult := lldiv (to_sll chunk) stride in
  rem divresult =? NUM_SNAPSHOT_HDR_CHUNKS.

Definition GetNextAllocatableChunkId (epa chunk : Z) : Z :=
  let next_chunk := wrap64 (chunk + 1) in
  if IsChunkIdMetadata epa next_chunk then wrap64 (next_chunk + 1)
  else next_chunk.

(** ** The metadata build *)

(** The locals of [ReadMetadata] together with the two members the loop
    fills, [vec_] and [chunk_map_]. *)
Record md_locals := {
  next_free : Z;
  offset : Z;
  de_ptr : list disk_exception;
  num_ops : Z;
  prev_copy_op : bool;
  metadata_found : bool;
  l_vec : list (list disk_exception);
  l_chunk_map : gmap Z CowOperation
}.

(** One pass of the loop body for a Replace, Zero or Copy operation;
    [done] is [cowop_riter_->Done()] after the [Next()] of this pass.
    After [std::move(de_ptr)] the pointer owns nothing: [[]]. *)
Definition ReadMetadata_body (epa : Z) (cow_op : CowOperation) (done : bool)
    (l : md_locals) : outcome md_locals :=
  let area_size := epa * sizeof_disk_exception in
  let nf :=
    if is_type kCowCopyOp cow_op || prev_copy_op l
    then GetNextAllocatableChunkId epa (next_free l) else next_free l in
  let de := {| old_chunk := new_block cow_op; new_chunk := nf |} in
  page ← lift_mem (area_store (de_ptr l) (offset l) de);
  let cm := <[nf := cow_op]> (l_chunk_map l) in
  let n := num_ops l + 1 in
  let off := offset l + sizeof_disk_exception in
  if n =? epa then
    let v := l_vec l ++ [page] in
    let fresh := zero_area area_size in
    Ok {| next_free := GetNextAllocatableChunkId epa nf;
          offset := 0;
          de_ptr := if done then [] else fresh;
          num_ops := 0;
          prev_copy_op := is_type kCowCopyOp cow_op;
          metadata_found := true;
          l_vec := if done then v ++ [fresh] else v;
          l_chunk_map := cm |}
  else
    Ok {| next_free := GetNextAllocatableChunkId epa nf;
          offset := off;
          de_ptr := page;
          num_ops := n;
          prev_copy_op := is_type kCowCopyOp cow_op;
          metadata_found := true;
          l_vec := l_vec l;
          l_chunk_map := cm |}.

(** [while (!cowop_riter_->Done())]; the first component is [false] when
    the loop leaves through [return false].  The member [cowop_riter_] is
    used by this loop only: it is the argument the loop consumes. *)
Fixpoint ReadMetadata_loop (epa : Z) (riter : list CowOperation) (l : md_locals)
    : outcome (bool * md_locals) :=
  match riter with
  | [] => Ok (true, l)
  | cow_op :: riter' =>
      if is_footer_or_label cow_op then ReadMetadata_loop epa riter' l
      else if negb (is_data_op cow_op) then Ok (false, l)
      else
        l' ← ReadMetadata_body epa cow_op (bool_decide (riter' = [])) l;
        ReadMetadata_loop epa riter' l'
  end.

(** The locals as the loop is entered. *)
Definition md_init (epa : Z) (v : list (list disk_exception))
    (cm : gmap Z CowOperation) : md_locals :=
  {| next_free := NUM_SNAPSHOT_HDR_CHUNKS + 1;
     offset := 0;
     de_ptr := zero_area (epa * sizeof_disk_exception);
     num_ops := 0;
     prev_copy_op := false;
     metadata_found := false;
     l_vec := v;
     l_chunk_map := cm |}.

(** [vec_] after the [if (num_ops || !metadata_found)] that follows the
    loop. *)
Definition md_final (l : md_locals) : list (list disk_exception) :=
  if negb (num_ops l =? 0) || negb (metadata_found l)
  then l_vec l ++ [de_ptr l] else l_vec l.

Definition ReadMetadata `{CowReaderI R, CowWriterI W} (s : Snapuserd R W)
    : outcome (bool * Snapuserd R W) :=
  let with_reader r w epa v cm ns done fwd :=
    {| bufsink_ := bufsink_ s; reader_ := r; writer_ := w;
       cowop_iter_ := fwd;
       vec_ := v; chunk_map_ := cm; exceptions_per_area_ := epa;
       num_sectors_ := ns; metadata_read_done_ := done;
       backing_store_fd_ := backing_store_fd_ s; ctrl_fd_ := ctrl_fd_ s |} in
  match Parse (reader_ s) with
  | None => Ok (false, s)
  | Some r =>
      match GetHeader r with
      | None =>
          Ok (false, with_reader r (writer_ s)
                       (exceptions_per_area_ s) (vec_ s) (chunk_map_ s)
                       (num_sectors_ s) (metadata_read_done_ s) (cowop_iter_ s))
      | Some header =>
          _ ← CHECK CHECK_block_size (block_size header =? BLOCK_SIZE);
          let w := InitializeMerge (writer_ s) header in
          let riter := GetRevOpIter r in
          let epa := EXCEPTIONS_PER_AREA in
          '(ok, l) ← ReadMetadata_loop epa riter
                       (md_init epa (vec_ s) (chunk_map_ s));
          if negb ok then
            Ok (false, with_reader r w epa (l_vec l) (l_chunk_map l)
                         (num_sectors_ s) (metadata_read_done_ s) (cowop_iter_ s))
          else
            Ok (true, with_reader r w epa (md_final l) (l_chunk_map l)
                        (ChunkToSector (next_free l)) true (GetOpIter r))
      end
  end.

(** ** Field updates of the device state *)

Section setters.
Context {R W : Type}.
Implicit Types s : Snapuserd R W.

Definition set_bufsink s (b : BufferSink) : Snapuserd R W :=
  {| bufsink_ := b; reader_ := reader_ s; writer_ := writer_ s;
     cowop_iter_ := cowop_iter_ s; vec_ := vec_ s;
     chunk_map_ := chunk_map_ s;
     exceptions_per_area_ := exceptions_per_area_ s;
     num_sectors_ := num_sectors_ s;
     metadata_read_done_ := metadata_read_done_ s;
     backing_store_fd_ := backing_store_fd_ s; ctrl_fd_ := ctrl_fd_ s |}.

Definition set_ctrl s (c : ctrl_dev) : Snapuserd R W :=
  {| bufsink_ := bufsink_ s; reader_ := reader_ s; writer_ := writer_ s;
     cowop_iter_ := cowop_iter_ s; vec_ := vec_ s;
     chunk_map_ := chunk_map_ s;
     exceptions_per_area_ := exceptions_per_area_ s;
     num_sectors_ := num_sectors_ s;
     metadata_read_done_ := metadata_read_done_ s;
     backing_store_fd_ := backing_store_fd_ s; ctrl_fd_ := c |}.

(** The members a merge cycle touches. *)
Definition set_merge s (v : list (list disk_exception))
    (it : list CowOperation) (r : R) (w : W) : Snapuserd R W :=
  {| bufsink_ := bufsink_ s; reader_ := r; writer_ := w;
     cowop_iter_ := it; vec_ := v;
     chunk_map_ := chunk_map_ s;
     exceptions_per_area_ := exceptions_per_area_ s;
     num_sectors_ := num_sectors_ s;
     metadata_read_done_ := metadata_read_done_ s;
     backing_store_fd_ := backing_store_fd_ s; ctrl_fd_ := ctrl_fd_ s |}.
End setters.

(** ** The data path *)

Section data_path.
Context `{CowReaderI R, CowWriterI W}.
Implicit Types s : Snapuserd R W.

Definition ConstructKernelCowHeader s : outcome (Snapuserd R W) :=
  match GetPayloadBuffer (bufsink_ s) BLOCK_SIZE with
  | None => CheckFailed CHECK_buffer_nonnull
  | Some buffer =>
      b ← sink_write (bufsink_ s) buffer (zeros BLOCK_SIZE);
      b ← sink_write b buffer (le_bytes 4 SNAP_MAGIC);
      b ← sink_write b (buffer + 4) (le_bytes 4 SNAPSHOT_VALID);
      b ← sink_write b (buffer + 8) (le_bytes 4 SNAPSHOT_DISK_VERSION);
      b ← sink_write b (buffer + 12) (le_bytes 4 CHUNK_SIZE);
      Ok (set_bufsink s b)
  end.

(** Modelled from the spec: [CowReader::ReadData(op, &sink)] (spec 6.3)
    asks the sink for a buffer through [GetBuffer] and writes the
    decompressed payload of the operation at the sink's current offset;
    it fails when the payload cannot be produced or the sink has no
    room.  [CowReader_ReadData] is the payload the reader holds. *)
Definition ReadData_into_sink s (cow_op : CowOperation)
    : outcome (bool * Snapuserd R W) :=
  match CowReader_ReadData (reader_ s) cow_op with
  | None => Ok (false, s)
  | Some data =>
      match GetBuffer (bufsink_ s) (Z.of_nat (length data)) with
      | (None, _) => Ok (false, s)
      | (Some buffer, _) =>
          b ← sink_write (bufsink_ s) buffer data;
          Ok (true, set_bufsink s b)
      end
  end.

Definition ProcessReplaceOp s (cow_op : CowOperation)
    : outcome (bool * Snapuserd R W) :=
  '(ok, s) ← ReadData_into_sink s cow_op;
  if negb ok then Ok (false, s) else Ok (true, s).

(** [ReadFullyAtOffset] delivers exactly [BLOCK_SIZE] bytes or fails. *)
Definition ProcessCopyOp s (cow_op : CowOperation)
    : outcome (bool * Snapuserd R W) :=
  match GetPayloadBuffer (bufsink_ s) BLOCK_SIZE with
  | None => CheckFailed CHECK_buffer_nonnull
  | Some buffer =>
      match backing_store_fd_ s (wrap64 (source cow_op * BLOCK_SIZE)) with
      | None => Ok (false, s)
      | Some data =>
          if Z.of_nat (length data) =? BLOCK_SIZE then
            b ← sink_write (bufsink_ s) buffer data;
            Ok (true, set_bufsink s b)
          else Ok (false, s)
      end
  end.

Definition ProcessZeroOp s : outcome (bool * Snapuserd R W) :=
  match GetPayloadBuffer (bufsink_ s) BLOCK_SIZE with
  | None => CheckFailed CHECK_buffer_nonnull
  | Some buffer =>
      b ← sink_write (bufsink_ s) buffer (zeros BLOCK_SIZE);
      Ok (true, set_bufsink s b)
  end.

(** The [switch] of [ReadData]. *)
Definition dispatch_op s (cow_op : CowOperation)
    : outcome (bool * Snapuserd R W) :=
  match type cow_op with
  | kCowReplaceOp => ProcessReplaceOp s cow_op
  | kCowZeroOp => ProcessZeroOp s
  | kCowCopyOp => ProcessCopyOp s cow_op
  | _ => Ok (false, s)
  end.

(** [while (read_size > 0)].  [read_size] stays a multiple of
    [BLOCK_SIZE], so [blocks], the number of blocks still to serve,
    bounds the passes.  [log] lists the operations dispatched so far,
    oldest first; the result is [ret], the state and the log. *)
Fixpoint ReadData_loop (blocks : nat) s (chunk_key read_size : Z)
    (log : list CowOperation)
    : outcome (bool * Snapuserd R W * list CowOperation) :=
  let finish s := Ok (true, set_bufsink s (ResetBufferOffset (bufsink_ s)), log) in
  if negb (read_size >? 0) then finish s
  else
    match blocks with
    | O => finish s
    | S blocks' =>
        match chunk_map_ s !! chunk_key with
        | None => CheckFailed CHECK_cow_op_nonnull
        | Some cow_op =>
            let log := log ++ [cow_op] in
            '(ret, s) ← dispatch_op s cow_op;
            if negb ret then Ok (false, s, log)
            else
              let s := set_bufsink s (UpdateBufferOffset (bufsink_ s) BLOCK_SIZE) in
              let read_size := read_size - BLOCK_SIZE in
              let chunk_key := wrap64 (chunk_key + 1) in
              _ ← CHECK CHECK_copy_is_last
                    (negb (is_type kCowCopyOp cow_op) || (read_size =? 0));
              let stride := stride_of (exceptions_per_area_ s) in
              let divresult := lldiv (to_sll chunk_key) stride in
              if rem divresult =? NUM_SNAPSHOT_HDR_CHUNKS then
                _ ← CHECK CHECK_boundary_is_last (read_size =? 0);
                Ok (true, set_bufsink s (ResetBufferOffset (bufsink_ s)), log)
              else ReadData_loop blocks' s chunk_key read_size log
        end
    end.

Definition ReadData_log s (chunk size : Z)
    : outcome (bool * Snapuserd R W * list CowOperation) :=
  _ ← CHECK CHECK_size_aligned (Z.land size (BLOCK_SIZE - 1) =? 0);
  ReadData_loop (Z.to_nat (size / BLOCK_SIZE)) s chunk size [].

Definition ReadData s (chunk size : Z) : outcome (bool * Snapuserd R W) :=
  '(ret, s, _) ← ReadData_log s chunk size;
  Ok (ret, s).

(** ** The metadata read path *)

Definition ZerofillDiskExceptions s (read_size : Z)
    : outcome (bool * Snapuserd R W) :=
  let size := wrap64 (exceptions_per_area_ s * sizeof_disk_exception) in
  if read_size >? size then Ok (false, s)
  else
    match GetPayloadBuffer (bufsink_ s) size with
    | None => CheckFailed CHECK_buffer_nonnull
    | Some buffer =>
        b ← sink_write (bufsink_ s) buffer (zeros size);
        Ok (true, set_bufsink s b)
    end.

Definition ReadDiskExceptions s (chunk read_size : Z)
    : outcome (bool * Snapuserd R W) :=
  let stride := stride_of (exceptions_per_area_ s) in
  let divresult := lldiv (to_sll chunk) stride in
  if wrap64 (quot divresult) <? Z.of_nat (length (vec_ s)) then
    let size := wrap64 (exceptions_per_area_ s * sizeof_disk_exception) in
    if read_size >? size then Ok (false, s)
    else
      match GetPayloadBuffer (bufsink_ s) size with
      | None => CheckFailed CHECK_buffer_nonnull
      | Some buffer =>
          area ← lift_mem (vec_ s !! Z.to_nat (wrap64 (quot divresult)));
          data ← lift_mem (mem_read (area_bytes area) 0 size);
          b ← sink_write (bufsink_ s) buffer data;
          Ok (true, set_bufsink s b)
      end
  else ZerofillDiskExceptions s read_size.
End data_path.

(** ** Merge reconciliation *)

(** The entry accesses of the two scanning phases, by byte offset from
    the start of the buffer: reads of the kernel's page, reads and writes
    of the stored area. *)
Inductive access :=
  | ReadMerged (off : Z)
  | ReadCow (off : Z)
  | WriteCow (off : Z).

#[global] Instance access_eq_dec : EqDecision access.
Proof. solve_decision. Defined.

Definition access_offset (a : access) : Z :=
  match a with
  | ReadMerged off | ReadCow off | WriteCow off => off
  end.

(** [while ( *unmerged_exceptions <= exceptions_per_area_)].  Every pass
    that does not leave the loop adds one to [unmerged_exceptions], so
    [fuel = exceptions_per_area_ + 1 - unmerged_exceptions] passes are
    enough.  The result is the access log and [(offset,
    unmerged_exceptions)] at the end of the loop. *)
Fixpoint GetMergeStartOffset_loop (fuel : nat) (epa : Z)
    (merged_buffer unmerged_buffer : list disk_exception)
    (offset unmerged_exceptions : Z) (tr : list access)
    : list access * outcome (Z * Z) :=
  if negb (unmerged_exceptions <=? epa) then (tr, Ok (offset, unmerged_exceptions))
  else
    match fuel with
    | O => (tr, Ok (offset, unmerged_exceptions))
    | S fuel' =>
        let tr := tr ++ [ReadMerged offset] in
        match area_load merged_buffer offset with
        | None => (tr, Fault)
        | Some merged_de =>
            if negb (old_chunk merged_de =? 0) then
              if new_chunk merged_de =? 0 then (tr, CheckFailed CHECK_merged_new_chunk)
              else
                let tr := tr ++ [ReadCow offset] in
                match area_load unmerged_buffer offset with
                | None => (tr, Fault)
                | Some cow_de =>
                    if negb (old_chunk merged_de =? old_chunk cow_de)
                    then (tr, CheckFailed CHECK_same_old_chunk)
                    else if negb (new_chunk merged_de =? new_chunk cow_de)
                    then (tr, CheckFailed CHECK_same_new_chunk)
                    else
                      GetMergeStartOffset_loop fuel' epa merged_buffer
                        unmerged_buffer (offset + sizeof_disk_exception)
                        (unmerged_exceptions + 1) tr
                end
            else if negb (new_chunk merged_de =? 0)
            then (tr, CheckFailed CHECK_merged_zero)
            else (tr, Ok (offset, unmerged_exceptions))
        end
    end.

Definition GetMergeStartOffset (epa : Z)
    (merged_buffer unmerged_buffer : list disk_exception)
    : list access * outcome (Z * Z) :=
  let '(tr, r) :=
    GetMergeStartOffset_loop (Z.to_nat (epa + 1)) epa merged_buffer
      unmerged_buffer 0 0 [] in
  (tr, '(offset, unmerged_exceptions) ← r;
       _ ← CHECK CHECK_not_fully_unmerged (negb (unmerged_exceptions =? epa));
       Ok (offset, unmerged_exceptions)).

(** [while ((unmerged_exceptions + merged_ops_cur_iter) <=
    exceptions_per_area_)].  The result is the access log, the returned
    count ([-1] on invalid metadata) and the stored area as the loop
    leaves it. *)
Fixpoint GetNumberOfMergedOps_loop (fuel : nat) (epa : Z)
    (merged_buffer unmerged_buffer : list disk_exception)
    (offset unmerged_exceptions merged_ops_cur_iter : Z) (tr : list access)
    : list access * outcome (Z * list disk_exception) :=
  if negb (unmerged_exceptions + merged_ops_cur_iter <=? epa)
  then (tr, Ok (merged_ops_cur_iter, unmerged_buffer))
  else
    match fuel with
    | O => (tr, Ok (merged_ops_cur_iter, unmerged_buffer))
    | S fuel' =>
        let tr := tr ++ [ReadMerged offset] in
        match area_load merged_buffer offset with
        | None => (tr, Fault)
        | Some merged_de =>
            if negb (new_chunk merged_de =? 0) || negb (old_chunk merged_de =? 0)
            then (tr, CheckFailed CHECK_merged_zero)
            else
              let tr := tr ++ [ReadCow offset] in
              match area_load unmerged_buffer offset with
              | None => (tr, Fault)
              | Some cow_de =>
                  if negb (new_chunk cow_de =? 0) then
                    let tr := tr ++ [WriteCow offset] in
                    match area_store unmerged_buffer offset zero_exception with
                    | None => (tr, Fault)
                    | Some area =>
                        GetNumberOfMergedOps_loop fuel' epa merged_buffer area
                          (offset + sizeof_disk_exception) unmerged_exceptions
                          (merged_ops_cur_iter + 1) tr
                    end
                  else if old_chunk cow_de =? 0 then
                    if new_chunk cow_de =? 0
                    then (tr, Ok (merged_ops_cur_iter, unmerged_buffer))
                    else (tr, CheckFailed CHECK_cow_de_zero)
                  else (tr, Ok (-1, unmerged_buffer))
              end
        end
    end.

Definition GetNumberOfMergedOps (epa : Z)
    (merged_buffer unmerged_buffer : list disk_exception)
    (offset unmerged_exceptions : Z)
    : list access * outcome (Z * list disk_exception) :=
  GetNumberOfMergedOps_loop (Z.to_nat (epa + 1 - unmerged_exceptions)) epa
    merged_buffer unmerged_buffer offset unmerged_exceptions 0 [].

(** [while (!cowop_iter_->Done() && merged_ops_cur_iter)]: the result is
    [false] on [return false], the iterator and the credits left. *)
Fixpoint AdvanceMergedOps_loop (iter : list CowOperation) (merged_ops_cur_iter : Z)
    : bool * list CowOperation * Z :=
  match iter with
  | [] => (true, [], merged_ops_cur_iter)
  | cow_op :: iter' =>
      if merged_ops_cur_iter =? 0 then (true, iter, merged_ops_cur_iter)
      else if is_footer_or_label cow_op
      then AdvanceMergedOps_loop iter' merged_ops_cur_iter
      else if negb (is_data_op cow_op) then (false, iter, merged_ops_cur_iter)
      else AdvanceMergedOps_loop iter' (merged_ops_cur_iter - 1)
  end.

Definition AdvanceMergedOps (iter : list CowOperation) (merged_ops_cur_iter : Z)
    : outcome (bool * list CowOperation) :=
  let '(ok, iter, credits) := AdvanceMergedOps_loop iter merged_ops_cur_iter in
  if negb ok then Ok (false, iter)
  else
    _ ← CHECK CHECK_all_credits_used
          (negb (bool_decide (iter = [])) || (credits =? 0));
    Ok (true, iter).

Section merge.
Context `{CowReaderI R, CowWriterI W}.
Implicit Types s : Snapuserd R W.

(** [buffer] is the typed view of the memory behind the pointer the
    caller passes. *)
Definition ProcessMergeComplete s (chunk : Z) (buffer : list disk_exception)
    : outcome (bool * Snapuserd R W) :=
  let stride := stride_of (exceptions_per_area_ s) in
  match GetHeader (reader_ s) with
  | None => Ok (false, s)
  | Some header =>
      let divresult := lldiv (to_sll chunk) stride in
      _ ← CHECK CHECK_index_in_range
            (wrap64 (quot divresult) <? Z.of_nat (length (vec_ s)));
      let idx := Z.to_nat (wrap64 (quot divresult)) in
      area ← lift_mem (vec_ s !! idx);
      '(offset, unmerged_exceptions) ←
        (GetMergeStartOffset (exceptions_per_area_ s) buffer area).2;
      '(merged_ops_cur_iter, area) ←
        (GetNumberOfMergedOps (exceptions_per_area_ s) buffer area offset
           unmerged_exceptions).2;
      let v := <[idx := area]> (vec_ s) in
      _ ← CHECK CHECK_some_op_merged (merged_ops_cur_iter >? 0);
      '(ok, iter) ← AdvanceMergedOps (cowop_iter_ s) merged_ops_cur_iter;
      if negb ok then Ok (false, set_merge s v iter (reader_ s) (writer_ s))
      else
        let header :=
          {| block_size := block_size header;
             num_merge_ops := wrap64 (num_merge_ops header + merged_ops_cur_iter) |} in
        let r := UpdateMergeProgress (reader_ s) merged_ops_cur_iter in
        let '(committed, w) := CommitMerge (writer_ s) merged_ops_cur_iter in
        if negb committed then Ok (false, set_merge s v iter r w)
        else Ok (true, set_merge s v iter r w)
  end.
End merge.

(** ** The request loop *)

(** Modelled from the spec: the offsets of the fields of [struct
    dm_user_header] (spec 6.1; the kernel header that declares the
    struct is not part of the source tree). *)
Definition hdr_seq : Z := 0.
Definition hdr_type : Z := 8.
Definition hdr_flags : Z := 12.
Definition hdr_sector : Z := 16.
Definition hdr_len : Z := 24.

(** An [n]-byte little-endian load and store through a pointer into the
    sink's buffer. *)
Definition sink_load (b : BufferSink) (p n : Z) : outcome Z :=
  bs ← lift_mem (mem_read (buffer_ b) p n);
  Ok (le_value bs).

Definition sink_store (b : BufferSink) (p : Z) (n : nat) (v : Z) : outcome BufferSink :=
  sink_write b p (le_bytes n v).

(** [ReadFully(ctrl_fd_, .., n)]: the next [n] queued bytes, or failure
    when the device has fewer. *)
Definition ctrl_read (c : ctrl_dev) (n : Z) : option (list Z * ctrl_dev) :=
  if Z.of_nat (length (ctrl_in c)) <? n then None
  else Some (take (Z.to_nat n) (ctrl_in c),
             {| ctrl_in := drop (Z.to_nat n) (ctrl_in c);
                ctrl_wr_fail := ctrl_wr_fail c; ctrl_out := ctrl_out c |}).

(** [WriteFully(ctrl_fd_, .., frame)]. *)
Definition ctrl_write (c : ctrl_dev) (frame : list Z) : bool * ctrl_dev :=
  match ctrl_wr_fail c with
  | true :: rest =>
      (false, {| ctrl_in := ctrl_in c; ctrl_wr_fail := rest; ctrl_out := ctrl_out c |})
  | _ =>
      (true, {| ctrl_in := ctrl_in c; ctrl_wr_fail := tail (ctrl_wr_fail c);
                ctrl_out := ctrl_out c ++ [frame] |})
  end.

Section request_loop.
Context `{CowReaderI R, CowWriterI W}.
Implicit Types s : Snapuserd R W.

Definition ReadDmUserHeader s : outcome (bool * Snapuserd R W) :=
  match ctrl_read (ctrl_fd_ s) sizeof_dm_user_header with
  | None => Ok (false, s)
  | Some (bytes, c) =>
      b ← sink_write (bufsink_ s) 0 bytes;
      Ok (true, set_ctrl (set_bufsink s b) c)
  end.

Definition WriteDmUserPayload s (size : Z) : outcome (bool * Snapuserd R W) :=
  frame ← lift_mem (mem_read (buffer_ (bufsink_ s)) 0
                      (sizeof_dm_user_header + size));
  let '(ok, c) := ctrl_write (ctrl_fd_ s) frame in
  Ok (ok, set_ctrl s c).

Definition ReadDmUserPayload s (buffer size : Z) : outcome (bool * Snapuserd R W) :=
  match ctrl_read (ctrl_fd_ s) size with
  | None => Ok (false, s)
  | Some (bytes, c) =>
      b ← sink_write (bufsink_ s) buffer bytes;
      Ok (true, set_ctrl (set_bufsink s b) c)
  end.

(** [header->type = v] *)
Definition set_header_type s (header v : Z) : outcome (Snapuserd R W) :=
  b ← sink_store (bufsink_ s) (header + hdr_type) 4 v;
  Ok (set_bufsink s b).

(** The typed view of the sink's memory from [buffer] to its end. *)
Definition exceptions_at s (buffer : Z) : list disk_exception :=
  let bytes := drop (Z.to_nat buffer) (buffer_ (bufsink_ s)) in
  exceptions_of_bytes
    (Z.to_nat (Z.of_nat (length bytes) / sizeof_disk_exception)) bytes.

(** One pass of the read loop up to the reply: the response type is
    preset to success, the payload for [read_size] bytes is produced,
    and the type is overwritten when the component reports failure. *)
Definition Run_read_serve s (header read_size offset : Z)
    : outcome (Snapuserd R W) :=
  s ← set_header_type s header DM_USER_RESP_SUCCESS;
  sector ← sink_load (bufsink_ s) (header + hdr_sector) 8;
  if sector =? 0 then
    _ ← CHECK CHECK_metadata_read_done (metadata_read_done_ s);
    _ ← CHECK CHECK_read_size_is_block (read_size =? BLOCK_SIZE);
    ConstructKernelCowHeader s
  else
    let chunk := SectorToChunk sector in
    '(ok, s) ←
      (match chunk_map_ s !! chunk with
       | None => ReadDiskExceptions s chunk read_size
       | Some _ =>
           let num_chunks_read := Z.shiftr offset BLOCK_SHIFT in
           ReadData s (wrap64 (chunk + num_chunks_read)) read_size
       end);
    if negb ok then set_header_type s header DM_USER_RESP_ERROR
    else Ok s.

(** The [do { .. } while (remaining_size)] of a read request.  A pass
    takes [min(PAYLOAD_SIZE, remaining_size)] off [remaining_size], so
    [remaining_size / PAYLOAD_SIZE + 1] passes are enough. *)
Fixpoint Run_read_loop (fuel : nat) s (header remaining_size offset : Z)
    : outcome (bool * Snapuserd R W) :=
  match fuel with
  | O => Ok (true, s)
  | S fuel' =>
      let read_size := Z.min PAYLOAD_SIZE remaining_size in
      s ← Run_read_serve s header read_size offset;
      '(ok, s) ← WriteDmUserPayload s read_size;
      if negb ok then Ok (false, s)
      else
        let remaining_size := remaining_size - read_size in
        let offset := offset + read_size in
        if remaining_size =? 0 then Ok (true, s)
        else Run_read_loop fuel' s header remaining_size offset
  end.

(** [case DM_USER_REQ_MAP_WRITE] *)
Definition Run_write s (header : Z) : outcome (bool * Snapuserd R W) :=
  sector ← sink_load (bufsink_ s) (header + hdr_sector) 8;
  if sector =? 0 then
    len ← sink_load (bufsink_ s) (header + hdr_len) 8;
    _ ← CHECK CHECK_flush_len_zero (len =? 0);
    s ← set_header_type s header DM_USER_RESP_SUCCESS;
    WriteDmUserPayload s 0
  else
    remaining_size ← sink_load (bufsink_ s) (header + hdr_len) 8;
    let read_size := Z.min PAYLOAD_SIZE remaining_size in
    _ ← CHECK CHECK_read_size_is_block (read_size =? BLOCK_SIZE);
    _ ← CHECK CHECK_sector_positive (sector >? 0);
    let chunk := SectorToChunk sector in
    _ ← CHECK CHECK_chunk_is_metadata
          (bool_decide (chunk_map_ s !! chunk = None));
    match GetPayloadBuffer (bufsink_ s) read_size with
    | None => CheckFailed CHECK_buffer_nonnull
    | Some buffer =>
        s ← set_header_type s header DM_USER_RESP_SUCCESS;
        '(ok, s) ← ReadDmUserPayload s buffer read_size;
        s ← (if negb ok then set_header_type s header DM_USER_RESP_ERROR
             else Ok s);
        ty ← sink_load (bufsink_ s) (header + hdr_type) 4;
        s ←
          (if ty =? DM_USER_RESP_SUCCESS then
             '(ok, s) ← ProcessMergeComplete s chunk (exceptions_at s buffer);
             if negb ok then set_header_type s header DM_USER_RESP_ERROR
             else Ok s
           else Ok s);
        WriteDmUserPayload s 0
    end.

Definition Run s : outcome (bool * Snapuserd R W) :=
  header ← GetHeaderPtr (bufsink_ s);
  let s := set_bufsink s (Clear (bufsink_ s)) in
  '(ok, s) ← ReadDmUserHeader s;
  if negb ok then Ok (false, s)
  else
    ty ← sink_load (bufsink_ s) (header + hdr_type) 4;
    if ty =? DM_USER_REQ_MAP_READ then
      len ← sink_load (bufsink_ s) (header + hdr_len) 8;
      Run_read_loop (Z.to_nat (len / PAYLOAD_SIZE) + 1) s header len 0
    else if ty =? DM_USER_REQ_MAP_WRITE then Run_write s header
    else Ok (true, s).

(** [InitCowDevice], the descriptor being open already: allocate the
    sink, then build the metadata. *)
Definition InitCowDevice s : outcome (bool * Snapuserd R W) :=
  let buf_size := sizeof_dm_user_header + PAYLOAD_SIZE in
  ReadMetadata (set_bufsink s (Initialize buf_size)).
End request_loop.

(** A freshly constructed [Snapuserd] over a reader, a writer and the two
    devices. *)
Definition Snapuserd_new {R W} (r : R) (w : W)
    (backing : Z → option (list Z)) (ctrl : ctrl_dev) : Snapuserd R W :=
  {| bufsink_ := {| buffer_size_ := 0; buffer_offset_ := 0; buffer_ := [] |};
     reader_ := r; writer_ := w; cowop_iter_ := []; vec_ := [];
     chunk_map_ := ∅; exceptions_per_area_ := 0; num_sectors_ := 0;
     metadata_read_done_ := false;
     backing_store_fd_ := backing; ctrl_fd_ := ctrl |}.

(** ** A CowLog held in memory

    The simplest reader and writer that meet the interface: the log is a
    list of operations, the payload of every Replace operation is stored
    with the reader, and the merge progress each side is told is logged. *)
Record MemCowReader := {
  mem_parse_ok : bool;
  mem_header : option CowHeader;
  mem_ops : list CowOperation;
  mem_data : CowOperation → option (list Z);
  mem_progress : list Z
}.

Record MemCowWriter := {
  mem_commit_ok : bool;
  mem_commits : list Z
}.

#[global] Instance MemCowReader_I : CowReaderI MemCowReader := {
  Parse r := if mem_parse_ok r then Some r else None;
  GetHeader := mem_header;
  GetOpIter := mem_ops;
  CowReader_ReadData := mem_data;
  UpdateMergeProgress r n :=
    {| mem_parse_ok := mem_parse_ok r; mem_header := mem_header r;
       mem_ops := mem_ops r; mem_data := mem_data r;
       mem_progress := mem_progress r ++ [n] |}
}.

#[global] Instance MemCowWriter_I : CowWriterI MemCowWriter := {
  InitializeMerge w _ := w;
  CommitMerge w n :=
    (mem_commit_ok w,
     {| mem_commit_ok := mem_commit_ok w;
        mem_commits := if mem_commit_ok w then mem_commits w ++ [n]
                       else mem_commits w |})
}.

Definition mem_reader (ops : list CowOperation) : MemCowReader :=
  {| mem_parse_ok := true;
     mem_header := Some {| block_size := BLOCK_SIZE; num_merge_ops := 0 |};
     mem_ops := ops;
     mem_data := fun _ => Some (replicate (Z.to_nat BLOCK_SIZE) 0xAB);
     mem_progress := [] |}.

Definition mem_writer : MemCowWriter :=
  {| mem_commit_ok := true; mem_commits := [] |}.

Definition mem_ctrl (input : list Z) : ctrl_dev :=
  {| ctrl_in := input; ctrl_wr_fail := []; ctrl_out := [] |}.

(** The outcome of a call seen through a projection of its result. *)
#[global] Instance outcome_fmap : FMap outcome := fun A B f m =>
  match m with
  | Ok a => Ok (f a)
  | CheckFailed c => CheckFailed c
  | Fault => Fault
  end.

(** A device over an in-memory log; the base device reads as zeroes. *)
Definition mem_device (ops : list CowOperation) (input : list Z)
    : Snapuserd MemCowReader MemCowWriter :=
  Snapuserd_new (mem_reader ops) mem_writer
    (fun _ => Some (zeros BLOCK_SIZE)) (mem_ctrl input).

(** The device after [ReadMetadata]. *)
Definition built_from (s : Snapuserd MemCowReader MemCowWriter)
    : Snapuserd MemCowReader MemCowWriter :=
  match ReadMetadata s with
  | Ok (_, s') => s'
  | _ => s
  end.

(** The device as [InitCowDevice] hands it to [ReadMetadata], and after. *)
Definition fresh_device (ops : list CowOperation) (input : list Z)
    : Snapuserd MemCowReader MemCowWriter :=
  set_bufsink (mem_device ops input) bufsink_init.

Definition built_device (ops : list CowOperation) (input : list Z)
    : Snapuserd MemCowReader MemCowWriter :=
  built_from (fresh_device ops input).

(** A built device whose sink holds one block, and the device after a
    data read. *)
Definition one_block_device (ops : list CowOperation)
    : Snapuserd MemCowReader MemCowWriter :=
  set_bufsink (built_from (mem_device ops []))
    (Initialize (sizeof_dm_user_header + BLOCK_SIZE)).


Definition zero_op (blk : Z) : CowOperation :=
  {| type := kCowZeroOp; new_block := blk; source := 0 |}.
Definition replace_op (blk : Z) : CowOperation :=
  {| type := kCowReplaceOp; new_block := blk; source := 0 |}.
Definition copy_op (blk src : Z) : CowOperation :=
  {| type := kCowCopyOp; new_block := blk; source := src |}.
Definition label_op : CowOperation :=
  {| type := kCowLabelOp; new_block := 0; source := 0 |}.

(** [n] Zero operations on the blocks [first .. first + n - 1]. *)
Definition zero_log (first n : nat) : list CowOperation :=
  zero_op <$> (Z.of_nat <$> seq first n).

(** The wire image of a request header (spec 6.1). *)
Definition header_bytes (seq ty flags sector len : Z) : list Z :=
  le_bytes 8 seq ++ le_bytes 4 ty ++ le_bytes 4 flags
  ++ le_bytes 8 sector ++ le_bytes 8 len.

(** ** Specification-level views of the metadata build *)

(** The chunk id each Replace, Zero or Copy operation of the reverse pass
    receives, in the order of the pass: [nf] is [next_free] on entry and
    [prev] is [prev_copy_op]. *)
Fixpoint assigned (epa : Z) (riter : list CowOperation) (nf : Z) (prev : bool)
    : list (Z * CowOperation) :=
  match riter with
  | [] => []
  | cow_op :: riter' =>
      if is_footer_or_label cow_op then assigned epa riter' nf prev
      else
        let c :=
          if is_type kCowCopyOp cow_op || prev
          then GetNextAllocatableChunkId epa nf else nf in
        (c, cow_op)
          :: assigned epa riter' (GetNextAllocatableChunkId epa c)
               (is_type kCowCopyOp cow_op)
  end.

Definition exception_of (p : Z * CowOperation) : disk_exception :=
  {| old_chunk := new_block p.2; new_chunk := p.1 |}.

Definition insert_all (m : gmap Z CowOperation) (A : list (Z * CowOperation))
    : gmap Z CowOperation :=
  foldl (fun m p => <[p.1 := p.2]> m) m A.

(** A page of [e] entries that starts with [P]; the rest is zero. *)
Definition pad (e : nat) (P : list disk_exception) : list disk_exception :=
  P ++ replicate (e - length P) zero_exception.

(** The [k]-th batch of up to [e] exceptions of [E], as a page. *)
Definition batch (e k : nat) (E : list disk_exception) : list disk_exception :=
  pad e (take e (drop (k * e) E)).

Definition ceil_div (n d : nat) : nat := ((n + (d - 1)) / d)%nat.

Definition batches (e : nat) (E : list disk_exception) : list (list disk_exception) :=
  map (fun k => batch e k E) (seq 0 (ceil_div (length E) e)).

(** The reverse pass ends on a Replace, Zero or Copy operation. *)
Definition ends_with_data (riter : list CowOperation) : bool :=
  match last riter with
  | Some cow_op => negb (is_footer_or_label cow_op)
  | None => false
  end.

(** Whether the build appends a zero-filled page after the batches: when
    it saw no operation at all, or when the last batch is full and the
    pass ends on the operation that filled it. *)
Definition terminator (e : nat) (found : bool) (n : nat) (riter : list CowOperation)
    : bool :=
  (negb found && bool_decide (n = 0%nat))
  || (negb (bool_decide (n = 0%nat)) && bool_decide ((n mod e)%nat = 0%nat)
      && ends_with_data riter).

(** The number of Replace, Zero and Copy operations of a log. *)
Definition mergeable_ops (ops : list CowOperation) : list CowOperation :=
  filter (fun cow_op => negb (is_footer_or_label cow_op) = true) ops.

(** The ChunkMap listed by ascending ChunkId. *)
Definition key_le (p q : Z * CowOperation) : Prop := p.1 <= q.1.

#[global] Instance key_le_dec : RelDecision key_le.
Proof. intros p q. unfold key_le. apply _. Defined.

#[global] Instance key_le_total : Total key_le.
Proof. intros p q. unfold key_le. lia. Qed.

#[global] Instance key_le_trans : Transitive key_le.
Proof. intros p q r. unfold key_le. lia. Qed.

Definition ascending (m : gmap Z CowOperation) : list (Z * CowOperation) :=
  merge_sort key_le (map_to_list m).

(** The log is short enough for chunk ids to stay below [2^63]: each
    operation advances [next_free] by at most 4. *)
Definition ids_fit (ops : list CowOperation) : Prop :=
  4 * Z.of_nat (length ops) + 2 < 2 ^ 63.

(** The loop invariant of the build on the page being filled: [P] are
    the exceptions written to it so far. *)
Definition md_wf (e : nat) (l : md_locals) (P : list disk_exception) : Prop :=
  de_ptr l = pad e P ∧ (length P < e)%nat
  ∧ num_ops l = Z.of_nat (length P)
  ∧ offset l = sizeof_disk_exception * Z.of_nat (length P).

(** ** Predicates and inputs used by the statements *)

(** The shape of [vec_] after a build over [ops]: the batches of
    exceptions in order, then the zero-filled page if there is one. *)
Definition area_vector_layout (ops : list CowOperation)
    (v : list (list disk_exception)) : Prop :=
  let n := length (mergeable_ops ops) in
  let e := Z.to_nat EXCEPTIONS_PER_AREA in
  let E := exception_of <$> assigned EXCEPTIONS_PER_AREA (reverse ops) 2 false in
  let extra := terminator e false n (reverse ops) in
  old_chunk <$> E = new_block <$> reverse (mergeable_ops ops)
  ∧ length v = (ceil_div n e + if extra then 1 else 0)%nat
  ∧ (∀ k, (k < ceil_div n e)%nat → v !! k = Some (batch e k E))
  ∧ (extra = true → v !! ceil_div n e = Some (replicate e zero_exception))
  ∧ (extra = true ↔
     n = 0%nat ∨ ((n mod e)%nat = 0%nat ∧ ends_with_data (reverse ops) = true))
  ∧ (n = 0%nat → v = [replicate e zero_exception]).

(** The log of scenario E2, a Replace followed by a Copy, and its built
    device. *)
Definition example_log : list CowOperation := [replace_op 10; copy_op 20 30].
Definition example_built : Snapuserd MemCowReader MemCowWriter :=
  built_from (mem_device example_log []).


(** The typed view of a cleared payload region. *)
Definition zero_payload : list disk_exception :=
  replicate (Z.to_nat (PAYLOAD_SIZE / sizeof_disk_exception)) zero_exception.

(** A full area: the only page of a log of 256 Zero operations. *)
Definition full_area : list disk_exception :=
  default [] (vec_ (built_from (mem_device (zero_log 1 256) [])) !! 0%nat).

(** A merge-complete write for metadata chunk 1 carrying [page]. *)
Definition merge_request (page : list Z) : list Z :=
  header_bytes 0 DM_USER_REQ_MAP_WRITE 0 (ChunkToSector 1) BLOCK_SIZE ++ page.



(** [exceptions_per_area_ * sizeof(struct disk_exception)], the size of
    an area page. *)
Definition AREA_SIZE : Z := EXCEPTIONS_PER_AREA * sizeof_disk_exception.

(** The sink is allocated as its size says and has [n] payload bytes
    left at its offset. *)
Definition sink_has_room (b : BufferSink) (n : Z) : Prop :=
  buffer_size_ b = Z.of_nat (length (buffer_ b))
  ∧ 0 <= buffer_offset_ b
  ∧ sizeof_dm_user_header + buffer_offset_ b + n <= buffer_size_ b
  ∧ buffer_size_ b < 2 ^ 64.


(** The device after a merge cycle. *)
Definition after_merge (s : Snapuserd MemCowReader MemCowWriter) (chunk : Z)
    (buffer : list disk_exception) : Snapuserd MemCowReader MemCowWriter :=
  match ProcessMergeComplete s chunk buffer with
  | Ok (_, s') => s'
  | _ => s
  end.

(** The operation types the build and the merge accept: Footer, Label,
    Replace, Zero and Copy. *)
Definition known_op (cow_op : CowOperation) : bool :=
  is_footer_or_label cow_op || is_data_op cow_op.

(** What initialisation establishes and the request loop keeps: the page
    geometry, a sink of a header and [PAYLOAD_SIZE] bytes, at least one
    area, every area a full page. *)
Definition device_ok {R W} (s : Snapuserd R W) : Prop :=
  exceptions_per_area_ s = EXCEPTIONS_PER_AREA
  ∧ buffer_size_ (bufsink_ s) = sizeof_dm_user_header + PAYLOAD_SIZE
  ∧ vec_ s ≠ []
  ∧ Forall (fun area => length area = Z.to_nat EXCEPTIONS_PER_AREA) (vec_ s).

(** The example device after [InitCowDevice]. *)
Definition example_built_sink : Snapuserd MemCowReader MemCowWriter :=
  match InitCowDevice (mem_device example_log []) with
  | Ok (_, s') => s'
  | _ => mem_device example_log []
  end.

(** A kernel page that repeats the first [n] entries of an area and is
    zero from there on. *)
Definition merged_upto (n : nat) (area : list disk_exception)
    : list disk_exception :=
  take n area ++ zero_payload.

(** The first area of the example device. *)
Definition example_area : list disk_exception :=
  default [] (vec_ example_built !! 0%nat).

(** A built device whose writer refuses to commit. *)
Definition failing_commit_device (ops : list CowOperation)
    : Snapuserd MemCowReader MemCowWriter :=
  let s := one_block_device ops in
  set_merge s (vec_ s) (cowop_iter_ s) (reader_ s)
    {| mem_commit_ok := false; mem_commits := [] |}.

(** The kernel's [struct disk_header] as [ConstructKernelCowHeader]
    fills it, followed by the rest of the zeroed block. *)
Definition kernel_header_block : list Z :=
  le_bytes 4 SNAP_MAGIC ++ le_bytes 4 SNAPSHOT_VALID
  ++ le_bytes 4 SNAPSHOT_DISK_VERSION ++ le_bytes 4 CHUNK_SIZE
  ++ zeros (BLOCK_SIZE - 16).

(** Both fields of an exception fit a [uint64_t]. *)
Definition exception_fits (de : disk_exception) : bool :=
  (0 <=? old_chunk de) && (old_chunk de <? 2 ^ 64)
  && (0 <=? new_chunk de) && (new_chunk de <? 2 ^ 64).

(** The block an operation stands for: the payload the reader holds for
    a Replace, a block of zeroes for a Zero, the block of the base device
    at [source] for a Copy. *)
Definition op_block `{CowReaderI R} {W} (s : Snapuserd R W) (cow_op : CowOperation)
    : option (list Z) :=
  match type cow_op with
  | kCowReplaceOp => CowReader_ReadData (reader_ s) cow_op
  | kCowZeroOp => Some (zeros BLOCK_SIZE)
  | kCowCopyOp => backing_store_fd_ s (wrap64 (source cow_op * BLOCK_SIZE))
  | _ => None
  end.

(** The operations the ChunkMap holds for the [n] chunks from [chunk]
    on, each with its block; [None] when a chunk is not mapped or a
    block cannot be produced. *)
Fixpoint expected_blocks `{CowReaderI R} {W} (s : Snapuserd R W) (chunk : Z) (n : nat)
    : option (list (CowOperation * list Z)) :=
  match n with
  | O => Some []
  | S n' =>
      cow_op ← chunk_map_ s !! chunk;
      d ← op_block s cow_op;
      rest ← expected_blocks s (chunk + 1) n';
      Some ((cow_op, d) :: rest)
  end.

(** The blocks can be served by one call of [ReadData] that starts at
    [chunk]: each is [BLOCK_SIZE] long, and every block that is followed
    by another one ([more] tells whether the request goes on behind the
    list) belongs to no Copy and ends before a chunk id that is not a
    metadata id. *)
Fixpoint one_io (epa chunk : Z) (more : bool) (ods : list (CowOperation * list Z))
    : bool :=
  match ods with
  | [] => true
  | (cow_op, d) :: rest =>
      (Z.of_nat (length d) =? BLOCK_SIZE)
      && (bool_decide (rest = []) && negb more
          || negb (is_type kCowCopyOp cow_op)
             && negb (IsChunkIdMetadata epa (chunk + 1)))
      && one_io epa (chunk + 1) more rest
  end.

(** The sink with another offset and other contents. *)
Definition sink_at (b : BufferSink) (off : Z) (buf : list Z) : BufferSink :=
  {| buffer_size_ := buffer_size_ b; buffer_offset_ := off; buffer_ := buf |}.

(** An operation the data path cannot serve. *)
Definition unreadable_op (blk : Z) : CowOperation :=
  {| type := kCowUnknownOp 9; new_block := blk; source := 0 |}.

(** A device with a sink of two blocks whose ChunkMap is given. *)
Definition mapped_device (m : list (Z * CowOperation))
    : Snapuserd MemCowReader MemCowWriter :=
  let s := mem_device [] [] in
  {| bufsink_ := Initialize (sizeof_dm_user_header + 2 * BLOCK_SIZE);
     reader_ := reader_ s; writer_ := writer_ s; cowop_iter_ := [];
     vec_ := []; chunk_map_ := list_to_map m;
     exceptions_per_area_ := EXCEPTIONS_PER_AREA; num_sectors_ := 0;
     metadata_read_done_ := true;
     backing_store_fd_ := backing_store_fd_ s; ctrl_fd_ := ctrl_fd_ s |}.

(** [s'] is [s] but for the contents and the offset of the sink. *)
Definition only_sink {R W} (s s' : Snapuserd R W) : Prop :=
  s' = set_bufsink s (bufsink_ s')
  ∧ buffer_size_ (bufsink_ s') = buffer_size_ (bufsink_ s).

(** [s'] is [s] but for the sink and the control device; the writes that
    are still to fail on [s'] were to fail on [s]. *)
Definition only_io {R W} (s s' : Snapuserd R W) : Prop :=
  s' = set_ctrl (set_bufsink s (bufsink_ s')) (ctrl_fd_ s')
  ∧ buffer_size_ (bufsink_ s') = buffer_size_ (bufsink_ s)
  ∧ ctrl_wr_fail (ctrl_fd_ s') ⊆ ctrl_wr_fail (ctrl_fd_ s).

(** What no request changes: the ChunkMap, the page geometry, the size
    of the device and of the sink, the base device, and the number and
    the sizes of the areas. *)
Definition same_geometry {R W} (s s' : Snapuserd R W) : Prop :=
  chunk_map_ s' = chunk_map_ s
  ∧ exceptions_per_area_ s' = exceptions_per_area_ s
  ∧ num_sectors_ s' = num_sectors_ s
  ∧ metadata_read_done_ s' = metadata_read_done_ s
  ∧ backing_store_fd_ s' = backing_store_fd_ s
  ∧ buffer_size_ (bufsink_ s') = buffer_size_ (bufsink_ s)
  ∧ length <$> vec_ s' = length <$> vec_ s.

(** A built device with a sink of one block and queued request bytes;
    [fail] tells which of the coming writes to the control device fail. *)
Definition small_device (ops : list CowOperation) (input : list Z)
    (fail : list bool) : Snapuserd MemCowReader MemCowWriter :=
  set_ctrl (one_block_device ops)
    {| ctrl_in := input; ctrl_wr_fail := fail; ctrl_out := [] |}.

(** The device after one pass of the request loop. *)
Definition after_run (s : Snapuserd MemCowReader MemCowWriter)
    : Snapuserd MemCowReader MemCowWriter :=
  match Run s with
  | Ok (_, s') => s'
  | _ => s
  end.

(** A request header with its [type] field replaced: the header of the
    reply. *)
Definition response_header (bytes : list Z) (ty : Z) : list Z :=
  take (Z.to_nat hdr_type) bytes ++ le_bytes 4 ty
  ++ drop (Z.to_nat hdr_flags) bytes.

(** The control device after the daemon has read [n] bytes. *)
Definition ctrl_after_read (c : ctrl_dev) (n : Z) : ctrl_dev :=
  {| ctrl_in := drop (Z.to_nat n) (ctrl_in c);
     ctrl_wr_fail := ctrl_wr_fail c; ctrl_out := ctrl_out c |}.

(** The fields of the request header queued on the control device. *)
Definition request_field (c : ctrl_dev) (off n : Z) : Z :=
  le_value (take (Z.to_nat n) (drop (Z.to_nat off) (ctrl_in c))).

(** The device as the request is dispatched: the sink cleared, the 32
    bytes of the request header at its start, the header consumed from
    the control device. *)
Definition with_request {R W} (s : Snapuserd R W) : Snapuserd R W :=
  let c := ctrl_fd_ s in
  let bytes := take (Z.to_nat sizeof_dm_user_header) (ctrl_in c) in
  set_ctrl
    (set_bufsink s
       (sink_at (bufsink_ s) 0
          (bytes ++ zeros (buffer_size_ (bufsink_ s) - sizeof_dm_user_header))))
    (ctrl_after_read c sizeof_dm_user_header).

(** The payload sizes of the frames that answer a read of [len] bytes:
    [PAYLOAD_SIZE] as long as more than that remains, then the rest; one
    empty frame when [len] is 0. *)
Definition reply_sizes (len : Z) : list Z :=
  let full := Z.max 0 ((len - 1) / PAYLOAD_SIZE) in
  replicate (Z.to_nat full) PAYLOAD_SIZE ++ [len - PAYLOAD_SIZE * full].

(** The page [ReadDiskExceptions] serves for a chunk id: the byte image
    of the area the id selects, or a page of zeroes when the id lies
    behind the last area. *)
Definition metadata_page {R W} (s : Snapuserd R W) (chunk : Z) : list Z :=
  let idx := wrap64 (quot (lldiv (to_sll chunk) (stride_of EXCEPTIONS_PER_AREA))) in
  if decide (idx < Z.of_nat (length (vec_ s)))
  then area_bytes (default [] (vec_ s !! Z.to_nat idx))
  else zeros AREA_SIZE.

(** The reply to a request: the pass returns what the write of [frame]
    to the control device returns, and that write is all that happens to
    the control device after the header has been consumed. *)
Definition replies_with `{CowReaderI R, CowWriterI W} (s : Snapuserd R W)
    (frame : list Z) : Prop :=
  let c := ctrl_after_read (ctrl_fd_ s) sizeof_dm_user_header in
  ∃ s', Run s = Ok ((ctrl_write c frame).1, s')
    ∧ ctrl_fd_ s' = (ctrl_write c frame).2.

(** The 32 bytes of the queued request header. *)
Definition request_bytes {R W} (s : Snapuserd R W) : list Z :=
  take (Z.to_nat sizeof_dm_user_header) (ctrl_in (ctrl_fd_ s)).

(** The device as [ProcessMergeComplete] is called for a merge-completion
    write: the header of the reply preset to [DM_USER_RESP_SUCCESS] at
    the start of the sink, the page read from the control device behind
    it, the rest of the sink zero. *)
Definition with_merge_page {R W} (s : Snapuserd R W) : Snapuserd R W :=
  let c := ctrl_after_read (ctrl_fd_ s) sizeof_dm_user_header in
  let page := take (Z.to_nat BLOCK_SIZE) (ctrl_in c) in
  let rest := zeros (buffer_size_ (bufsink_ s) - sizeof_dm_user_header) in
  set_ctrl
    (set_bufsink s
       (sink_at (bufsink_ s) 0
          (response_header (request_bytes s) DM_USER_RESP_SUCCESS
           ++ page ++ drop (Z.to_nat BLOCK_SIZE) rest)))
    (ctrl_after_read c BLOCK_SIZE).

(** * Chunk identifiers *)

Section chunk_ids.
Variable epa : Z.

Lemma wrap64_small z : 0 <= z < 2 ^ 64 → wrap64 z = z.
Proof. intros Hz. unfold wrap64. by apply Z.mod_small. Qed.

Lemma to_sll_small z : z < 2 ^ 63 → to_sll z = z.
Proof. intros Hz. unfold to_sll. by rewrite (proj2 (Z.ltb_lt _ _) Hz). Qed.

Lemma GetNextAllocatableChunkId_bounds c :
  0 <= c → c + 2 < 2 ^ 63 →
  c + 1 <= GetNextAllocatableChunkId epa c <= c + 2.
Proof.
  intros H0 Hc. unfold GetNextAllocatableChunkId.
  rewrite (wrap64_small (c + 1)) by lia.
  destruct (IsChunkIdMetadata epa (c + 1)).
  - rewrite wrap64_small; lia.
  - lia.
Qed.

Lemma assigned_ops riter nf prev :
  (assigned epa riter nf prev).*2
  = filter (fun cow_op => negb (is_footer_or_label cow_op) = true) riter.
Proof.
  revert nf prev. induction riter as [|op riter IH]; intros nf prev; [done|].
  cbn [assigned]. rewrite filter_cons.
  destruct (is_footer_or_label op) eqn:E; cbn.
  - rewrite decide_False by done. apply IH.
  - rewrite decide_True by done. cbn. f_equal. apply IH.
Qed.

Lemma assigned_length riter nf prev :
  (length (assigned epa riter nf prev) <= length riter)%nat.
Proof.
  revert nf prev. induction riter as [|op riter IH]; intros nf prev; [done|].
  cbn [assigned]. destruct (is_footer_or_label op); cbn.
  - specialize (IH nf prev). lia.
  - specialize (IH (GetNextAllocatableChunkId epa
       (if is_type kCowCopyOp op || prev then GetNextAllocatableChunkId epa nf else nf))
       (is_type kCowCopyOp op)). lia.
Qed.

(** Every id handed out is at least [next_free], and strictly above it
    when the operation is a Copy or follows one. *)
Lemma assigned_lower riter nf prev c op :
  0 <= nf → nf + 4 * Z.of_nat (length riter) < 2 ^ 63 →
  (c, op) ∈ assigned epa riter nf prev →
  nf <= c < nf + 4 * Z.of_nat (length riter)
  ∧ (is_type kCowCopyOp op || prev = true → nf + 1 <= c).
Proof.
  revert nf prev. induction riter as [|o riter IH]; intros nf prev H0 Hfit Hin.
  { by apply elem_of_nil in Hin. }
  cbn [assigned] in Hin. cbn [length] in Hfit |- *.
  destruct (is_footer_or_label o).
  { apply IH in Hin as [Hin1 Hin2]; [|lia..]. split; [lia|done]. }
  set (c0 := if is_type kCowCopyOp o || prev
             then GetNextAllocatableChunkId epa nf else nf) in *.
  assert (Hc0 : nf <= c0 <= nf + 2
                ∧ (is_type kCowCopyOp o || prev = true → nf + 1 <= c0)).
  { subst c0. destruct (is_type kCowCopyOp o || prev).
    - pose proof (GetNextAllocatableChunkId_bounds nf). split; [lia|intros _; lia].
    - split; [lia|done]. }
  destruct Hc0 as [Hc0 Hc1].
  apply elem_of_cons in Hin as [Heq|Hin].
  - injection Heq as -> ->. split; [lia|done].
  - pose proof (GetNextAllocatableChunkId_bounds c0).
    apply IH in Hin as [Hin1 _]; [|lia..]. split; [lia|intros _; lia].
Qed.

(** Two ids that differ by one belong to no Copy. *)
Lemma assigned_gap riter nf prev a opa b opb :
  0 <= nf → nf + 4 * Z.of_nat (length riter) < 2 ^ 63 →
  (a, opa) ∈ assigned epa riter nf prev →
  (b, opb) ∈ assigned epa riter nf prev →
  b = a + 1 →
  is_type kCowCopyOp opa = false ∧ is_type kCowCopyOp opb = false.
Proof.
  revert nf prev. induction riter as [|o riter IH]; intros nf prev H0 Hfit Ha Hb Hab.
  { by apply elem_of_nil in Ha. }
  cbn [assigned] in Ha, Hb. cbn [length] in Hfit.
  destruct (is_footer_or_label o).
  { eapply IH; [| |exact Ha|exact Hb|done]; lia. }
  set (c0 := if is_type kCowCopyOp o || prev
             then GetNextAllocatableChunkId epa nf else nf) in *.
  assert (Hc0 : nf <= c0 <= nf + 2).
  { subst c0. destruct (is_type kCowCopyOp o || prev); [|lia].
    pose proof (GetNextAllocatableChunkId_bounds nf). lia. }
  pose proof (GetNextAllocatableChunkId_bounds c0) as Hn.
  apply elem_of_cons in Ha as [Ha|Ha], Hb as [Hb|Hb].
  - injection Ha as -> ->. injection Hb as -> ->. lia.
  - injection Ha as -> ->.
    apply assigned_lower in Hb as [Hb1 Hb2]; [|lia..].
    destruct (is_type kCowCopyOp o) eqn:Eo.
    { rewrite orb_true_r in Hb2. lia. }
    destruct (is_type kCowCopyOp opb) eqn:Eb; [|done].
    cbn in Hb2. lia.
  - injection Hb as -> ->.
    apply assigned_lower in Ha as [Ha1 _]; [|lia..]. lia.
  - eapply IH; [| |exact Ha|exact Hb|done]; lia.
Qed.

(** The ids go up along the pass. *)
Lemma assigned_sorted riter nf prev :
  0 <= nf → nf + 4 * Z.of_nat (length riter) < 2 ^ 63 →
  StronglySorted (fun p q : Z * CowOperation => p.1 < q.1)
    (assigned epa riter nf prev).
Proof.
  revert nf prev. induction riter as [|o riter IH]; intros nf prev H0 Hfit.
  { constructor. }
  cbn [assigned]. cbn [length] in Hfit.
  destruct (is_footer_or_label o).
  { apply IH; lia. }
  set (c0 := if is_type kCowCopyOp o || prev
             then GetNextAllocatableChunkId epa nf else nf) in *.
  assert (Hc0 : nf <= c0 <= nf + 2).
  { subst c0. destruct (is_type kCowCopyOp o || prev); [|lia].
    pose proof (GetNextAllocatableChunkId_bounds nf). lia. }
  pose proof (GetNextAllocatableChunkId_bounds c0) as Hn.
  constructor.
  - apply IH; lia.
  - apply Forall_forall. intros [b opb] Hb.
    apply assigned_lower in Hb as [Hb _]; [|lia..]. cbn. lia.
Qed.
End chunk_ids.

(** * Pages and batches *)

Section pages.
Variable e : nat.
Hypothesis e_pos : (0 < e)%nat.

Lemma pad_length P : (length P <= e)%nat → length (pad e P) = e.
Proof. intros HP. unfold pad. rewrite length_app, length_replicate. lia. Qed.

Lemma pad_full P : length P = e → pad e P = P.
Proof.
  intros HP. unfold pad. rewrite HP, Nat.sub_diag. cbn. apply app_nil_r.
Qed.

Lemma pad_nil : pad e [] = replicate e zero_exception.
Proof. unfold pad. cbn. by rewrite Nat.sub_0_r. Qed.

Lemma pad_snoc P de :
  (length P < e)%nat → <[length P := de]> (pad e P) = pad e (P ++ [de]).
Proof.
  intros HP. unfold pad.
  rewrite insert_app_r_alt by lia. rewrite Nat.sub_diag.
  rewrite length_app. cbn [length].
  replace (e - length P)%nat with (S (e - (length P + 1))) by lia.
  cbn. by rewrite <- app_assoc.
Qed.

Lemma ceil_div_0 : ceil_div 0 e = 0%nat.
Proof. unfold ceil_div. cbn. apply Nat.div_small. lia. Qed.

Lemma ceil_div_small n : (0 < n <= e)%nat → ceil_div n e = 1%nat.
Proof.
  intros Hn. unfold ceil_div.
  replace (n + (e - 1))%nat with ((n - 1) + 1 * e)%nat by lia.
  rewrite Nat.div_add by lia. rewrite Nat.div_small by lia. done.
Qed.

Lemma ceil_div_add n : ceil_div (e + n) e = S (ceil_div n e).
Proof.
  unfold ceil_div.
  replace (e + n + (e - 1))%nat with ((n + (e - 1)) + 1 * e)%nat by lia.
  rewrite Nat.div_add by lia. lia.
Qed.

Lemma batches_nil : batches e [] = [].
Proof. unfold batches. cbn [length]. by rewrite ceil_div_0. Qed.

Lemma batches_partial X :
  X ≠ [] → (length X <= e)%nat → batches e X = [pad e X].
Proof.
  intros HX Hlen. unfold batches.
  assert (0 < length X)%nat by (destruct X; cbn; [done|lia]).
  rewrite ceil_div_small by lia.
  cbn. unfold batch. cbn. rewrite drop_0. by rewrite take_ge by lia.
Qed.

Lemma batches_full F X :
  length F = e → batches e (F ++ X) = F :: batches e X.
Proof.
  intros HF. unfold batches.
  rewrite length_app, HF, ceil_div_add. cbn [seq map]. f_equal.
  - unfold batch. cbn. rewrite drop_0, take_app_length' by done. by apply pad_full.
  - rewrite <- seq_shift, map_map. apply map_ext. intros k.
    unfold batch. cbn. rewrite drop_app_add' by done. done.
Qed.

Lemma batches_length E : length (batches e E) = ceil_div (length E) e.
Proof. unfold batches. by rewrite length_map, length_seq. Qed.

Lemma batches_lookup E k :
  (k < ceil_div (length E) e)%nat → batches e E !! k = Some (batch e k E).
Proof.
  intros Hk. unfold batches. rewrite list_lookup_fmap.
  rewrite lookup_seq_lt by done. done.
Qed.
End pages.

(** * The metadata build *)

Lemma ends_with_data_cons op riter :
  ends_with_data (op :: riter)
  = if bool_decide (riter = []) then negb (is_footer_or_label op)
    else ends_with_data riter.
Proof.
  unfold ends_with_data. destruct riter as [|o riter]; [done|].
  rewrite bool_decide_eq_false_2 by done. by rewrite last_cons_cons.
Qed.

Lemma ends_with_data_assigned epa riter nf prev :
  ends_with_data riter = true → assigned epa riter nf prev ≠ [].
Proof.
  revert nf prev. induction riter as [|op riter IH]; intros nf prev; [done|].
  rewrite ends_with_data_cons. cbn [assigned]. case_bool_decide as Hr.
  - intros Hop. apply negb_true_iff in Hop. by rewrite Hop.
  - intros He. destruct (is_footer_or_label op); [by apply IH|done].
Qed.

Lemma insert_all_cons m c op A :
  insert_all m ((c, op) :: A) = insert_all (<[c := op]> m) A.
Proof. done. Qed.

Section build.
Variable epa : Z.
Hypothesis epa_pos : 0 < epa.
Local Abbreviation e := (Z.to_nat epa).

Lemma e_positive : (0 < e)%nat.
Proof. lia. Qed.

Lemma zero_area_pad : zero_area (epa * sizeof_disk_exception) = pad e [].
Proof.
  unfold zero_area, sizeof_disk_exception. rewrite Z.div_mul by lia.
  unfold pad. cbn. by rewrite Nat.sub_0_r.
Qed.

Lemma area_store_pad P de :
  (length P < e)%nat →
  area_store (pad e P) (sizeof_disk_exception * Z.of_nat (length P)) de
  = Some (pad e (P ++ [de])).
Proof.
  intros HP. pose proof e_positive as He. unfold area_store.
  assert (Hin : in_area (pad e P)
                  (sizeof_disk_exception * Z.of_nat (length P)) = true).
  { unfold in_area. rewrite pad_length by lia. unfold sizeof_disk_exception.
    rewrite (Z.mul_comm 16 (Z.of_nat (length P))), Z.mod_mul by lia.
    apply andb_true_intro; split; [apply andb_true_intro; split|].
    - apply Z.leb_le. lia.
    - done.
    - apply Z.leb_le. lia. }
  rewrite Hin. unfold sizeof_disk_exception.
  rewrite (Z.mul_comm 16 (Z.of_nat (length P))), Z.div_mul by lia.
  rewrite Nat2Z.id. by rewrite pad_snoc.
Qed.

(** One pass of the loop body on a well-formed page. *)
Lemma ReadMetadata_body_spec op fin l P :
  md_wf e l P →
  let nf := if is_type kCowCopyOp op || prev_copy_op l
            then GetNextAllocatableChunkId epa (next_free l) else next_free l in
  let P' := P ++ [exception_of (nf, op)] in
  ∃ l', ReadMetadata_body epa op fin l = Ok l'
    ∧ next_free l' = GetNextAllocatableChunkId epa nf
    ∧ prev_copy_op l' = is_type kCowCopyOp op
    ∧ metadata_found l' = true
    ∧ l_chunk_map l' = <[nf := op]> (l_chunk_map l)
    ∧ if decide (length P' = e) then
        num_ops l' = 0
        ∧ l_vec l' = (l_vec l ++ [P'])
                     ++ (if fin then [zero_area (epa * sizeof_disk_exception)] else [])
        ∧ (fin = false → md_wf e l' [])
      else l_vec l' = l_vec l ∧ md_wf e l' P'.
Proof.
  intros (Hde & Hlen & Hn & Hoff) nf P'. pose proof e_positive as He.
  unfold ReadMetadata_body. fold nf.
  rewrite Hde, Hoff, area_store_pad by done. cbn.
  change {| old_chunk := new_block op; new_chunk := nf |}
    with (exception_of (nf, op)). fold P'.
  assert (HP' : length P' = S (length P)).
  { unfold P'. rewrite length_app. cbn. lia. }
  destruct (decide (length P' = e)) as [Hfull|Hpart].
  - replace (num_ops l + 1 =? epa) with true
      by (symmetry; apply Z.eqb_eq; lia).
    eexists. split; [done|]. cbn.
    split; [done|]. split; [done|]. split; [done|]. split; [done|].
    split; [done|]. split.
    + rewrite pad_full by done. destruct fin; [done|by rewrite app_nil_r].
    + intros ->. unfold md_wf. cbn. rewrite zero_area_pad.
      split; [done|]. split; [lia|]. split; [done|]. unfold sizeof_disk_exception. lia.
  - replace (num_ops l + 1 =? epa) with false
      by (symmetry; apply Z.eqb_neq; lia).
    eexists. split; [done|]. cbn.
    split; [done|]. split; [done|]. split; [done|]. split; [done|].
    split; [done|]. unfold md_wf. cbn.
    split; [done|]. split; [lia|]. split; [lia|].
    rewrite HP'. unfold sizeof_disk_exception. lia.
Qed.

(** The map the loop builds: the assignments, inserted in order. *)
Lemma ReadMetadata_loop_map riter l l' P :
  md_wf e l P →
  ReadMetadata_loop epa riter l = Ok (true, l') →
  l_chunk_map l'
  = insert_all (l_chunk_map l)
      (assigned epa riter (next_free l) (prev_copy_op l)).
Proof.
  revert l P. induction riter as [|op riter IH]; intros l P Hwf Hloop.
  { by injection Hloop as <-. }
  cbn [ReadMetadata_loop assigned] in *.
  destruct (is_footer_or_label op); [by eapply IH|].
  destruct (is_data_op op); [|done]. cbn [negb] in Hloop.
  destruct (ReadMetadata_body_spec op (bool_decide (riter = [])) l P Hwf)
    as (l1 & Hbody & Hnf & Hprev & _ & Hmap & Hcase).
  rewrite Hbody in Hloop. cbn in Hloop. rewrite insert_all_cons, <- Hmap, <- Hnf, <- Hprev.
  destruct (decide _) as [Hfull|Hpart].
  - destruct Hcase as (_ & _ & Hwf1). case_bool_decide as Hr.
    + subst riter. cbn in Hloop. by injection Hloop as <-.
    + by eapply (IH _ []); [apply Hwf1|].
  - destruct Hcase as [_ Hwf1]. by eapply IH.
Qed.

(** The pages the build leaves in [vec_]. *)
Lemma ReadMetadata_loop_vec riter l l' P :
  md_wf e l P → (P ≠ [] → metadata_found l = true) →
  ReadMetadata_loop epa riter l = Ok (true, l') →
  let E := exception_of <$> assigned epa riter (next_free l) (prev_copy_op l) in
  md_final l'
  = l_vec l ++ batches e (P ++ E)
    ++ (if terminator e (metadata_found l) (length (P ++ E)) riter
        then [zero_area (epa * sizeof_disk_exception)] else []).
Proof.
  pose proof e_positive as He.
  revert l P. induction riter as [|op riter IH]; intros l P Hwf Hmf Hloop E.
  { injection Hloop as <-. subst E. cbn. rewrite app_nil_r.
    destruct Hwf as (Hde & Hlen & Hn & Hoff).
    unfold md_final, terminator. rewrite Hn, Hde.
    destruct P as [|p P].
    - cbn. rewrite batches_nil by done. cbn.
      rewrite zero_area_pad. unfold pad. destruct (metadata_found l); cbn; by rewrite ?app_nil_r.
    - rewrite Hmf by done. cbn [length].
      replace (Z.of_nat (S (length P)) =? 0) with false
        by (symmetry; apply Z.eqb_neq; lia).
      cbn. rewrite batches_partial by (done || cbn in *; lia).
      by rewrite andb_false_r. }
  subst E. cbn [ReadMetadata_loop assigned] in *.
  assert (Hterm : ∀ found n,
    bool_decide (riter = []) = false →
    terminator e found n (op :: riter) = terminator e found n riter).
  { intros found n Hr. unfold terminator.
    by rewrite ends_with_data_cons, Hr. }
  destruct (is_footer_or_label op) eqn:Hlab.
  { rewrite (IH _ _ Hwf Hmf Hloop).
    assert (Ht : ∀ found n,
      terminator e found n (op :: riter) = terminator e found n riter).
    { intros found n. destruct riter as [|o riter]; [|by apply Hterm].
      unfold terminator. rewrite ends_with_data_cons. cbn. by rewrite Hlab. }
    by rewrite Ht. }
  destruct (is_data_op op); [|done]. cbn [negb] in Hloop.
  destruct (ReadMetadata_body_spec op (bool_decide (riter = [])) l P Hwf)
    as (l1 & Hbody & Hnf & Hprev & Hfound & _ & Hcase).
  rewrite Hbody in Hloop. cbn in Hloop. rewrite fmap_cons.
  set (nf := if is_type kCowCopyOp op || prev_copy_op l
             then GetNextAllocatableChunkId epa (next_free l)
             else next_free l) in *.
  set (de := exception_of (nf, op)) in *.
  set (E := exception_of <$> assigned epa riter
              (GetNextAllocatableChunkId epa nf) (is_type kCowCopyOp op)).
  replace (P ++ de :: E) with ((P ++ [de]) ++ E) by (by rewrite <- app_assoc).
  assert (HP' : length (P ++ [de]) = S (length P)).
  { rewrite length_app. cbn. lia. }
  destruct (decide (length (P ++ [de]) = e)) as [Hfull|Hpart].
  - destruct Hcase as (Hn1 & Hvec & Hwf1).
    rewrite batches_full by done.
    case_bool_decide as Hr.
    + subst riter. cbn in Hloop. injection Hloop as <-.
      subst E. cbn. rewrite batches_nil by done.
      unfold md_final. rewrite Hn1, Hfound, Hvec. cbn.
      unfold terminator. rewrite app_nil_r, Hfull.
      rewrite ends_with_data_cons. cbn. rewrite Hlab. cbn.
      rewrite Nat.Div0.mod_same.
      rewrite bool_decide_eq_false_2 by lia.
      rewrite bool_decide_eq_true_2 by done.
      rewrite orb_true_r. cbn. by rewrite <- app_assoc.
    + specialize (IH l1 [] (Hwf1 eq_refl) (fun H => False_ind _ (H eq_refl)) Hloop).
      cbn beta zeta in IH. rewrite Hnf, Hprev in IH. fold E in IH.
      change ([] ++ E) with E in IH.
      assert (Ht : terminator e true (length E) riter
                   = terminator e (metadata_found l)
                       (length ((P ++ [de]) ++ E)) (op :: riter)).
      { rewrite Hterm by done.
        unfold terminator. rewrite length_app, Hfull.
        rewrite (bool_decide_eq_false_2 (e + length E = 0)%nat) by lia.
        rewrite andb_false_r. cbn [negb orb andb].
        replace ((e + length E) mod e)%nat with (length E mod e)%nat
          by (replace (e + length E)%nat with (length E + 1 * e)%nat by lia;
              by rewrite Nat.Div0.mod_add).
        case_bool_decide as HE; cbn [negb andb]; [|done].
        destruct (ends_with_data riter) eqn:Hend; [|by rewrite andb_false_r].
        exfalso. eapply ends_with_data_assigned; [exact Hend|].
        apply length_zero_iff_nil. subst E.
        rewrite length_fmap in HE. exact HE. }
      rewrite IH, Hvec, Hfound, Ht, app_nil_r, <- !app_assoc. done.
  - destruct Hcase as [Hvec Hwf1].
    specialize (IH l1 (P ++ [de]) Hwf1 (fun _ => Hfound) Hloop).
    cbn beta zeta in IH. rewrite Hnf, Hprev in IH. fold E in IH.
    rewrite IH, Hvec, Hfound.
    assert (Hlen : (0 < length ((P ++ [de]) ++ E))%nat).
    { rewrite length_app. lia. }
    assert (Ht : terminator e true (length ((P ++ [de]) ++ E)) riter
                 = terminator e (metadata_found l)
                     (length ((P ++ [de]) ++ E)) (op :: riter));
      [|by rewrite Ht].
    unfold terminator. rewrite ends_with_data_cons.
    rewrite !(bool_decide_eq_false_2 (length ((P ++ [de]) ++ E) = 0%nat)) by lia.
    rewrite !andb_false_r. cbn [negb orb andb].
    destruct (decide (riter = [])) as [->|Hr].
    + rewrite (bool_decide_eq_true_2 ([] = [])) by done.
      subst E. cbn [assigned fmap list_fmap]. rewrite app_nil_r.
      destruct Hwf1 as (_ & Hlt & _).
      rewrite Nat.mod_small by lia. rewrite HP'.
      rewrite !(bool_decide_eq_false_2 (S (length P) = 0%nat)) by lia. done.
    + by rewrite (bool_decide_eq_false_2 (riter = [])) by done.
Qed.
End build.

(** * The ChunkMap as a list of assignments *)

Lemma insert_all_rev m A :
  insert_all m A = foldr (fun p m => <[p.1 := p.2]> m) m (reverse A).
Proof.
  revert m. induction A as [|p A IH]; intros m; [done|].
  rewrite reverse_cons, foldr_app. cbn. apply IH.
Qed.

Lemma insert_all_empty A : insert_all ∅ A = list_to_map (reverse A).
Proof. by rewrite insert_all_rev. Qed.

Lemma sorted_keys_NoDup (A : list (Z * CowOperation)) :
  StronglySorted (fun p q => p.1 < q.1) A → NoDup A.*1.
Proof.
  induction 1 as [|p A Hs IH Hp]; cbn; constructor; [|done].
  intros Hin. apply list_elem_of_fmap in Hin as (q & Hq & Hin).
  rewrite Forall_forall in Hp. specialize (Hp q Hin). lia.
Qed.

Lemma insert_all_lookup A k op :
  StronglySorted (fun p q : Z * CowOperation => p.1 < q.1) A →
  insert_all ∅ A !! k = Some op ↔ (k, op) ∈ A.
Proof.
  intros Hs. rewrite insert_all_empty.
  rewrite <- elem_of_list_to_map.
  - by rewrite elem_of_reverse.
  - rewrite fmap_reverse, reverse_Permutation. by apply sorted_keys_NoDup.
Qed.

(** Listing the map by ascending key gives back the assignments. *)
Lemma ascending_insert_all A :
  StronglySorted (fun p q : Z * CowOperation => p.1 < q.1) A →
  ascending (insert_all ∅ A) = A.
Proof.
  intros Hs. pose proof (sorted_keys_NoDup A Hs) as Hnd.
  unfold ascending.
  assert (Hperm : merge_sort key_le (map_to_list (insert_all ∅ A)) ≡ₚ A).
  { rewrite merge_sort_Permutation, insert_all_empty.
    rewrite map_to_list_to_map.
    - apply reverse_Permutation.
    - by rewrite fmap_reverse, reverse_Permutation. }
  apply (StronglySorted_unique_strong key_le); [| |  |done].
  - intros [k1 o1] [k2 o2] H1 H2 Hle1 Hle2. unfold key_le in *. cbn in *.
    assert (k1 = k2) as -> by lia. rewrite Hperm in H1.
    f_equal.
    apply (elem_of_list_to_map_1 (M := gmap Z)) in H1, H2; [|done..].
    congruence.
  - apply StronglySorted_merge_sort; apply _.
  - clear Hnd Hperm. induction Hs as [|p A Hs IH Hp]; constructor; [done|].
    eapply Forall_impl; [exact Hp|]. intros q. unfold key_le. lia.
Qed.

(** * What a successful build leaves behind *)

Lemma EXCEPTIONS_PER_AREA_pos : 0 < EXCEPTIONS_PER_AREA.
Proof. done. Qed.

Section build_result.
Context `{CowReaderI R, CowWriterI W}.
Implicit Types s : Snapuserd R W.

Lemma ReadMetadata_inv s s' :
  ReadMetadata s = Ok (true, s') →
  ∃ r header l,
    Parse (reader_ s) = Some r ∧ GetHeader r = Some header
    ∧ ReadMetadata_loop EXCEPTIONS_PER_AREA (GetRevOpIter r)
        (md_init EXCEPTIONS_PER_AREA (vec_ s) (chunk_map_ s)) = Ok (true, l)
    ∧ reader_ s' = r ∧ cowop_iter_ s' = GetOpIter r
    ∧ vec_ s' = md_final l ∧ chunk_map_ s' = l_chunk_map l
    ∧ exceptions_per_area_ s' = EXCEPTIONS_PER_AREA
    ∧ num_sectors_ s' = ChunkToSector (next_free l)
    ∧ metadata_read_done_ s' = true
    ∧ bufsink_ s' = bufsink_ s.
Proof.
  unfold ReadMetadata. intros Hrm.
  destruct (Parse (reader_ s)) as [r|] eqn:Hparse; [|done].
  destruct (GetHeader r) as [header|] eqn:Hheader; [|done].
  destruct (block_size header =? BLOCK_SIZE); [|done]. cbn in Hrm.
  destruct (ReadMetadata_loop _ _ _) as [[ok l]| |] eqn:Hloop; [|done..].
  cbn in Hrm. destruct ok; [|done]. cbn in Hrm.
  injection Hrm as <-. by exists r, header, l.
Qed.

Lemma md_init_wf v cm :
  md_wf (Z.to_nat EXCEPTIONS_PER_AREA) (md_init EXCEPTIONS_PER_AREA v cm) [].
Proof.
  unfold md_wf, md_init. cbn [de_ptr num_ops offset length].
  rewrite zero_area_pad by done. split; [done|]. split; [|done].
  pose proof EXCEPTIONS_PER_AREA_pos. lia.
Qed.

(** The build of a fresh device, in terms of the assignments. *)
Lemma ReadMetadata_fresh s s' :
  ReadMetadata s = Ok (true, s') →
  let ops := GetOpIter (reader_ s') in
  let A := assigned EXCEPTIONS_PER_AREA (reverse ops) 2 false in
  let e := Z.to_nat EXCEPTIONS_PER_AREA in
  chunk_map_ s' = insert_all (chunk_map_ s) A
  ∧ vec_ s' = vec_ s ++ batches e (exception_of <$> A)
      ++ (if terminator e false (length A) (reverse ops)
          then [replicate e zero_exception] else [])
  ∧ exceptions_per_area_ s' = EXCEPTIONS_PER_AREA
  ∧ cowop_iter_ s' = ops.
Proof.
  intros Hrm. apply ReadMetadata_inv in Hrm
    as (r & header & l & _ & _ & Hloop & -> & Hit & Hvec & Hmap & Hepa & _).
  cbn zeta. split; [|split; [|done]].
  - rewrite Hmap.
    by rewrite (ReadMetadata_loop_map _ EXCEPTIONS_PER_AREA_pos _ _ _ []
                  (md_init_wf _ _) Hloop).
  - rewrite Hvec.
    rewrite (ReadMetadata_loop_vec _ EXCEPTIONS_PER_AREA_pos _ _ _ []
               (md_init_wf _ _) (fun H => False_ind _ (H eq_refl)) Hloop).
    cbn [md_init l_vec next_free prev_copy_op metadata_found app].
    rewrite length_fmap, zero_area_pad, pad_nil by done. done.
Qed.
End build_result.

Lemma ids_fit_reverse ops :
  ids_fit ops → 0 <= 2 ∧ 2 + 4 * Z.of_nat (length (reverse ops)) < 2 ^ 63.
Proof. unfold ids_fit. rewrite length_reverse. lia. Qed.

Section build_claims.
Context `{CowReaderI R, CowWriterI W}.
Implicit Types s : Snapuserd R W.

Lemma assigned_mergeable epa ops nf prev :
  (assigned epa (reverse ops) nf prev).*2 = reverse (mergeable_ops ops).
Proof. unfold mergeable_ops. by rewrite assigned_ops, filter_reverse. Qed.

Lemma assigned_count epa ops nf prev :
  length (assigned epa (reverse ops) nf prev) = length (mergeable_ops ops).
Proof.
  rewrite <- (length_fmap snd), assigned_mergeable. apply length_reverse.
Qed.

(** Two keys of the built ChunkMap that differ by one belong to no
    Copy operation. *)
Lemma ReadMetadata_map_gap s s' (a : Z) (opa opb : CowOperation) :
  chunk_map_ s = ∅ →
  ReadMetadata s = Ok (true, s') →
  ids_fit (GetOpIter (reader_ s')) →
  chunk_map_ s' !! a = Some opa →
  chunk_map_ s' !! (a + 1) = Some opb →
  type opa ≠ kCowCopyOp ∧ type opb ≠ kCowCopyOp.
Proof.
  intros Hfresh Hrm Hfit Ha Hb.
  destruct (ReadMetadata_fresh s s' Hrm) as (Hmap & _).
  rewrite Hfresh in Hmap. rewrite Hmap in Ha, Hb.
  destruct (ids_fit_reverse _ Hfit) as [Hz Hlen].
  pose proof (assigned_sorted EXCEPTIONS_PER_AREA _ 2 false Hz Hlen) as Hs.
  apply (insert_all_lookup _ _ _ Hs) in Ha, Hb.
  destruct (assigned_gap EXCEPTIONS_PER_AREA _ 2 false a opa (a + 1) opb
              Hz Hlen Ha Hb eq_refl) as [Hca Hcb].
  unfold is_type in Hca, Hcb.
  apply bool_decide_eq_false in Hca, Hcb. done.
Qed.


(** Every page of the built [vec_] is a full page of 256 entries. *)
Lemma ReadMetadata_areas_full s s' :
  vec_ s = [] →
  ReadMetadata s = Ok (true, s') →
  Forall (fun area => length area = Z.to_nat EXCEPTIONS_PER_AREA) (vec_ s').
Proof.
  intros Hvec0 Hrm.
  destruct (ReadMetadata_fresh s s' Hrm) as (_ & Hvec & _).
  rewrite Hvec0 in Hvec. cbn [app] in Hvec. rewrite Hvec.
  apply Forall_app. split.
  - unfold batches. apply Forall_fmap, Forall_forall. intros k _. cbn.
    unfold batch. pose proof EXCEPTIONS_PER_AREA_pos.
    apply pad_length; [lia|]. rewrite length_take. lia.
  - destruct (terminator _ _ _ _); [|constructor].
    constructor; [|constructor]. apply length_replicate.
Qed.

(** C3: after a successful build of a fresh device, two ChunkMap keys
    that differ by one never belong to a Copy operation, neither the
    lower nor the upper one; in particular no two keys [a] and [a + 1]
    both map to Copy operations.  The log is assumed to hold fewer than
    [2^61] operations, so that chunk ids do not wrap. *)
Theorem C3_no_contiguous_copies s s' (a b : Z) (opa opb : CowOperation) :
  chunk_map_ s = ∅ →
  ReadMetadata s = Ok (true, s') →
  ids_fit (GetOpIter (reader_ s')) →
  chunk_map_ s' !! a = Some opa →
  chunk_map_ s' !! b = Some opb →
  b = a + 1 →
  type opa ≠ kCowCopyOp ∧ type opb ≠ kCowCopyOp.
Proof.
  intros Hfresh Hrm Hfit Ha Hb ->.
  by eapply ReadMetadata_map_gap.
Qed.

(** C5: after a successful build of a fresh device, the ChunkMap listed
    by ascending ChunkId is the log's Replace, Zero and Copy operations
    in the reverse of forward order, and the pages of [vec_] hold the
    exceptions of that listing, batch by batch.  The log is assumed to
    hold fewer than [2^61] operations. *)
Theorem C5_reverse_assignment s s' :
  chunk_map_ s = ∅ → vec_ s = [] →
  ReadMetadata s = Ok (true, s') →
  ids_fit (GetOpIter (reader_ s')) →
  let ops := GetOpIter (reader_ s') in
  let e := Z.to_nat EXCEPTIONS_PER_AREA in
  (ascending (chunk_map_ s')).*2 = reverse (mergeable_ops ops)
  ∧ take (ceil_div (length (mergeable_ops ops)) e) (vec_ s')
    = batches e (exception_of <$> ascending (chunk_map_ s')).
Proof.
  intros Hfresh Hvec0 Hrm Hfit ops e.
  destruct (ReadMetadata_fresh s s' Hrm) as (Hmap & Hvec & _).
  rewrite Hfresh in Hmap. rewrite Hvec0 in Hvec. cbn [app] in Hvec.
  destruct (ids_fit_reverse _ Hfit) as [Hz Hlen].
  pose proof (assigned_sorted EXCEPTIONS_PER_AREA _ 2 false Hz Hlen) as Hs.
  rewrite Hmap, (ascending_insert_all _ Hs). split.
  - apply assigned_mergeable.
  - rewrite Hvec. apply take_app_length'.
    rewrite batches_length, length_fmap. by rewrite assigned_count.
Qed.

(** C6, in the form the code meets: after a successful build of a fresh device over a
    log with [n] Replace, Zero and Copy operations, [vec_] holds the
    [ceil(n / 256)] batches of exceptions in order, the [k]-th page
    being the [k]-th batch of up to 256 exceptions padded with zero
    entries, followed by one zero-filled page exactly when [n = 0] or
    when [n] is a multiple of 256 and the reverse pass ends on a
    Replace, Zero or Copy operation. *)
Theorem C6_area_vector s s' :
  vec_ s = [] →
  ReadMetadata s = Ok (true, s') →
  area_vector_layout (GetOpIter (reader_ s')) (vec_ s').
Proof.
  intros Hvec0 Hrm. unfold area_vector_layout.
  set (ops := GetOpIter (reader_ s')).
  set (n := length (mergeable_ops ops)).
  set (e := Z.to_nat EXCEPTIONS_PER_AREA).
  set (E := exception_of <$> assigned EXCEPTIONS_PER_AREA (reverse ops) 2 false).
  set (extra := terminator e false n (reverse ops)).
  destruct (ReadMetadata_fresh s s' Hrm) as (_ & Hvec & _).
  rewrite Hvec0 in Hvec. cbn [app] in Hvec.
  fold ops in Hvec. rewrite assigned_count in Hvec. fold n e E extra in Hvec.
  assert (HE : length E = n).
  { unfold E. rewrite length_fmap. apply assigned_count. }
  assert (Hb : length (batches e E) = ceil_div n e).
  { by rewrite batches_length, HE. }
  split; [|split; [|split; [|split; [|split]]]].
  - unfold E. rewrite <- list_fmap_compose.
    rewrite <- assigned_mergeable with (epa := EXCEPTIONS_PER_AREA)
                                       (nf := 2) (prev := false).
    by rewrite <- list_fmap_compose.
  - rewrite Hvec, length_app, Hb. by destruct extra.
  - intros k Hk. rewrite Hvec, lookup_app_l by lia.
    apply batches_lookup. by rewrite HE.
  - intros Hx. rewrite Hvec, Hx, lookup_app_r by lia.
    by rewrite Hb, Nat.sub_diag.
  - unfold extra, terminator. cbn [negb andb].
    destruct (decide (n = 0%nat)) as [Hn|Hn].
    + rewrite (bool_decide_eq_true_2 _ Hn). cbn. split; [by left|done].
    + rewrite (bool_decide_eq_false_2 _ Hn). cbn [negb andb orb].
      rewrite andb_true_iff, bool_decide_eq_true. split; [by right|].
      by intros [?|?].
  - intros Hn. rewrite Hvec. unfold extra, terminator.
    rewrite (bool_decide_eq_true_2 _ Hn). cbn [negb andb orb].
    rewrite Hn in HE. apply length_zero_iff_nil in HE. rewrite HE.
    pose proof EXCEPTIONS_PER_AREA_pos.
    by rewrite batches_nil by (unfold e; lia).
Qed.
End build_claims.

Lemma C3_witness :
  type (zero_op 6) ≠ kCowCopyOp ∧ type (zero_op 5) ≠ kCowCopyOp.
Proof.
  apply (C3_no_contiguous_copies
           (mem_device [zero_op 5; zero_op 6] [])
           (built_from (mem_device [zero_op 5; zero_op 6] [])) 2 3).
  - vm_compute. reflexivity.
  - vm_compute. reflexivity.
  - vm_compute. reflexivity.
  - vm_compute. reflexivity.
  - vm_compute. reflexivity.
  - reflexivity.
Defined.

Lemma C5_witness :
  (ascending (chunk_map_ example_built)).*2
  = reverse (mergeable_ops (GetOpIter (reader_ example_built)))
  ∧ take (ceil_div (length (mergeable_ops (GetOpIter (reader_ example_built))))
            (Z.to_nat EXCEPTIONS_PER_AREA)) (vec_ example_built)
    = batches (Z.to_nat EXCEPTIONS_PER_AREA)
        (exception_of <$> ascending (chunk_map_ example_built)).
Proof.
  apply (C5_reverse_assignment (mem_device example_log []) example_built).
  - vm_compute. reflexivity.
  - vm_compute. reflexivity.
  - vm_compute. reflexivity.
  - vm_compute. reflexivity.
Defined.

Lemma C6_counterexample :
  ReadMetadata (mem_device (zero_log 1 256) [])
  = Ok (true, built_from (mem_device (zero_log 1 256) []))
  ∧ length (mergeable_ops (zero_log 1 256)) = 256%nat
  ∧ ceil_div 256 (Z.to_nat EXCEPTIONS_PER_AREA) = 1%nat
  ∧ length (vec_ (built_from (mem_device (zero_log 1 256) []))) = 2%nat.
Proof.
  split; [|split; [|split]]; vm_compute; reflexivity.
Qed.

Lemma C6_witness :
  area_vector_layout (GetOpIter (reader_ example_built)) (vec_ example_built).
Proof.
  apply (C6_area_vector (mem_device example_log []) example_built).
  - vm_compute. reflexivity.
  - vm_compute. reflexivity.
Defined.

(** * The data read path *)

Section read_data.
Context `{CowReaderI R, CowWriterI W}.
Implicit Types s : Snapuserd R W.

Lemma sink_write_Ok b p data b' :
  sink_write b p data = Ok b' →
  buffer_size_ b' = buffer_size_ b ∧ buffer_offset_ b' = buffer_offset_ b.
Proof.
  unfold sink_write. destruct (mem_write _ _ _); cbn; [|done].
  by intros [= <-].
Qed.



Variable M : gmap Z CowOperation.
Hypothesis M_gap : ∀ a opa opb,
  M !! a = Some opa → M !! (a + 1) = Some opb →
  type opa ≠ kCowCopyOp ∧ type opb ≠ kCowCopyOp.
Hypothesis M_keys : ∀ k op, M !! k = Some op → 0 <= k < 2 ^ 63.


End read_data.

Section copy_rule.
Context `{CowReaderI R, CowWriterI W}.
Implicit Types s : Snapuserd R W.

End copy_rule.



(** * BufferSink *)

Lemma GetPayloadBuffer_null_iff b n :
  0 <= buffer_offset_ b <= buffer_size_ b → buffer_size_ b < 2 ^ 64 →
  GetPayloadBuffer b n = None ↔ buffer_size_ b - buffer_offset_ b < n.
Proof.
  intros Hoff Hsize. unfold GetPayloadBuffer.
  rewrite wrap64_small by lia.
  destruct (Z.ltb_spec (buffer_size_ b - buffer_offset_ b) n); split; (done || lia).
Qed.

(** The pointer [GetPayloadBuffer] returns is good for [n] bytes only
    when [n] fits the payload region, which is [sizeof(dm_user_header)]
    shorter than what the null test allows. *)
Lemma GetPayloadBuffer_region b n p :
  0 <= buffer_offset_ b → 0 <= n →
  GetPayloadBuffer b n = Some p →
  region_valid b p n
  ↔ n <= buffer_size_ b - sizeof_dm_user_header - buffer_offset_ b.
Proof.
  intros Hoff Hn. unfold GetPayloadBuffer, region_valid.
  destruct (_ <? _); [done|]. intros [= <-].
  unfold sizeof_dm_user_header. lia.
Qed.

(** C7, the code at the failing input: on the sink [InitCowDevice]
    allocates, at offset 0, a request for [PAYLOAD_SIZE + 1] bytes
    exceeds [PAYLOAD_SIZE - offset], yet [GetPayloadBuffer] returns the
    payload base instead of null, and the [n] bytes behind it leave the
    buffer. *)
Theorem C7_GetPayloadBuffer_overrun :
  PAYLOAD_SIZE + 1 > PAYLOAD_SIZE - buffer_offset_ bufsink_init
  ∧ GetPayloadBuffer bufsink_init (PAYLOAD_SIZE + 1)
    = Some (sizeof_dm_user_header + buffer_offset_ bufsink_init)
  ∧ ¬ region_valid bufsink_init
        (sizeof_dm_user_header + buffer_offset_ bufsink_init) (PAYLOAD_SIZE + 1).
Proof.
  split; [done|]. split; [done|].
  unfold region_valid. cbn. lia.
Qed.

(** * Merge reconciliation at its limits *)

(** C1, the code at the failing input: on a full area of 256 live
    exceptions, Phase B run on an all-zero kernel page counts 256 merged
    entries and then goes round once more: its last access is a read of
    the stored entry at byte offset 4096, index 256, outside the page.
    The same happens when the kernel has merged only the last 100
    entries (scenario E5): after 156 unmerged and 100 merged entries the
    loop reads index 256.  Phase A run on a kernel page that repeats the
    area reads the kernel entry at index 256 before its assertion fails.
    The request loop ends in the out-of-bounds access. *)
Theorem C1_scans_read_entry_256 :
  length full_area = Z.to_nat EXCEPTIONS_PER_AREA
  ∧ (GetNumberOfMergedOps EXCEPTIONS_PER_AREA zero_payload full_area 0 0).2
    = Fault
  ∧ last (GetNumberOfMergedOps EXCEPTIONS_PER_AREA zero_payload full_area 0 0).1
    = Some (ReadCow (EXCEPTIONS_PER_AREA * sizeof_disk_exception))
  ∧ (GetMergeStartOffset EXCEPTIONS_PER_AREA
       (take 156 full_area ++ zero_payload) full_area).2
    = Ok (156 * sizeof_disk_exception, 156)
  ∧ last (GetNumberOfMergedOps EXCEPTIONS_PER_AREA
            (take 156 full_area ++ zero_payload) full_area
            (156 * sizeof_disk_exception) 156).1
    = Some (ReadCow (EXCEPTIONS_PER_AREA * sizeof_disk_exception))
  ∧ (GetMergeStartOffset EXCEPTIONS_PER_AREA
       (full_area ++ zero_payload) full_area).2
    = CheckFailed CHECK_not_fully_unmerged
  ∧ last (GetMergeStartOffset EXCEPTIONS_PER_AREA
            (full_area ++ zero_payload) full_area).1
    = Some (ReadMerged (EXCEPTIONS_PER_AREA * sizeof_disk_exception))
  ∧ Run (built_device (zero_log 1 256) (merge_request (zeros BLOCK_SIZE)))
    = Fault.
Proof.
  split; [|split; [|split; [|split; [|split; [|split; [|split]]]]]];
    vm_compute; reflexivity.
Qed.


Section merge_abort.
Context `{CowReaderI R, CowWriterI W}.
Implicit Types s : Snapuserd R W.

(** Whatever the state, a [-1] from Phase B ends in the failed
    [CHECK]. *)
Lemma ProcessMergeComplete_invalid_metadata s chunk buffer header area
    offset unmerged area' :
  let epa := exceptions_per_area_ s in
  let idx := wrap64 (quot (lldiv (to_sll chunk) (stride_of epa))) in
  GetHeader (reader_ s) = Some header →
  idx < Z.of_nat (length (vec_ s)) →
  vec_ s !! Z.to_nat idx = Some area →
  (GetMergeStartOffset epa buffer area).2 = Ok (offset, unmerged) →
  (GetNumberOfMergedOps epa buffer area offset unmerged).2 = Ok (-1, area') →
  ProcessMergeComplete s chunk buffer = CheckFailed CHECK_some_op_merged.
Proof.
  intros epa idx Hh Hidx Harea HA HB. unfold ProcessMergeComplete.
  fold epa. fold idx. rewrite Hh.
  rewrite (proj2 (Z.ltb_lt _ _) Hidx). cbn [CHECK mbind outcome_bind].
  rewrite Harea. cbn [lift_mem mbind outcome_bind].
  rewrite HA. cbn [mbind outcome_bind].
  rewrite HB. done.
Qed.
End merge_abort.

(** * Memory *)

Lemma mem_write_Some buf p data :
  0 <= p → p + Z.of_nat (length data) <= Z.of_nat (length buf) →
  mem_write buf p data
  = Some (take (Z.to_nat p) buf ++ data
            ++ drop (Z.to_nat p + length data) buf).
Proof.
  intros Hp Hlen. unfold mem_write.
  rewrite (proj2 (Z.leb_le _ _) Hp), (proj2 (Z.leb_le _ _) Hlen). done.
Qed.

Lemma mem_write_inv buf p data buf' :
  mem_write buf p data = Some buf' →
  0 <= p ∧ p + Z.of_nat (length data) <= Z.of_nat (length buf)
  ∧ buf' = take (Z.to_nat p) buf ++ data
             ++ drop (Z.to_nat p + length data) buf.
Proof.
  unfold mem_write.
  destruct (Z.leb_spec 0 p); [|done].
  destruct (Z.leb_spec (p + Z.of_nat (length data)) (Z.of_nat (length buf)));
    [|done].
  by intros [= <-].
Qed.

Lemma mem_write_length buf p data buf' :
  mem_write buf p data = Some buf' → length buf' = length buf.
Proof.
  intros (Hp & Hlen & ->)%mem_write_inv.
  rewrite !length_app, length_take, length_drop. lia.
Qed.

Lemma mem_read_Some buf p n :
  0 <= p → 0 <= n → p + n <= Z.of_nat (length buf) →
  mem_read buf p n = Some (take (Z.to_nat n) (drop (Z.to_nat p) buf)).
Proof.
  intros Hp Hn Hlen. unfold mem_read.
  rewrite (proj2 (Z.leb_le _ _) Hp), (proj2 (Z.leb_le _ _) Hn),
    (proj2 (Z.leb_le _ _) Hlen). done.
Qed.

(** What was stored is what is loaded. *)
Lemma mem_write_read buf p data buf' :
  mem_write buf p data = Some buf' →
  mem_read buf' p (Z.of_nat (length data)) = Some data.
Proof.
  intros Hw. pose proof (mem_write_length _ _ _ _ Hw) as Hlen.
  apply mem_write_inv in Hw as (Hp & Hfit & ->).
  rewrite mem_read_Some by lia. f_equal.
  rewrite Nat2Z.id.
  rewrite drop_app_length' by (rewrite length_take; lia).
  by rewrite take_app_length.
Qed.

(** Storing the same bytes again changes nothing. *)
Lemma mem_write_idem buf p data buf' :
  mem_write buf p data = Some buf' → mem_write buf' p data = Some buf'.
Proof.
  intros Hw. pose proof (mem_write_length _ _ _ _ Hw) as Hlen.
  apply mem_write_inv in Hw as (Hp & Hfit & Hbuf').
  rewrite mem_write_Some by lia. f_equal.
  rewrite Hbuf' at 3. rewrite Hbuf'.
  rewrite take_app_length' by (rewrite length_take; lia).
  f_equal. f_equal.
  rewrite app_assoc.
  rewrite drop_app_length'; [done|].
  rewrite length_app, length_take. lia.
Qed.

(** A load below a store sees the old bytes. *)
Lemma mem_read_app_l l1 l2 p n :
  0 <= p → 0 <= n → p + n <= Z.of_nat (length l1) →
  mem_read (l1 ++ l2) p n = mem_read l1 p n.
Proof.
  intros Hp Hn Hlen.
  rewrite !mem_read_Some by (rewrite ?length_app; lia). f_equal.
  rewrite drop_app_le by lia.
  rewrite take_app_le; [done|]. rewrite length_drop. lia.
Qed.

(** A load above a store sees the old bytes. *)
Lemma mem_write_read_above buf p data buf' q n :
  mem_write buf p data = Some buf' →
  p + Z.of_nat (length data) <= q →
  mem_read buf' q n = mem_read buf q n.
Proof.
  intros Hw Hq. pose proof (mem_write_length _ _ _ _ Hw) as Hlen.
  apply mem_write_inv in Hw as (Hp & Hfit & Hbuf').
  unfold mem_read. rewrite Hlen.
  destruct (_ && _ && _); [|done]. f_equal. f_equal.
  rewrite Hbuf', app_assoc.
  rewrite drop_app_ge by (rewrite length_app, length_take; lia).
  rewrite length_app, length_take, drop_drop. f_equal. lia.
Qed.

Lemma zeros_length n : length (zeros n) = Z.to_nat n.
Proof. apply length_replicate. Qed.

Lemma le_bytes_length n v : length (le_bytes n v) = n.
Proof. revert v. induction n as [|n IH]; intros v; cbn; [done|]. by rewrite IH. Qed.

Lemma area_bytes_length a :
  Z.of_nat (length (area_bytes a)) = sizeof_disk_exception * Z.of_nat (length a).
Proof.
  unfold area_bytes, sizeof_disk_exception.
  induction a as [|de a IH]; [done|].
  cbn [flat_map]. rewrite length_app. unfold exception_bytes at 1.
  rewrite length_app, !le_bytes_length. cbn [length]. lia.
Qed.

Lemma ctrl_read_inv c n bytes c' :
  0 <= n → ctrl_read c n = Some (bytes, c') →
  length bytes = Z.to_nat n ∧ ctrl_out c' = ctrl_out c.
Proof.
  intros Hn. unfold ctrl_read. destruct (Z.ltb_spec (Z.of_nat (length (ctrl_in c))) n); [done|].
  intros [= <- <-]. split; [|done]. rewrite length_take. lia.
Qed.

(** * Requests of an unknown type *)

Section unknown_request.
Context `{CowReaderI R, CowWriterI W}.
Implicit Types s : Snapuserd R W.

(** C9: when the header read from the control device has a type that
    is neither [DM_USER_REQ_MAP_READ] nor [DM_USER_REQ_MAP_WRITE], the
    pass of the request loop returns success without writing anything
    to the control device, and the metadata and the log iterator are
    untouched. *)
Theorem C9_unknown_request_dropped s bytes c :
  sizeof_dm_user_header <= buffer_size_ (bufsink_ s) →
  ctrl_read (ctrl_fd_ s) sizeof_dm_user_header = Some (bytes, c) →
  le_value (take 4 (drop (Z.to_nat hdr_type) bytes)) ≠ DM_USER_REQ_MAP_READ →
  le_value (take 4 (drop (Z.to_nat hdr_type) bytes)) ≠ DM_USER_REQ_MAP_WRITE →
  ∃ s', Run s = Ok (true, s')
    ∧ ctrl_out (ctrl_fd_ s') = ctrl_out (ctrl_fd_ s)
    ∧ vec_ s' = vec_ s ∧ chunk_map_ s' = chunk_map_ s
    ∧ cowop_iter_ s' = cowop_iter_ s
    ∧ reader_ s' = reader_ s ∧ writer_ s' = writer_ s.
Proof.
  intros Hsize Hread Hr Hw.
  destruct (ctrl_read_inv (ctrl_fd_ s) sizeof_dm_user_header _ _ ltac:(done) Hread)
    as [Hlen Hout].
  unfold Run, GetHeaderPtr.
  rewrite (proj2 (Z.leb_le _ _) Hsize). cbn [CHECK mbind outcome_bind].
  unfold ReadDmUserHeader, sink_write, set_bufsink, set_ctrl, set_buffer, Clear.
  cbn [ctrl_fd_ bufsink_ buffer_ buffer_size_ buffer_offset_].
  rewrite Hread.
  assert (Hz : (Z.to_nat sizeof_dm_user_header
                <= length (zeros (buffer_size_ (bufsink_ s))))%nat).
  { rewrite zeros_length. lia. }
  rewrite mem_write_Some by lia.
  cbn [lift_mem mbind outcome_bind negb].
  unfold sink_load. cbn [bufsink_ buffer_].
  change (Z.to_nat 0) with 0%nat. rewrite take_0. cbn [app].
  rewrite !mem_read_app_l by (rewrite ?Hlen; vm_compute; done).
  rewrite !mem_read_Some by (rewrite ?Hlen; vm_compute; done).
  cbn [lift_mem mbind outcome_bind]. change (0 + hdr_type) with hdr_type.
  change (Z.to_nat 4) with 4%nat.
      rewrite (proj2 (Z.eqb_neq _ _) Hr), (proj2 (Z.eqb_neq _ _) Hw).
  eexists. split; [done|]. by cbn.
Qed.
End unknown_request.

Lemma C9_witness :
  ∃ s', Run (built_device [zero_op 5] (header_bytes 7 5 0 24 8192)) = Ok (true, s')
    ∧ ctrl_out (ctrl_fd_ s')
      = ctrl_out (ctrl_fd_ (built_device [zero_op 5] (header_bytes 7 5 0 24 8192)))
    ∧ vec_ s' = vec_ (built_device [zero_op 5] (header_bytes 7 5 0 24 8192))
    ∧ chunk_map_ s' = chunk_map_ (built_device [zero_op 5] (header_bytes 7 5 0 24 8192))
    ∧ cowop_iter_ s' = cowop_iter_ (built_device [zero_op 5] (header_bytes 7 5 0 24 8192))
    ∧ reader_ s' = reader_ (built_device [zero_op 5] (header_bytes 7 5 0 24 8192))
    ∧ writer_ s' = writer_ (built_device [zero_op 5] (header_bytes 7 5 0 24 8192)).
Proof.
  apply (C9_unknown_request_dropped
           (built_device [zero_op 5] (header_bytes 7 5 0 24 8192))
           (header_bytes 7 5 0 24 8192) (mem_ctrl [])).
  - vm_compute. discriminate.
  - vm_compute. reflexivity.
  - vm_compute. discriminate.
  - vm_compute. discriminate.
Defined.

(** * The metadata read path *)

Lemma GetPayloadBuffer_room b n :
  sink_has_room b n → 0 <= n →
  GetPayloadBuffer b n = Some (sizeof_dm_user_header + buffer_offset_ b).
Proof.
  intros (_ & Hoff & Hroom & Hsize) Hn. unfold GetPayloadBuffer.
  unfold sizeof_dm_user_header in *.
  rewrite wrap64_small by lia.
  by rewrite (proj2 (Z.ltb_ge _ _)) by lia.
Qed.

Lemma sink_write_room b n data :
  sink_has_room b n → Z.of_nat (length data) <= n →
  ∃ buf, mem_write (buffer_ b) (sizeof_dm_user_header + buffer_offset_ b) data
         = Some buf
    ∧ sink_write b (sizeof_dm_user_header + buffer_offset_ b) data
      = Ok (set_buffer b buf).
Proof.
  intros (Hlen & Hoff & Hroom & _) Hdata. unfold sink_write.
  unfold sizeof_dm_user_header in *.
  rewrite mem_write_Some by lia. eexists. split; done.
Qed.

Lemma sink_write_again b p data buf :
  mem_write (buffer_ b) p data = Some buf →
  sink_write (set_buffer b buf) p data = Ok (set_buffer b buf).
Proof.
  intros Hw. unfold sink_write. cbn [set_buffer buffer_].
  by rewrite (mem_write_idem _ _ _ _ Hw).
Qed.

Lemma sink_store_load b p (n : nat) v b' :
  sink_store b p n v = Ok b' →
  sink_load b' p (Z.of_nat n) = Ok (le_value (le_bytes n v)).
Proof.
  unfold sink_store, sink_write, sink_load.
  destruct (mem_write _ _ _) as [buf|] eqn:Hw; [|done]. intros [= <-].
  apply mem_write_read in Hw. rewrite le_bytes_length in Hw.
  cbn [set_buffer buffer_]. by rewrite Hw.
Qed.

Section metadata_read.
Context `{CowReaderI R, CowWriterI W}.
Implicit Types s : Snapuserd R W.

Lemma set_header_type_inv s header v s' :
  set_header_type s header v = Ok s' →
  ∃ buf, mem_write (buffer_ (bufsink_ s)) (header + hdr_type) (le_bytes 4 v)
         = Some buf
    ∧ s' = set_bufsink s (set_buffer (bufsink_ s) buf).
Proof.
  unfold set_header_type, sink_store, sink_write.
  destruct (mem_write _ _ _) as [buf|]; [|done].
  intros [= <-]. by exists buf.
Qed.

Lemma ReadDiskExceptions_too_large s chunk read_size :
  exceptions_per_area_ s = EXCEPTIONS_PER_AREA →
  AREA_SIZE < read_size →
  ReadDiskExceptions s chunk read_size = Ok (false, s).
Proof.
  intros Hepa Hbig. unfold ReadDiskExceptions, ZerofillDiskExceptions.
  rewrite Hepa.
  change (wrap64 (EXCEPTIONS_PER_AREA * sizeof_disk_exception)) with AREA_SIZE.
  rewrite (proj2 (Z.gtb_gt _ _)) by lia.
  by destruct (_ <? _).
Qed.

(** C8: on a device whose areas are full pages and whose sink has room
    for a page, a metadata-chunk read of more than 4096 bytes returns
    failure, and the read pass then answers with
    [DM_USER_RESP_ERROR]; a read of at most 4096 bytes succeeds and
    leaves in the payload the 4096 bytes of area [chunk / STRIDE] when
    that index is in range and 4096 zero bytes when it is not; issued
    again, it leaves the same bytes. *)
Theorem C8_metadata_read s chunk read_size :
  exceptions_per_area_ s = EXCEPTIONS_PER_AREA →
  sink_has_room (bufsink_ s) AREA_SIZE →
  Forall (fun area => length area = Z.to_nat EXCEPTIONS_PER_AREA) (vec_ s) →
  let idx := wrap64 (quot (lldiv (to_sll chunk) (stride_of EXCEPTIONS_PER_AREA))) in
  let payload := sizeof_dm_user_header + buffer_offset_ (bufsink_ s) in
  (AREA_SIZE < read_size →
     ReadDiskExceptions s chunk read_size = Ok (false, s)
     ∧ ∀ header offset s1 sector,
         set_header_type s header DM_USER_RESP_SUCCESS = Ok s1 →
         sink_load (bufsink_ s1) (header + hdr_sector) 8 = Ok sector →
         sector ≠ 0 →
         chunk_map_ s !! SectorToChunk sector = None →
         ∃ s2, Run_read_serve s header read_size offset = Ok s2
           ∧ sink_load (bufsink_ s2) (header + hdr_type) 4
             = Ok DM_USER_RESP_ERROR)
  ∧ (read_size <= AREA_SIZE →
     ∃ s', ReadDiskExceptions s chunk read_size = Ok (true, s')
       ∧ mem_read (buffer_ (bufsink_ s')) payload AREA_SIZE
         = Some (if decide (idx < Z.of_nat (length (vec_ s)))
                 then area_bytes (default [] (vec_ s !! Z.to_nat idx))
                 else zeros AREA_SIZE)
       ∧ vec_ s' = vec_ s
       ∧ ReadDiskExceptions s' chunk read_size = Ok (true, s')).
Proof.
  intros Hepa Hroom Hfull idx payload. split.
  - intros Hbig. split; [by apply ReadDiskExceptions_too_large|].
    intros header offset s1 sector Hset Hsec Hnz Hmap.
    unfold Run_read_serve. rewrite Hset. cbn [mbind outcome_bind].
    rewrite Hsec. cbn [mbind outcome_bind].
    rewrite (proj2 (Z.eqb_neq _ _) Hnz).
    apply set_header_type_inv in Hset as (buf & Hw & ->).
    cbn [chunk_map_ set_bufsink]. rewrite Hmap.
    rewrite ReadDiskExceptions_too_large by done.
    cbn [mbind outcome_bind negb].
    unfold set_header_type, sink_store, sink_write.
    cbn [bufsink_ set_bufsink set_buffer buffer_].
    pose proof (mem_write_length _ _ _ _ Hw) as Hlen.
    apply mem_write_inv in Hw as (Hp & Hfit & _).
    rewrite le_bytes_length in Hfit.
    rewrite mem_write_Some by (rewrite ?le_bytes_length; lia).
    cbn [lift_mem mbind outcome_bind]. eexists. split; [done|].
    unfold sink_load. cbn [bufsink_ set_bufsink set_buffer buffer_].
    erewrite (mem_write_read _ _ (le_bytes 4 DM_USER_RESP_ERROR));
      [done|].
    apply mem_write_Some; rewrite ?le_bytes_length; lia.
  - intros Hsmall. subst payload.
    unfold ReadDiskExceptions, ZerofillDiskExceptions.
    rewrite Hepa. fold idx.
    change (wrap64 (EXCEPTIONS_PER_AREA * sizeof_disk_exception)) with AREA_SIZE.
    rewrite !Z.gtb_ltb, !(proj2 (Z.ltb_ge AREA_SIZE read_size)) by lia.
    rewrite (GetPayloadBuffer_room _ _ Hroom) by done.
    destruct (decide (idx < Z.of_nat (length (vec_ s)))) as [Hin|Hout].
    + rewrite (proj2 (Z.ltb_lt _ _) Hin).
      assert (Hidx : 0 <= idx) by (apply Z.mod_pos_bound; done).
      destruct (lookup_lt_is_Some_2 (vec_ s) (Z.to_nat idx)) as [area Harea];
        [lia|].
      rewrite Harea. cbn [lift_mem mbind outcome_bind default].
      assert (Hlen : Z.of_nat (length (area_bytes area)) = AREA_SIZE).
      { rewrite area_bytes_length.
        rewrite Forall_forall in Hfull.
        rewrite (Hfull area) by (by eapply list_elem_of_lookup_2).
        done. }
      rewrite mem_read_Some by lia.
      change (Z.to_nat 0) with 0%nat. rewrite drop_0, take_ge by lia.
      cbn [lift_mem mbind outcome_bind].
      destruct (sink_write_room _ _ (area_bytes area) Hroom) as (buf & Hw & ->);
        [lia|].
      cbn [mbind outcome_bind]. eexists. split; [done|].
      cbn [bufsink_ set_bufsink set_buffer buffer_ vec_ exceptions_per_area_
           buffer_size_ buffer_offset_].
      split; [|split; [done|]].
      * rewrite <- Hlen. exact (mem_write_read _ _ _ _ Hw).
      * rewrite Hepa. change (wrap64 (EXCEPTIONS_PER_AREA * _)) with AREA_SIZE.
        fold idx.
        rewrite (proj2 (Z.ltb_lt _ _) Hin).
        rewrite !Z.gtb_ltb, !(proj2 (Z.ltb_ge AREA_SIZE read_size)) by lia.
        change (GetPayloadBuffer _ AREA_SIZE)
          with (GetPayloadBuffer (bufsink_ s) AREA_SIZE).
        rewrite (GetPayloadBuffer_room _ _ Hroom) by done.
        rewrite Harea. cbn [lift_mem mbind outcome_bind].
        rewrite mem_read_Some by lia.
        change (Z.to_nat 0) with 0%nat. rewrite drop_0, take_ge by lia.
        cbn [lift_mem mbind outcome_bind].
        rewrite (sink_write_again _ _ _ _ Hw). done.
    + rewrite (proj2 (Z.ltb_ge idx _)) by lia.
      assert (Hlen : Z.of_nat (length (zeros AREA_SIZE)) = AREA_SIZE).
      { by rewrite zeros_length. }
      destruct (sink_write_room _ _ (zeros AREA_SIZE) Hroom) as (buf & Hw & ->);
        [lia|].
      cbn [mbind outcome_bind]. eexists. split; [done|].
      cbn [bufsink_ set_bufsink set_buffer buffer_ vec_ exceptions_per_area_
           buffer_size_ buffer_offset_].
      split; [|split; [done|]].
      * rewrite <- Hlen at 1. exact (mem_write_read _ _ _ _ Hw).
      * rewrite Hepa. change (wrap64 (EXCEPTIONS_PER_AREA * _)) with AREA_SIZE.
        fold idx.
        rewrite (proj2 (Z.ltb_ge idx _)) by lia.
        rewrite !Z.gtb_ltb, !(proj2 (Z.ltb_ge AREA_SIZE read_size)) by lia.
        change (GetPayloadBuffer _ AREA_SIZE)
          with (GetPayloadBuffer (bufsink_ s) AREA_SIZE).
        rewrite (GetPayloadBuffer_room _ _ Hroom) by done.
        rewrite (sink_write_again _ _ _ _ Hw). done.
Qed.
End metadata_read.

Lemma C8_witness :
  ∃ s', ReadDiskExceptions (one_block_device [zero_op 5]) 1 BLOCK_SIZE = Ok (true, s')
    ∧ mem_read (buffer_ (bufsink_ s'))
        (sizeof_dm_user_header + buffer_offset_ (bufsink_ (one_block_device [zero_op 5])))
        AREA_SIZE
      = Some (if decide (wrap64 (quot (lldiv (to_sll 1) (stride_of EXCEPTIONS_PER_AREA)))
                         < Z.of_nat (length (vec_ (one_block_device [zero_op 5]))))
              then area_bytes
                     (default []
                        (vec_ (one_block_device [zero_op 5])
                         !! Z.to_nat (wrap64 (quot (lldiv (to_sll 1)
                                                      (stride_of EXCEPTIONS_PER_AREA))))))
              else zeros AREA_SIZE)
    ∧ vec_ s' = vec_ (one_block_device [zero_op 5])
    ∧ ReadDiskExceptions s' 1 BLOCK_SIZE = Ok (true, s').
Proof.
  apply (C8_metadata_read (one_block_device [zero_op 5]) 1 BLOCK_SIZE).
  - vm_compute. reflexivity.
  - split; [|split; [|split]]; by vm_compute.
  - constructor; [vm_compute; reflexivity|constructor].
  - by vm_compute.
Defined.

(** * Merge reconciliation *)

Lemma area_load_inv a off de :
  area_load a off = Some de →
  ∃ i : nat, off = sizeof_disk_exception * Z.of_nat i ∧ a !! i = Some de.
Proof.
  unfold area_load, in_area, sizeof_disk_exception.
  destruct (Z.leb_spec 0 off); [|done].
  destruct (Z.eqb_spec (off mod 16) 0) as [Hmod|]; [|done].
  destruct (_ <=? _); [|done]. cbn [andb].
  intros Hl. exists (Z.to_nat (off / 16)). split; [|done].
  rewrite Z2Nat.id by (apply Z.div_pos; lia).
  apply Z.div_exact in Hmod; lia.
Qed.

Lemma area_store_inv a off de a' :
  area_store a off de = Some a' →
  ∃ i : nat, off = sizeof_disk_exception * Z.of_nat i
    ∧ (i < length a)%nat ∧ a' = <[i := de]> a.
Proof.
  unfold area_store, in_area, sizeof_disk_exception.
  destruct (Z.leb_spec 0 off); [|done].
  destruct (Z.eqb_spec (off mod 16) 0) as [Hmod|]; [|done].
  destruct (Z.leb_spec (off + 16) (16 * Z.of_nat (length a))); [|done].
  cbn [andb]. intros [= <-].
  exists (Z.to_nat (off / 16)).
  assert (off = 16 * (off / 16)) by (apply Z.div_exact in Hmod; lia).
  assert (0 <= off / 16) by (apply Z.div_pos; lia).
  split; [lia|]. split; [lia|done].
Qed.

(** Phase A keeps [offset = unmerged_exceptions * sizeof(disk_exception)]. *)
Lemma GetMergeStartOffset_loop_offset fuel epa merged cow (u : nat) tr tr' off' u' :
  GetMergeStartOffset_loop fuel epa merged cow
    (sizeof_disk_exception * Z.of_nat u) (Z.of_nat u) tr = (tr', Ok (off', u')) →
  ∃ v : nat, off' = sizeof_disk_exception * Z.of_nat v ∧ u' = Z.of_nat v.
Proof.
  revert u tr. induction fuel as [|fuel IH]; intros u tr;
    cbn [GetMergeStartOffset_loop].
  { destruct (negb _); intros [= <- <- <-]; by exists u. }
  destruct (negb _); [intros [= <- <- <-]; by exists u|].
  destruct (area_load merged _) as [mde|]; [|done].
  destruct (negb (old_chunk mde =? 0)).
  - destruct (new_chunk mde =? 0); [done|].
    destruct (area_load cow _) as [cde|]; [|done].
    destruct (negb (_ =? _)); [done|].
    destruct (negb (_ =? _)); [done|].
    replace (sizeof_disk_exception * Z.of_nat u + sizeof_disk_exception)
      with (sizeof_disk_exception * Z.of_nat (S u))
      by (unfold sizeof_disk_exception; lia).
    replace (Z.of_nat u + 1) with (Z.of_nat (S u)) by lia.
    apply IH.
  - destruct (negb _); [done|]. intros [= <- <- <-]. by exists u.
Qed.

Lemma GetMergeStartOffset_offset epa merged cow off u :
  (GetMergeStartOffset epa merged cow).2 = Ok (off, u) →
  ∃ v : nat, off = sizeof_disk_exception * Z.of_nat v ∧ u = Z.of_nat v.
Proof.
  unfold GetMergeStartOffset.
  destruct (GetMergeStartOffset_loop _ _ _ _ _ _ _) as [tr r] eqn:Hloop.
  cbn [snd]. destruct r as [[off' u']| |]; [|done..].
  cbn [mbind outcome_bind]. destruct (CHECK _ _); [|done..].
  cbn [mbind outcome_bind]. intros [= <- <-].
  by eapply (GetMergeStartOffset_loop_offset _ _ _ _ 0).
Qed.

(** Phase B zeroes the live entries it counts and nothing else. *)
Lemma GetNumberOfMergedOps_loop_spec fuel epa merged area (i0 : nat) u m tr
    tr' m' area' :
  GetNumberOfMergedOps_loop fuel epa merged area
    (sizeof_disk_exception * Z.of_nat i0) u m tr = (tr', Ok (m', area')) →
  m' = -1
  ∨ (m <= m'
     ∧ (∀ i : nat, area' !! i
          = if decide (i0 <= i < i0 + Z.to_nat (m' - m))%nat
            then Some zero_exception else area !! i)
     ∧ (∀ i : nat, (i0 <= i < i0 + Z.to_nat (m' - m))%nat →
          ∃ de, area !! i = Some de ∧ new_chunk de ≠ 0)).
Proof.
  revert area i0 m tr.
  induction fuel as [|fuel IH]; intros area i0 m tr;
    cbn [GetNumberOfMergedOps_loop].
  { destruct (negb _); intros [= <- <- <-]; right;
      (rewrite Z.sub_diag; split; [lia|]; split;
       [intros i; by rewrite decide_False by lia|intros i Hi; lia]). }
  destruct (negb _).
  { intros [= <- <- <-]; right;
      (rewrite Z.sub_diag; split; [lia|]; split;
       [intros i; by rewrite decide_False by lia|intros i Hi; lia]). }
  destruct (area_load merged _) as [mde|]; [|done].
  destruct (_ || _); [done|].
  destruct (area_load area _) as [cde|] eqn:Hload; [|done].
  apply area_load_inv in Hload as (j & Hj & Hcde).
  assert (j = i0) as -> by (unfold sizeof_disk_exception in Hj; lia).
  destruct (Z.eqb_spec (new_chunk cde) 0) as [Hnew|Hnew]; cbn [negb].
  - destruct (old_chunk cde =? 0); intros [= <- <- <-]; [right|by left].
    rewrite Z.sub_diag; split; [lia|]; split;
      [intros i; by rewrite decide_False by lia|intros i Hi; lia].
  - destruct (area_store area _ _) as [area1|] eqn:Hstore; [|done].
    apply area_store_inv in Hstore as (j & Hj' & Hlt & ->).
    assert (j = i0) as -> by (unfold sizeof_disk_exception in Hj'; lia).
    replace (sizeof_disk_exception * Z.of_nat i0 + sizeof_disk_exception)
      with (sizeof_disk_exception * Z.of_nat (S i0))
      by (unfold sizeof_disk_exception; lia).
    intros Hrec. apply IH in Hrec as [->|(Hle & Hz & Hlive)]; [by left|].
    right. split; [lia|].
    replace (Z.to_nat (m' - m)) with (S (Z.to_nat (m' - (m + 1)))) by lia.
    split.
    + intros i. rewrite Hz.
      destruct (decide (i = i0)) as [->|Hne].
      * rewrite decide_False by lia. rewrite decide_True by lia.
        by apply list_lookup_insert_eq.
      * rewrite list_lookup_insert_ne by done.
        destruct (decide (S i0 <= i < S i0 + _)%nat).
        -- by rewrite decide_True by lia.
        -- by rewrite decide_False by lia.
    + intros i Hi. destruct (decide (i = i0)) as [->|Hne].
      * by exists cde.
      * destruct (Hlive i) as (de & Hde & Hnz); [lia|].
        rewrite list_lookup_insert_ne in Hde by done. by exists de.
Qed.



Section merge_frame.
Context `{CowReaderI R, CowWriterI W}.
Implicit Types s : Snapuserd R W.

End merge_frame.


(** * The loop bounds are enough

    Each bounded loop of the model is entered with the number of passes
    its comment names; any two bounds that large give the same result,
    so the bound never cuts a loop short. *)

Lemma GetMergeStartOffset_loop_fuel f1 f2 epa merged cow off u tr :
  epa + 1 - u <= Z.of_nat f1 → epa + 1 - u <= Z.of_nat f2 →
  GetMergeStartOffset_loop f1 epa merged cow off u tr
  = GetMergeStartOffset_loop f2 epa merged cow off u tr.
Proof.
  revert f2 off u tr. induction f1 as [|f1 IH]; intros [|f2] off u tr H1 H2;
    cbn [GetMergeStartOffset_loop];
    try (by rewrite (proj2 (Z.leb_gt u epa)) by lia).
  destruct (negb (u <=? epa)); [done|].
  destruct (area_load merged off) as [mde|]; [|done].
  destruct (negb (old_chunk mde =? 0)); [|done].
  destruct (new_chunk mde =? 0); [done|].
  destruct (area_load cow off) as [cde|]; [|done].
  destruct (negb (_ =? _)); [done|].
  destruct (negb (_ =? _)); [done|].
  apply IH; lia.
Qed.

Lemma GetNumberOfMergedOps_loop_fuel f1 f2 epa merged area off u m tr :
  epa + 1 - (u + m) <= Z.of_nat f1 → epa + 1 - (u + m) <= Z.of_nat f2 →
  GetNumberOfMergedOps_loop f1 epa merged area off u m tr
  = GetNumberOfMergedOps_loop f2 epa merged area off u m tr.
Proof.
  revert f2 area off m tr.
  induction f1 as [|f1 IH]; intros [|f2] area off m tr H1 H2;
    cbn [GetNumberOfMergedOps_loop];
    try (by rewrite (proj2 (Z.leb_gt (u + m) epa)) by lia).
  destruct (negb (u + m <=? epa)); [done|].
  destruct (area_load merged off) as [mde|]; [|done].
  destruct (_ || _); [done|].
  destruct (area_load area off) as [cde|]; [|done].
  destruct (negb (new_chunk cde =? 0)); [|done].
  destruct (area_store area off zero_exception) as [area1|]; [|done].
  apply IH; lia.
Qed.

Section loop_bounds.
Context `{CowReaderI R, CowWriterI W}.
Implicit Types s : Snapuserd R W.

Lemma ReadData_loop_fuel b1 b2 s chunk_key read_size log :
  read_size <= BLOCK_SIZE * Z.of_nat b1 →
  read_size <= BLOCK_SIZE * Z.of_nat b2 →
  ReadData_loop b1 s chunk_key read_size log
  = ReadData_loop b2 s chunk_key read_size log.
Proof.
  revert b2 s chunk_key read_size log.
  induction b1 as [|b1 IH]; intros [|b2] s ck rs log H1 H2;
    cbn [ReadData_loop];
    try (rewrite Z.gtb_ltb; by rewrite (proj2 (Z.ltb_ge 0 rs)) by lia).
  destruct (negb (rs >? 0)); [done|].
  destruct (chunk_map_ s !! ck) as [op|]; [|done].
  destruct (dispatch_op s op) as [[ret s1]| |]; [|done..].
  cbn [mbind outcome_bind].
  destruct (negb ret); [done|].
  destruct (CHECK CHECK_copy_is_last _); cbn [mbind outcome_bind]; [|done..].
  destruct (_ =? NUM_SNAPSHOT_HDR_CHUNKS); [done|].
  apply IH; unfold BLOCK_SIZE in *; lia.
Qed.

(** [ReadData] enters its loop with enough passes for any aligned
    size. *)
Lemma ReadData_log_fuel s chunk size (k : nat) :
  0 <= size → Z.land size (BLOCK_SIZE - 1) = 0 →
  ReadData_loop (Z.to_nat (size / BLOCK_SIZE) + k) s chunk size []
  = ReadData_loop (Z.to_nat (size / BLOCK_SIZE)) s chunk size [].
Proof.
  intros Hpos Hal.
  change (BLOCK_SIZE - 1) with (Z.ones 12) in Hal.
  rewrite Z.land_ones in Hal by lia.
  assert (Hdiv : size = BLOCK_SIZE * (size / BLOCK_SIZE)).
  { unfold BLOCK_SIZE. change (2 ^ 12) with 4096 in Hal.
    apply Z.div_exact in Hal; lia. }
  assert (0 <= size / BLOCK_SIZE) by (apply Z.div_pos; [lia|done]).
  apply ReadData_loop_fuel; unfold BLOCK_SIZE in *; lia.
Qed.

Lemma Run_read_loop_fuel f1 f2 s header remaining_size offset :
  0 <= remaining_size →
  remaining_size <= PAYLOAD_SIZE * Z.of_nat (S f1) →
  remaining_size <= PAYLOAD_SIZE * Z.of_nat (S f2) →
  Run_read_loop (S f1) s header remaining_size offset
  = Run_read_loop (S f2) s header remaining_size offset.
Proof.
  assert (Hone : ∀ f s rem off,
    0 <= rem <= PAYLOAD_SIZE →
    Run_read_loop (S f) s header rem off = Run_read_loop 1 s header rem off).
  { intros f s0 rem off Hrem. cbn [Run_read_loop].
    destruct (Run_read_serve _ _ _ _) as [s1| |]; [|done..].
    cbn [mbind outcome_bind].
    destruct (WriteDmUserPayload _ _) as [[ok s2]| |]; [|done..].
    cbn [mbind outcome_bind]. destruct (negb ok); [done|].
    rewrite Z.min_r by lia. by rewrite Z.sub_diag. }
  revert f2 s remaining_size offset.
  induction f1 as [|f1 IH]; intros f2 s rem off Hpos Hf1 Hf2.
  { rewrite (Hone f2) by (unfold PAYLOAD_SIZE in *; change (Z.shiftl 1 16) with 65536 in *; lia). done. }
  destruct f2 as [|f2].
  { rewrite (Hone (S f1)) by (unfold PAYLOAD_SIZE in *; change (Z.shiftl 1 16) with 65536 in *; lia). done. }
  remember (S f1) as g1 eqn:Hg1. remember (S f2) as g2 eqn:Hg2.
  cbn [Run_read_loop].
  destruct (Run_read_serve _ _ _ _) as [s1| |]; [|done..].
  cbn [mbind outcome_bind].
  destruct (WriteDmUserPayload _ _) as [[ok s2]| |]; [|done..].
  cbn [mbind outcome_bind]. destruct (negb ok); [done|].
  destruct (_ =? 0); [done|]. subst g1 g2.
  apply IH; unfold PAYLOAD_SIZE in *; change (Z.shiftl 1 16) with 65536 in *; lia.
Qed.
End loop_bounds.

(** * Metadata chunk ids and the ids the build hands out *)

Section metadata_ids.
Variable epa : Z.
Hypothesis epa_nonneg : 0 <= epa.
Hypothesis epa_fits : epa + 1 < 2 ^ 32.

Lemma stride_of_small : stride_of epa = epa + 1.
Proof. unfold stride_of. apply Z.mod_small. lia. Qed.

Lemma IsChunkIdMetadata_mod c :
  0 <= c < 2 ^ 63 →
  IsChunkIdMetadata epa c = (c mod (epa + 1) =? 1).
Proof.
  intros Hc. unfold IsChunkIdMetadata, lldiv. cbn [rem].
  rewrite stride_of_small, to_sll_small by lia.
  rewrite Z.rem_mod_nonneg by lia. done.
Qed.

(** X1: [IsChunkIdMetadata] holds exactly for the ids below [2^63] that
    leave remainder 1 modulo [exceptions_per_area_ + 1]; an id of
    [2^63] or more becomes negative in the conversion to [long long]
    that [lldiv] makes, its remainder is never positive and the id is
    never taken for a metadata chunk. *)
Theorem IsChunkIdMetadata_spec c :
  0 <= c < 2 ^ 64 →
  IsChunkIdMetadata epa c = true ↔ c < 2 ^ 63 ∧ c mod (epa + 1) = 1.
Proof.
  intros Hc. destruct (Z.lt_ge_cases c (2 ^ 63)) as [Hlt|Hge].
  - rewrite IsChunkIdMetadata_mod by lia. rewrite Z.eqb_eq. tauto.
  - split; [|lia]. intros Hm. exfalso.
    unfold IsChunkIdMetadata, lldiv in Hm. cbn [rem] in Hm.
    rewrite stride_of_small in Hm. unfold to_sll in Hm.
    rewrite (proj2 (Z.ltb_ge _ _) Hge) in Hm.
    apply Z.eqb_eq in Hm. unfold NUM_SNAPSHOT_HDR_CHUNKS in Hm.
    pose proof (Z.rem_bound_pos_neg (c - 2 ^ 64) (epa + 1)
                  ltac:(lia) ltac:(lia)) as Hb.
    lia.
Qed.

Lemma GetNextAllocatableChunkId_skip c :
  0 <= c → c + 2 < 2 ^ 63 →
  IsChunkIdMetadata epa (GetNextAllocatableChunkId epa c) = false
  ∧ (GetNextAllocatableChunkId epa c = c + 1
     ∨ (GetNextAllocatableChunkId epa c = c + 2
        ∧ IsChunkIdMetadata epa (c + 1) = true)).
Proof.
  intros H0 Hc. unfold GetNextAllocatableChunkId.
  rewrite (wrap64_small (c + 1)) by lia.
  destruct (IsChunkIdMetadata epa (c + 1)) eqn:E.
  - rewrite wrap64_small by lia. split; [|right; split; [lia|done]].
    rewrite IsChunkIdMetadata_mod in E by lia.
    replace (c + 1 + 1) with (c + 2) by lia.
    rewrite IsChunkIdMetadata_mod by lia.
    apply Z.eqb_eq in E. apply Z.eqb_neq.
    intros E2.
    pose proof (Z.div_mod (c + 1) (epa + 1) ltac:(lia)) as D1.
    pose proof (Z.div_mod (c + 2) (epa + 1) ltac:(lia)) as D2.
    rewrite E in D1. rewrite E2 in D2.
    assert (Hk : (epa + 1) * ((c + 2) / (epa + 1) - (c + 1) / (epa + 1)) = 1)
      by lia.
    destruct (Z.eq_mul_1 _ _ Hk) as [He|He]; [|lia].
    assert (epa = 0) by lia. subst epa.
    change (0 + 1) with 1 in E. rewrite Z.mod_1_r in E. lia.
  - split; [done|by left].
Qed.

(** X2: below the wrap-around, [GetNextAllocatableChunkId chunk] is the
    least id above [chunk] that is not a metadata chunk id: it is
    [chunk + 1], or [chunk + 2] when [chunk + 1] is a metadata id. *)
Theorem GetNextAllocatableChunkId_least c :
  0 <= c → c + 2 < 2 ^ 63 →
  let n := GetNextAllocatableChunkId epa c in
  c < n
  ∧ IsChunkIdMetadata epa n = false
  ∧ ∀ k, c < k < n → IsChunkIdMetadata epa k = true.
Proof.
  intros H0 Hc n. subst n.
  destruct (GetNextAllocatableChunkId_skip c H0 Hc) as [Hn [He|[He Hm]]];
    rewrite He in Hn |- *.
  - split; [lia|]. split; [done|]. intros k Hk. lia.
  - split; [lia|]. split; [done|]. intros k Hk.
    by replace k with (c + 1) by lia.
Qed.

(** No id the reverse pass hands out is a metadata chunk id. *)
Lemma assigned_not_metadata riter nf prev c op :
  0 <= nf → nf + 4 * Z.of_nat (length riter) < 2 ^ 63 →
  IsChunkIdMetadata epa nf = false →
  (c, op) ∈ assigned epa riter nf prev →
  IsChunkIdMetadata epa c = false.
Proof.
  revert nf prev. induction riter as [|o riter IH]; intros nf prev H0 Hfit Hnf Hin.
  { by apply elem_of_nil in Hin. }
  cbn [assigned] in Hin. cbn [length] in Hfit.
  destruct (is_footer_or_label o).
  { eapply IH; [| |exact Hnf|exact Hin]; lia. }
  set (c0 := if is_type kCowCopyOp o || prev
             then GetNextAllocatableChunkId epa nf else nf) in *.
  assert (Hc0 : nf <= c0 <= nf + 2 ∧ IsChunkIdMetadata epa c0 = false).
  { subst c0. destruct (is_type kCowCopyOp o || prev); [|split; [lia|done]].
    pose proof (GetNextAllocatableChunkId_bounds epa nf).
    destruct (GetNextAllocatableChunkId_skip nf) as [? _]; [lia..|].
    split; [lia|done]. }
  destruct Hc0 as [Hc0 Hm0].
  apply elem_of_cons in Hin as [Heq|Hin].
  - by injection Heq as -> ->.
  - pose proof (GetNextAllocatableChunkId_bounds epa c0).
    destruct (GetNextAllocatableChunkId_skip c0) as [Hm1 _]; [lia..|].
    eapply IH; [| |exact Hm1|exact Hin]; lia.
Qed.
End metadata_ids.

Lemma EXCEPTIONS_PER_AREA_fits :
  0 <= EXCEPTIONS_PER_AREA ∧ EXCEPTIONS_PER_AREA + 1 < 2 ^ 32.
Proof. by vm_compute. Qed.

Lemma X1_witness :
  IsChunkIdMetadata EXCEPTIONS_PER_AREA 258 = true
  ↔ 258 < 2 ^ 63 ∧ 258 mod (EXCEPTIONS_PER_AREA + 1) = 1.
Proof.
  apply (IsChunkIdMetadata_spec EXCEPTIONS_PER_AREA); by vm_compute.
Defined.

Lemma X2_witness :
  let n := GetNextAllocatableChunkId EXCEPTIONS_PER_AREA 257 in
  257 < n
  ∧ IsChunkIdMetadata EXCEPTIONS_PER_AREA n = false
  ∧ ∀ k, 257 < k < n → IsChunkIdMetadata EXCEPTIONS_PER_AREA k = true.
Proof.
  apply (GetNextAllocatableChunkId_least EXCEPTIONS_PER_AREA); by vm_compute.
Defined.

(** ** The size of the device and the ids in the ChunkMap *)

Section build_ids.
Variable epa : Z.
Hypothesis epa_pos : 0 < epa.

End build_ids.

Section build_keys.
Context `{CowReaderI R, CowWriterI W}.
Implicit Types s : Snapuserd R W.

(** X3: no key of the ChunkMap built on a fresh device is a metadata
    chunk id (and none is the header chunk 0 or the first metadata
    chunk 1), so the test [chunk_map_.find(chunk) == end()] of the
    request loop sends no area's chunk id to the data path.  The log is
    assumed to hold fewer than [2^61] operations (chunk ids do not
    wrap). *)
Theorem ReadMetadata_keys_not_metadata s s' (k : Z) (op : CowOperation) :
  chunk_map_ s = ∅ →
  ReadMetadata s = Ok (true, s') →
  ids_fit (GetOpIter (reader_ s')) →
  chunk_map_ s' !! k = Some op →
  IsChunkIdMetadata (exceptions_per_area_ s') k = false ∧ 2 <= k.
Proof.
  intros Hfresh Hrm Hfit Hk.
  destruct (ReadMetadata_fresh s s' Hrm) as (Hmap & _ & Hepa & _).
  rewrite Hfresh in Hmap. rewrite Hmap in Hk.
  destruct (ids_fit_reverse _ Hfit) as [Hz Hlen].
  pose proof (assigned_sorted EXCEPTIONS_PER_AREA _ 2 false Hz Hlen) as Hs.
  apply (insert_all_lookup _ _ _ Hs) in Hk.
  destruct EXCEPTIONS_PER_AREA_fits as [He1 He2].
  rewrite Hepa. split.
  - eapply (assigned_not_metadata EXCEPTIONS_PER_AREA He1 He2 _ 2 false);
      [exact Hz|exact Hlen| |exact Hk].
    by vm_compute.
  - apply assigned_lower in Hk as [Hk _]; [|done..]. lia.
Qed.

End build_keys.

Lemma X3_witness :
  IsChunkIdMetadata (exceptions_per_area_ example_built) 3 = false ∧ 2 <= 3.
Proof.
  apply (ReadMetadata_keys_not_metadata (mem_device example_log []) example_built
           3 (copy_op 20 30)).
  - vm_compute. reflexivity.
  - vm_compute. reflexivity.
  - vm_compute. reflexivity.
  - vm_compute. reflexivity.
Defined.


(** * The outcome of the metadata build *)

Section build_total.
Variable epa : Z.
Hypothesis epa_pos : 0 < epa.

(** The loop never faults and never fails a check: it returns [false]
    exactly when it meets an operation of a type it does not know. *)
Lemma ReadMetadata_loop_total riter l P :
  md_wf (Z.to_nat epa) l P →
  ∃ l', ReadMetadata_loop epa riter l = Ok (forallb known_op riter, l').
Proof.
  revert l P. induction riter as [|o riter IH]; intros l P Hwf.
  { by exists l. }
  cbn [ReadMetadata_loop forallb]. unfold known_op at 1.
  destruct (is_footer_or_label o); [by apply (IH l P)|].
  cbn [orb]. destruct (is_data_op o); cbn [negb andb]; [|by exists l].
  destruct (ReadMetadata_body_spec epa epa_pos o (bool_decide (riter = [])) l P Hwf)
    as (l1 & Hbody & _ & _ & _ & _ & Hcase).
  rewrite Hbody. cbn [mbind outcome_bind].
  match type of Hcase with context [decide ?X] => destruct (decide X) end.
  - destruct Hcase as (_ & _ & Hwf1).
    destruct (decide (riter = [])) as [->|Hne]; [by exists l1|].
    rewrite bool_decide_eq_false_2 in Hwf1 by done.
    apply (IH l1 [] (Hwf1 eq_refl)).
  - destruct Hcase as [_ Hwf1]. apply (IH l1 _ Hwf1).
Qed.
End build_total.

Lemma forallb_known_reverse ops :
  forallb known_op (reverse ops) = forallb known_op ops.
Proof.
  apply eq_true_iff_eq. rewrite !forallb_forall.
  split; intros Hall x Hx; apply Hall; apply list_elem_of_In;
    apply list_elem_of_In in Hx; by apply elem_of_reverse.
Qed.

Lemma ceil_div_pos n e : (0 < n)%nat → (0 < e)%nat → (0 < ceil_div n e)%nat.
Proof.
  intros Hn He. unfold ceil_div. apply Nat.div_str_pos. lia.
Qed.

Section build_outcome.
Context `{CowReaderI R, CowWriterI W}.
Implicit Types s : Snapuserd R W.

(** X5: [ReadMetadata] never makes an access out of bounds, and the
    only check it can fail is the one on the block size of the header.
    It returns [true] exactly when the log parses, has a header with
    the block size [BLOCK_SIZE] and holds only Footer, Label, Replace,
    Zero and Copy operations; when it returns [false] the device is
    not marked as having its metadata read, and the merge iterator and
    the sector count are as before. *)
Theorem ReadMetadata_outcome s :
  match ReadMetadata s with
  | Ok (true, s') =>
      ∃ r header, Parse (reader_ s) = Some r ∧ GetHeader r = Some header
        ∧ block_size header = BLOCK_SIZE
        ∧ forallb known_op (GetOpIter r) = true
        ∧ metadata_read_done_ s' = true
  | Ok (false, s') =>
      (Parse (reader_ s) = None
       ∨ ∃ r, Parse (reader_ s) = Some r
           ∧ (GetHeader r = None ∨ forallb known_op (GetOpIter r) = false))
      ∧ metadata_read_done_ s' = metadata_read_done_ s
      ∧ cowop_iter_ s' = cowop_iter_ s
      ∧ num_sectors_ s' = num_sectors_ s
  | CheckFailed c =>
      c = CHECK_block_size
      ∧ ∃ r header, Parse (reader_ s) = Some r ∧ GetHeader r = Some header
          ∧ block_size header ≠ BLOCK_SIZE
  | Fault => False
  end.
Proof.
  unfold ReadMetadata.
  destruct (Parse (reader_ s)) as [r|] eqn:Hparse.
  2:{ split; [by left|done]. }
  destruct (GetHeader r) as [header|] eqn:Hheader.
  2:{ split; [right; exists r; split; [done|by left]|done]. }
  destruct (block_size header =? BLOCK_SIZE) eqn:Hbs.
  2:{ cbn. split; [done|]. exists r, header. apply Z.eqb_neq in Hbs. done. }
  apply Z.eqb_eq in Hbs. cbn [CHECK mbind outcome_bind].
  destruct (ReadMetadata_loop_total EXCEPTIONS_PER_AREA EXCEPTIONS_PER_AREA_pos
              (GetRevOpIter r) _ [] (md_init_wf (vec_ s) (chunk_map_ s)))
    as [l Hl].
  rewrite Hl. cbn [mbind outcome_bind]. unfold GetRevOpIter.
  rewrite forallb_known_reverse.
  destruct (forallb known_op (GetOpIter r)) eqn:Hk; cbn [negb].
  - by exists r, header.
  - split; [right; exists r; split; [done|by right]|done].
Qed.

(** X6: a successful [InitCowDevice] on a device with no areas leaves
    the device ready for the request loop: the sink is a zeroed buffer
    of a header and [PAYLOAD_SIZE] bytes with its offset at 0,
    [exceptions_per_area_] is 256, there is at least one area (so the
    kernel's read of the first metadata chunk finds a page), every
    area is a full page, and the metadata is marked as read. *)
Theorem InitCowDevice_ok s s' :
  vec_ s = [] →
  InitCowDevice s = Ok (true, s') →
  device_ok s' ∧ bufsink_ s' = bufsink_init ∧ metadata_read_done_ s' = true.
Proof.
  unfold InitCowDevice. intros Hvec0 Hrm.
  set (s0 := set_bufsink s (Initialize (sizeof_dm_user_header + PAYLOAD_SIZE))) in *.
  assert (Hv0 : vec_ s0 = []) by done.
  pose proof (ReadMetadata_areas_full s0 s' Hv0 Hrm) as Hfull.
  destruct (ReadMetadata_fresh s0 s' Hrm) as (_ & Hvec & Hepa & _).
  destruct (ReadMetadata_inv s0 s' Hrm)
    as (_ & _ & _ & _ & _ & _ & _ & _ & _ & _ & _ & _ & Hdone & Hsink).
  split; [|split; [by rewrite Hsink|done]].
  split; [done|]. split; [by rewrite Hsink|]. split; [|done].
  rewrite Hvec, Hv0. cbn [app].
  set (A := assigned _ _ _ _).
  destruct A as [|a A'] eqn:HA.
  - cbn. unfold terminator. cbn. done.
  - intros Hnil. apply (f_equal length) in Hnil.
    rewrite length_app, batches_length, length_fmap in Hnil.
    pose proof EXCEPTIONS_PER_AREA_pos.
    pose proof (ceil_div_pos (length (a :: A')) (Z.to_nat EXCEPTIONS_PER_AREA)
                  ltac:(cbn; lia) ltac:(lia)).
    cbn [length] in *. lia.
Qed.
End build_outcome.

Lemma X6_witness :
  device_ok example_built_sink ∧ bufsink_ example_built_sink = bufsink_init
  ∧ metadata_read_done_ example_built_sink = true.
Proof.
  apply (InitCowDevice_ok (mem_device example_log [])).
  - reflexivity.
  - reflexivity.
Defined.

(** * The two scans of a merge-complete page *)

(** Phase A walks over entries that are live and equal in both pages and
    stops on the first all-zero entry of the kernel's page, or one past
    index [exceptions_per_area_]. *)
Lemma GetMergeStartOffset_loop_scan fuel epa merged area (i0 : nat) tr tr' off' u' :
  epa + 1 - Z.of_nat i0 <= Z.of_nat fuel →
  GetMergeStartOffset_loop fuel epa merged area
    (sizeof_disk_exception * Z.of_nat i0) (Z.of_nat i0) tr = (tr', Ok (off', u')) →
  ∃ n : nat, (i0 <= n)%nat ∧ u' = Z.of_nat n
    ∧ off' = sizeof_disk_exception * Z.of_nat n
    ∧ (∀ i : nat, (i0 <= i < n)%nat →
         ∃ de, merged !! i = Some de ∧ area !! i = Some de
               ∧ old_chunk de ≠ 0 ∧ new_chunk de ≠ 0)
    ∧ (epa < Z.of_nat n
       ∨ (Z.of_nat n <= epa ∧ merged !! n = Some zero_exception)).
Proof.
  revert i0 tr. induction fuel as [|fuel IH]; intros i0 tr Hfuel;
    cbn [GetMergeStartOffset_loop].
  { rewrite (proj2 (Z.leb_gt _ _)) by lia. cbn [negb].
    intros [= <- <- <-]. exists i0. split; [lia|]. split; [done|].
    split; [done|]. split; [intros i Hi; lia|left; lia]. }
  destruct (Z.leb_spec (Z.of_nat i0) epa) as [Hle|Hgt]; cbn [negb].
  2:{ intros [= <- <- <-]. exists i0. split; [lia|]. split; [done|].
      split; [done|]. split; [intros i Hi; lia|left; lia]. }
  destruct (area_load merged _) as [mde|] eqn:Hm; [|done].
  apply area_load_inv in Hm as (im & Him & Hm).
  assert (im = i0) by (unfold sizeof_disk_exception in Him; lia). subst im.
  destruct (Z.eqb_spec (old_chunk mde) 0) as [Hold|Hold]; cbn [negb].
  - destruct (Z.eqb_spec (new_chunk mde) 0) as [Hnew|Hnew]; cbn [negb]; [|done].
    intros [= <- <- <-]. exists i0. split; [lia|]. split; [done|].
    split; [done|]. split; [intros i Hi; lia|right]. split; [done|].
    rewrite Hm. destruct mde as [o n]. cbn in *. by subst.
  - destruct (Z.eqb_spec (new_chunk mde) 0) as [Hnew|Hnew]; [done|].
    destruct (area_load area _) as [cde|] eqn:Hc; [|done].
    apply area_load_inv in Hc as (ic & Hic & Hc).
    assert (ic = i0) by (unfold sizeof_disk_exception in Hic; lia). subst ic.
    destruct (Z.eqb_spec (old_chunk mde) (old_chunk cde)) as [Heo|]; [|done].
    destruct (Z.eqb_spec (new_chunk mde) (new_chunk cde)) as [Hen|]; [|done].
    cbn [negb].
    replace (sizeof_disk_exception * Z.of_nat i0 + sizeof_disk_exception)
      with (sizeof_disk_exception * Z.of_nat (S i0))
      by (unfold sizeof_disk_exception; lia).
    replace (Z.of_nat i0 + 1) with (Z.of_nat (S i0)) by lia.
    intros Hrec. apply IH in Hrec as (n & Hn & Hu & Hoff & Hpre & Hend); [|lia].
    exists n. split; [lia|]. split; [done|]. split; [done|]. split; [|done].
    intros i Hi. destruct (decide (i = i0)) as [->|Hne].
    + exists mde. split; [done|]. split; [|done].
      rewrite Hc. destruct mde, cde. cbn in *. by subst.
    + apply Hpre. lia.
Qed.

Lemma GetMergeStartOffset_scan epa merged area off u :
  (GetMergeStartOffset epa merged area).2 = Ok (off, u) →
  ∃ n : nat, u = Z.of_nat n ∧ off = sizeof_disk_exception * Z.of_nat n
    ∧ Z.of_nat n ≠ epa
    ∧ (∀ i : nat, (i < n)%nat →
         ∃ de, merged !! i = Some de ∧ area !! i = Some de
               ∧ old_chunk de ≠ 0 ∧ new_chunk de ≠ 0)
    ∧ (epa < Z.of_nat n
       ∨ (Z.of_nat n <= epa ∧ merged !! n = Some zero_exception)).
Proof.
  unfold GetMergeStartOffset.
  destruct (GetMergeStartOffset_loop _ _ _ _ _ _ _) as [tr r] eqn:Hloop.
  cbn [snd]. destruct r as [[off' u']| |]; [|done..].
  cbn [mbind outcome_bind].
  destruct (Z.eqb_spec u' epa) as [|Hne]; [done|].
  cbn [negb CHECK mbind outcome_bind]. intros [= <- <-].
  apply (GetMergeStartOffset_loop_scan _ _ _ _ 0) in Hloop
    as (n & _ & Hu & Hoff & Hpre & Hend); [|lia].
  exists n. split; [done|]. split; [done|]. split; [lia|].
  split; [|done]. intros i Hi. apply Hpre. lia.
Qed.

(** X7: when Phase A succeeds on an area of [exceptions_per_area_]
    entries, it returns the number [n] of leading entries of the
    kernel's page that are still unmerged, with [offset = 16 n]: the
    first [n] entries of the page are live and equal to those of the
    stored area, entry [n] of the page is all zero, and [n] is less than
    [exceptions_per_area_] (a page with no merged entry is rejected). *)
Theorem GetMergeStartOffset_spec epa merged area off u :
  Z.of_nat (length area) = epa →
  (GetMergeStartOffset epa merged area).2 = Ok (off, u) →
  ∃ n : nat, u = Z.of_nat n ∧ off = sizeof_disk_exception * Z.of_nat n
    ∧ (n < length area)%nat
    ∧ take n merged = take n area
    ∧ Forall (fun de => old_chunk de ≠ 0 ∧ new_chunk de ≠ 0) (take n area)
    ∧ merged !! n = Some zero_exception.
Proof.
  intros Hlen Hok.
  apply GetMergeStartOffset_scan in Hok as (n & Hu & Hoff & Hne & Hpre & Hend).
  assert (Hn : (n <= length area)%nat).
  { destruct n as [|n]; [lia|].
    destruct (Hpre n ltac:(lia)) as (de & _ & Ha & _).
    apply lookup_lt_Some in Ha. lia. }
  exists n. split; [done|]. split; [done|]. split; [lia|].
  destruct Hend as [Hgt|[_ Hz]]; [lia|].
  split; [|split; [|done]].
  - apply list_eq. intros i. rewrite !lookup_take.
    destruct (decide (i < n)%nat) as [Hi|Hi]; [|done].
    destruct (Hpre i Hi) as (de & Hm & Ha & _). by rewrite Hm, Ha.
  - apply Forall_forall. intros de Hde.
    apply list_elem_of_lookup in Hde as [i Hi].
    rewrite lookup_take in Hi.
    destruct (decide (i < n)%nat) as [Hlt|]; [|done].
    destruct (Hpre i Hlt) as (de' & _ & Ha & Ho & Hn').
    rewrite Ha in Hi. injection Hi as <-. done.
Qed.

Lemma X7_witness :
  ∃ n : nat, 1 = Z.of_nat n ∧ 16 = sizeof_disk_exception * Z.of_nat n
    ∧ (n < length example_area)%nat
    ∧ take n (merged_upto 1 example_area) = take n example_area
    ∧ Forall (fun de => old_chunk de ≠ 0 ∧ new_chunk de ≠ 0) (take n example_area)
    ∧ merged_upto 1 example_area !! n = Some zero_exception.
Proof.
  apply (GetMergeStartOffset_spec EXCEPTIONS_PER_AREA
           (merged_upto 1 example_area) example_area 16 1).
  - vm_compute. reflexivity.
  - vm_compute. reflexivity.
Defined.

(** ** The entries the scans touch *)

Lemma GetMergeStartOffset_loop_trace fuel epa merged area off u tr (lo : Z) :
  lo <= off →
  off = sizeof_disk_exception * u →
  Forall (fun a => lo <= access_offset a <= sizeof_disk_exception * epa) tr →
  Forall (fun a => lo <= access_offset a <= sizeof_disk_exception * epa)
    (GetMergeStartOffset_loop fuel epa merged area off u tr).1.
Proof.
  revert off u tr. induction fuel as [|fuel IH]; intros off u tr Hlo Hoff Htr;
    cbn [GetMergeStartOffset_loop].
  { by destruct (negb _). }
  destruct (Z.leb_spec u epa) as [Hle|Hgt]; cbn [negb]; [|done].
  assert (Hin : lo <= off <= sizeof_disk_exception * epa)
    by (unfold sizeof_disk_exception in *; lia).
  assert (Htr1 : Forall (fun a => lo <= access_offset a
                                  <= sizeof_disk_exception * epa)
                   (tr ++ [ReadMerged off])).
  { apply Forall_app. split; [done|]. by constructor. }
  assert (Htr2 : Forall (fun a => lo <= access_offset a
                                  <= sizeof_disk_exception * epa)
                   ((tr ++ [ReadMerged off]) ++ [ReadCow off])).
  { apply Forall_app. split; [done|]. by constructor. }
  destruct (area_load merged off) as [mde|]; [|done].
  destruct (negb (old_chunk mde =? 0)).
  - destruct (new_chunk mde =? 0); [done|].
    destruct (area_load area off) as [cde|]; [|done].
    destruct (negb (_ =? _)); [done|].
    destruct (negb (_ =? _)); [done|].
    apply IH; [unfold sizeof_disk_exception; lia
              |unfold sizeof_disk_exception in *; lia|done].
  - by destruct (negb _).
Qed.

Lemma GetNumberOfMergedOps_loop_trace fuel epa merged area off u m tr (lo : Z) :
  lo <= off →
  off = sizeof_disk_exception * (u + m) →
  Forall (fun a => lo <= access_offset a <= sizeof_disk_exception * epa) tr →
  Forall (fun a => lo <= access_offset a <= sizeof_disk_exception * epa)
    (GetNumberOfMergedOps_loop fuel epa merged area off u m tr).1.
Proof.
  revert area off m tr.
  induction fuel as [|fuel IH]; intros area off m tr Hlo Hoff Htr;
    cbn [GetNumberOfMergedOps_loop].
  { by destruct (negb _). }
  destruct (Z.leb_spec (u + m) epa) as [Hle|Hgt]; cbn [negb]; [|done].
  assert (Hin : lo <= off <= sizeof_disk_exception * epa)
    by (unfold sizeof_disk_exception in *; lia).
  assert (Htr1 : Forall (fun a => lo <= access_offset a
                                  <= sizeof_disk_exception * epa)
                   (tr ++ [ReadMerged off])).
  { apply Forall_app. split; [done|]. by constructor. }
  assert (Htr2 : Forall (fun a => lo <= access_offset a
                                  <= sizeof_disk_exception * epa)
                   ((tr ++ [ReadMerged off]) ++ [ReadCow off])).
  { apply Forall_app. split; [done|]. by constructor. }
  assert (Htr3 : Forall (fun a => lo <= access_offset a
                                  <= sizeof_disk_exception * epa)
                   (((tr ++ [ReadMerged off]) ++ [ReadCow off]) ++ [WriteCow off])).
  { apply Forall_app. split; [done|]. by constructor. }
  destruct (area_load merged off) as [mde|]; [|done].
  destruct (_ || _); [done|].
  destruct (area_load area off) as [cde|]; [|done].
  destruct (negb (new_chunk cde =? 0)).
  - destruct (area_store area off zero_exception) as [area1|]; [|done].
    apply IH; [unfold sizeof_disk_exception; lia
              |unfold sizeof_disk_exception in *; lia|done].
  - destruct (old_chunk cde =? 0); [|done]. by destruct (new_chunk cde =? 0).
Qed.

(** X8: the two scans touch entries [0 .. exceptions_per_area_] of the
    two pages and nothing else: every access of Phase A is at a byte
    offset between 0 and [16 * exceptions_per_area_], and every access
    of Phase B is between the offset it starts from and
    [16 * exceptions_per_area_].  The reach past the end of a page is
    therefore one entry, never more. *)
Theorem scan_accesses_bounded epa merged area :
  Forall (fun a => 0 <= access_offset a <= sizeof_disk_exception * epa)
    (GetMergeStartOffset epa merged area).1
  ∧ ∀ u, Forall (fun a => sizeof_disk_exception * u <= access_offset a
                          <= sizeof_disk_exception * epa)
           (GetNumberOfMergedOps epa merged area (sizeof_disk_exception * u) u).1.
Proof.
  split.
  - unfold GetMergeStartOffset.
    pose proof (GetMergeStartOffset_loop_trace (Z.to_nat (epa + 1)) epa merged
                  area 0 0 [] 0 ltac:(done) ltac:(done) ltac:(constructor)) as Ht.
    by destruct (GetMergeStartOffset_loop _ _ _ _ _ _ _).
  - intros u. unfold GetNumberOfMergedOps.
    apply GetNumberOfMergedOps_loop_trace; [lia|f_equal; lia|constructor].
Qed.

(** ** A page that reports nothing new *)

Section nothing_merged.
Context `{CowReaderI R, CowWriterI W}.
Implicit Types s : Snapuserd R W.

(** X9: a merge-complete page whose first merged entry meets an entry
    of the stored area that is already zero reports no new merged
    operation: the count of Phase B is 0 and the daemon aborts on
    [CHECK(merged_ops_cur_iter > 0)].  This is what happens when the
    kernel sends the same page twice, or a page for an area whose
    live entries have all been merged. *)
Theorem ProcessMergeComplete_nothing_merged s chunk buffer header area off u :
  let epa := exceptions_per_area_ s in
  let idx := wrap64 (quot (lldiv (to_sll chunk) (stride_of epa))) in
  GetHeader (reader_ s) = Some header →
  idx < Z.of_nat (length (vec_ s)) →
  vec_ s !! Z.to_nat idx = Some area →
  (GetMergeStartOffset epa buffer area).2 = Ok (off, u) →
  area !! Z.to_nat u = Some zero_exception →
  ProcessMergeComplete s chunk buffer = CheckFailed CHECK_some_op_merged.
Proof.
  intros epa idx Hh Hidx Harea HA Hz.
  unfold ProcessMergeComplete. rewrite Hh. fold epa. fold idx.
  rewrite (proj2 (Z.ltb_lt _ _) Hidx). cbn [CHECK mbind outcome_bind].
  rewrite Harea. cbn [lift_mem mbind outcome_bind]. rewrite HA.
  cbn [mbind outcome_bind].
  apply GetMergeStartOffset_scan in HA as (n & -> & -> & _ & _ & Hend).
  rewrite Nat2Z.id in Hz.
  assert (HB : (GetNumberOfMergedOps epa buffer area
                  (sizeof_disk_exception * Z.of_nat n) (Z.of_nat n)).2
               = Ok (0, area)).
  { unfold GetNumberOfMergedOps.
    destruct Hend as [Hgt|[Hle Hm]].
    - destruct (Z.to_nat (epa + 1 - Z.of_nat n)); cbn [GetNumberOfMergedOps_loop].
      all: by rewrite Z.add_0_r, (proj2 (Z.leb_gt _ _)) by lia.
    - destruct (Z.to_nat (epa + 1 - Z.of_nat n)) as [|fuel] eqn:Hfuel; [lia|].
      cbn [GetNumberOfMergedOps_loop].
      rewrite Z.add_0_r, (proj2 (Z.leb_le _ _)) by lia. cbn [negb].
      assert (Hload : ∀ a, a !! n = Some zero_exception →
                area_load a (sizeof_disk_exception * Z.of_nat n)
                = Some zero_exception).
      { intros a Ha. unfold area_load, in_area, sizeof_disk_exception.
        pose proof (lookup_lt_Some _ _ _ Ha).
        rewrite (proj2 (Z.leb_le 0 _)) by lia.
        rewrite Z.mul_comm, Z.mod_mul by lia.
        rewrite (proj2 (Z.leb_le _ _)) by lia. cbn [andb Z.eqb].
        rewrite Z.div_mul by lia. by rewrite Nat2Z.id. }
      rewrite (Hload buffer Hm), (Hload area Hz). done. }
  rewrite HB. done.
Qed.
End nothing_merged.

Lemma X9_witness :
  ProcessMergeComplete
    (after_merge (one_block_device [replace_op 10; copy_op 20 30]) 1 zero_payload)
    1 zero_payload
  = CheckFailed CHECK_some_op_merged.
Proof.
  apply (ProcessMergeComplete_nothing_merged _ 1 zero_payload
           {| block_size := BLOCK_SIZE; num_merge_ops := 0 |}
           (replicate (Z.to_nat EXCEPTIONS_PER_AREA) zero_exception) 0 0).
  - vm_compute. reflexivity.
  - vm_compute. reflexivity.
  - vm_compute. reflexivity.
  - vm_compute. reflexivity.
  - vm_compute. reflexivity.
Defined.

(** * Advancing the merge iterator *)

Lemma mergeable_ops_cons op iter :
  mergeable_ops (op :: iter)
  = if is_footer_or_label op then mergeable_ops iter else op :: mergeable_ops iter.
Proof.
  unfold mergeable_ops. rewrite filter_cons.
  destruct (is_footer_or_label op); cbn [negb].
  - by rewrite decide_False by done.
  - by rewrite decide_True by done.
Qed.

Lemma AdvanceMergedOps_loop_0 iter : AdvanceMergedOps_loop iter 0 = (true, iter, 0).
Proof. by destruct iter. Qed.

Lemma AdvanceMergedOps_loop_known iter m :
  forallb known_op iter = true → 0 <= m →
  if decide (m <= Z.of_nat (length (mergeable_ops iter))) then
    ∃ consumed rest, iter = consumed ++ rest
      ∧ Z.of_nat (length (mergeable_ops consumed)) = m
      ∧ (0 < m → ∃ c op, consumed = c ++ [op] ∧ is_footer_or_label op = false)
      ∧ AdvanceMergedOps_loop iter m = (true, rest, 0)
  else AdvanceMergedOps_loop iter m
       = (true, [], m - Z.of_nat (length (mergeable_ops iter))).
Proof.
  revert m. induction iter as [|op iter IH]; intros m Hknown Hm.
  { cbn [AdvanceMergedOps_loop].
    change (mergeable_ops []) with (@nil CowOperation).
    cbn [length]. destruct (decide (m <= Z.of_nat 0)) as [Hle|Hgt].
    - assert (m = 0) as -> by lia. exists [], []. split; [done|].
      split; [done|]. split; [lia|done].
    - by rewrite Z.sub_0_r. }
  cbn [forallb] in Hknown. apply andb_true_iff in Hknown as [Hop Hknown].
  cbn [AdvanceMergedOps_loop]. rewrite mergeable_ops_cons.
  destruct (Z.eqb_spec m 0) as [->|Hnz].
  { rewrite decide_True by lia. exists [], (op :: iter). split; [done|].
    split; [done|]. split; [lia|done]. }
  unfold known_op in Hop.
  destruct (is_footer_or_label op) eqn:Hlab.
  - specialize (IH m Hknown Hm).
    destruct (decide (m <= Z.of_nat (length (mergeable_ops iter)))); [|done].
    destruct IH as (consumed & rest & -> & Hcount & Hlast & Hloop).
    exists (op :: consumed), rest. split; [done|].
    split; [by rewrite mergeable_ops_cons, Hlab|]. split; [|done].
    intros Hpos. destruct (Hlast Hpos) as (c & o & -> & Ho).
    by exists (op :: c), o.
  - cbn [orb] in Hop. rewrite Hop. cbn [negb length].
    destruct (decide (m = 1)) as [->|Hne].
    + rewrite decide_True by lia. change (1 - 1) with 0.
      rewrite AdvanceMergedOps_loop_0. exists [op], iter. split; [done|].
      split; [by rewrite mergeable_ops_cons, Hlab|]. split; [|done].
      intros _. by exists [], op.
    + specialize (IH (m - 1) Hknown ltac:(lia)).
      destruct (decide (m - 1 <= Z.of_nat (length (mergeable_ops iter)))).
      * rewrite decide_True by lia.
        destruct IH as (consumed & rest & -> & Hcount & Hlast & Hloop).
        exists (op :: consumed), rest. split; [done|].
        split; [rewrite mergeable_ops_cons, Hlab; cbn [length]; lia|].
        split; [|done].
        intros _. destruct (Hlast ltac:(lia)) as (c & o & -> & Ho).
        by exists (op :: c), o.
      * rewrite decide_False by lia. rewrite IH. f_equal. lia.
Qed.

(** X10: on a log of Footer, Label, Replace, Zero and Copy operations,
    [AdvanceMergedOps] with [m >= 0] credits succeeds exactly when the
    iterator still holds [m] Replace, Zero or Copy operations: it then
    stops right behind the [m]-th of them (the Footer and Label
    operations that follow are not consumed).  With more credits than
    operations left the iterator runs out and the daemon aborts on
    [CHECK(merged_ops_cur_iter == 0)]. *)
Theorem AdvanceMergedOps_known iter m :
  forallb known_op iter = true → 0 <= m →
  if decide (m <= Z.of_nat (length (mergeable_ops iter))) then
    ∃ consumed rest, iter = consumed ++ rest
      ∧ Z.of_nat (length (mergeable_ops consumed)) = m
      ∧ (0 < m → ∃ c op, consumed = c ++ [op] ∧ is_footer_or_label op = false)
      ∧ AdvanceMergedOps iter m = Ok (true, rest)
  else AdvanceMergedOps iter m = CheckFailed CHECK_all_credits_used.
Proof.
  intros Hknown Hm. pose proof (AdvanceMergedOps_loop_known iter m Hknown Hm) as Hl.
  unfold AdvanceMergedOps.
  destruct (decide (m <= Z.of_nat (length (mergeable_ops iter)))) as [Hle|Hgt].
  - destruct Hl as (consumed & rest & Hiter & Hcount & Hlast & ->).
    exists consumed, rest. split; [done|]. split; [done|]. split; [done|].
    cbn [negb]. by rewrite orb_true_r.
  - rewrite Hl. cbn [negb]. rewrite bool_decide_eq_true_2 by done.
    cbn [negb orb]. by rewrite (proj2 (Z.eqb_neq _ _)) by lia.
Qed.

Lemma X10_witness :
  if decide (1 <= Z.of_nat (length (mergeable_ops [label_op; zero_op 5; label_op])))
  then
    ∃ consumed rest, [label_op; zero_op 5; label_op] = consumed ++ rest
      ∧ Z.of_nat (length (mergeable_ops consumed)) = 1
      ∧ (0 < 1 → ∃ c op, consumed = c ++ [op] ∧ is_footer_or_label op = false)
      ∧ AdvanceMergedOps [label_op; zero_op 5; label_op] 1 = Ok (true, rest)
  else AdvanceMergedOps [label_op; zero_op 5; label_op] 1
       = CheckFailed CHECK_all_credits_used.
Proof.
  apply (AdvanceMergedOps_known [label_op; zero_op 5; label_op] 1).
  - vm_compute. reflexivity.
  - lia.
Defined.

(** An iterator that stops with [false] stands on an operation of a type
    the merge does not know. *)
Lemma AdvanceMergedOps_loop_false iter m iter' m' :
  AdvanceMergedOps_loop iter m = (false, iter', m') →
  ∃ consumed op rest, iter = consumed ++ op :: rest ∧ iter' = op :: rest
    ∧ known_op op = false.
Proof.
  revert m. induction iter as [|op iter IH]; intros m;
    cbn [AdvanceMergedOps_loop]; [done|].
  destruct (m =? 0); [done|].
  destruct (is_footer_or_label op) eqn:Hlab.
  - intros (consumed & o & rest & -> & -> & Ho)%IH.
    by exists (op :: consumed), o, rest.
  - destruct (is_data_op op) eqn:Hdata; cbn [negb].
    + intros (consumed & o & rest & -> & -> & Ho)%IH.
      by exists (op :: consumed), o, rest.
    + intros [= <- <-]. exists [], op, iter. split; [done|]. split; [done|].
      unfold known_op. by rewrite Hlab, Hdata.
Qed.

Lemma AdvanceMergedOps_false iter m iter' :
  AdvanceMergedOps iter m = Ok (false, iter') →
  ∃ consumed op rest, iter = consumed ++ op :: rest ∧ iter' = op :: rest
    ∧ known_op op = false.
Proof.
  unfold AdvanceMergedOps.
  destruct (AdvanceMergedOps_loop iter m) as [[ok it] credits] eqn:Hloop.
  destruct ok; cbn [negb].
  - destruct (CHECK _ _); done.
  - intros [= <-]. by apply AdvanceMergedOps_loop_false in Hloop.
Qed.

(** * A merge-complete write that fails *)

Section merge_failure.
Context `{CowReaderI R, CowWriterI W}.
Implicit Types s : Snapuserd R W.

(** X11: when [ProcessMergeComplete] returns [false], either the log
    header could not be read and the device is untouched, or the
    failure came after the scan: the stored area has already been
    rewritten (at least one live entry is now zero) although the merge
    was not committed.  In that case either the forward iterator
    stands on an operation of an unknown type and the reader and the
    writer are as before, or [CommitMerge] failed after
    [UpdateMergeProgress] had been told the count.  The ChunkMap, the
    sink and the control device are the same in every case. *)
Theorem ProcessMergeComplete_false s chunk buffer s' :
  ProcessMergeComplete s chunk buffer = Ok (false, s') →
  let epa := exceptions_per_area_ s in
  let idx := Z.to_nat (wrap64 (quot (lldiv (to_sll chunk) (stride_of epa)))) in
  (GetHeader (reader_ s) = None ∧ s' = s)
  ∨ ∃ area area' (m : Z) (i : nat) de,
      vec_ s !! idx = Some area
      ∧ 0 < m
      ∧ vec_ s' = <[idx := area']> (vec_ s)
      ∧ area !! i = Some de ∧ new_chunk de ≠ 0
      ∧ area' !! i = Some zero_exception
      ∧ chunk_map_ s' = chunk_map_ s
      ∧ bufsink_ s' = bufsink_ s
      ∧ ctrl_fd_ s' = ctrl_fd_ s
      ∧ ((∃ op rest, cowop_iter_ s' = op :: rest ∧ known_op op = false
                     ∧ reader_ s' = reader_ s ∧ writer_ s' = writer_ s)
         ∨ (CommitMerge (writer_ s) m = (false, writer_ s')
            ∧ reader_ s' = UpdateMergeProgress (reader_ s) m)).
Proof.
  intros Hpm epa idx. unfold ProcessMergeComplete in Hpm.
  fold epa in Hpm. fold idx in Hpm. revert Hpm.
  destruct (GetHeader (reader_ s)) as [header|]; [|intros [= <-]; by left].
  destruct (_ <? _); [|done]. cbn [CHECK mbind outcome_bind].
  destruct (vec_ s !! idx) as [area|] eqn:Harea; [|done].
  cbn [lift_mem mbind outcome_bind].
  destruct ((GetMergeStartOffset epa buffer area).2)
    as [[off un]| |] eqn:HA; [|done..].
  cbn [mbind outcome_bind].
  destruct (GetMergeStartOffset_offset _ _ _ _ _ HA) as (u & -> & ->).
  destruct ((GetNumberOfMergedOps epa buffer area _ _).2)
    as [[m area']| |] eqn:HB; [|done..].
  cbn [mbind outcome_bind].
  destruct (Z.gtb_spec m 0) as [Hpos|]; [|done].
  cbn [CHECK mbind outcome_bind].
  unfold GetNumberOfMergedOps in HB.
  destruct (GetNumberOfMergedOps_loop _ _ _ _ _ _ _ _) as [tr r] eqn:Hloop.
  cbn [snd] in HB. subst r.
  apply GetNumberOfMergedOps_loop_spec in Hloop as [->|(_ & Hz & Hlive)];
    [lia|].
  rewrite Z.sub_0_r in Hz, Hlive.
  destruct (Hlive u ltac:(lia)) as (de & Hde & Hnz).
  pose proof (Hz u) as Hzu. rewrite decide_True in Hzu by lia.
  destruct (AdvanceMergedOps (cowop_iter_ s) m) as [[ok iter]| |] eqn:HC;
    [|done..].
  cbn [mbind outcome_bind]. destruct ok; cbn [negb].
  - destruct (CommitMerge (writer_ s) m) as [committed w] eqn:HD.
    destruct committed; [done|]. cbn [negb]. intros [= <-].
    right. exists area, area', m, u, de. cbn.
    split; [done|]. split; [lia|]. split; [done|]. split; [done|].
    split; [done|]. split; [done|]. split; [done|]. split; [done|].
    split; [done|]. by right.
  - intros [= <-].
    apply AdvanceMergedOps_false in HC as (consumed & op & rest & _ & -> & Hop).
    right. exists area, area', m, u, de. cbn.
    split; [done|]. split; [lia|]. split; [done|]. split; [done|].
    split; [done|]. split; [done|]. split; [done|]. split; [done|].
    split; [done|]. left. by exists op, rest.
Qed.
End merge_failure.

Lemma X11_witness :
  let s := failing_commit_device [replace_op 10; copy_op 20 30] in
  let s' := after_merge s 1 zero_payload in
  let epa := exceptions_per_area_ s in
  let idx := Z.to_nat (wrap64 (quot (lldiv (to_sll 1) (stride_of epa)))) in
  (GetHeader (reader_ s) = None ∧ s' = s)
  ∨ ∃ area area' (m : Z) (i : nat) de,
      vec_ s !! idx = Some area
      ∧ 0 < m
      ∧ vec_ s' = <[idx := area']> (vec_ s)
      ∧ area !! i = Some de ∧ new_chunk de ≠ 0
      ∧ area' !! i = Some zero_exception
      ∧ chunk_map_ s' = chunk_map_ s
      ∧ bufsink_ s' = bufsink_ s
      ∧ ctrl_fd_ s' = ctrl_fd_ s
      ∧ ((∃ op rest, cowop_iter_ s' = op :: rest ∧ known_op op = false
                     ∧ reader_ s' = reader_ s ∧ writer_ s' = writer_ s)
         ∨ (CommitMerge (writer_ s) m = (false, writer_ s')
            ∧ reader_ s' = UpdateMergeProgress (reader_ s) m)).
Proof.
  apply (ProcessMergeComplete_false
           (failing_commit_device [replace_op 10; copy_op 20 30]) 1 zero_payload).
  vm_compute. reflexivity.
Defined.

(** * Memory, byte by byte *)

Lemma mem_write_lookup buf p data buf' (i : nat) :
  mem_write buf p data = Some buf' →
  buf' !! i = if decide (Z.to_nat p <= i < Z.to_nat p + length data)%nat
              then data !! (i - Z.to_nat p)%nat else buf !! i.
Proof.
  intros (Hp & Hfit & ->)%mem_write_inv.
  assert (Hlt : length (take (Z.to_nat p) buf) = Z.to_nat p)
    by (rewrite length_take; lia).
  destruct (decide (i < Z.to_nat p)%nat) as [Hi|Hi].
  - rewrite lookup_app_l by lia. rewrite lookup_take.
    rewrite decide_True by lia. by rewrite decide_False by lia.
  - rewrite lookup_app_r by lia. rewrite Hlt.
    destruct (decide (i < Z.to_nat p + length data)%nat) as [Hj|Hj].
    + rewrite lookup_app_l by lia. by rewrite decide_True by lia.
    + rewrite lookup_app_r by lia. rewrite lookup_drop.
      rewrite decide_False by lia. f_equal. lia.
Qed.

Lemma mem_read_inv buf p n X :
  mem_read buf p n = Some X →
  0 <= p ∧ 0 <= n ∧ p + n <= Z.of_nat (length buf)
  ∧ X = take (Z.to_nat n) (drop (Z.to_nat p) buf).
Proof.
  unfold mem_read.
  destruct (Z.leb_spec 0 p); [|done].
  destruct (Z.leb_spec 0 n); [|done].
  destruct (Z.leb_spec (p + n) (Z.of_nat (length buf))); [|done].
  by intros [= <-].
Qed.

Lemma mem_read_lookup buf p n X (i : nat) :
  mem_read buf p n = Some X →
  X !! i = if decide (i < Z.to_nat n)%nat then buf !! (Z.to_nat p + i)%nat
           else None.
Proof.
  intros (Hp & Hn & Hfit & ->)%mem_read_inv.
  rewrite lookup_take. destruct (decide _); [|done]. by rewrite lookup_drop.
Qed.

Lemma mem_read_length buf p n X :
  mem_read buf p n = Some X → length X = Z.to_nat n.
Proof.
  intros (Hp & Hn & Hfit & ->)%mem_read_inv.
  rewrite length_take, length_drop. lia.
Qed.

Lemma mem_read_ext buf p n X :
  0 <= p → 0 <= n → p + n <= Z.of_nat (length buf) →
  length X = Z.to_nat n →
  (∀ i : nat, (i < Z.to_nat n)%nat → X !! i = buf !! (Z.to_nat p + i)%nat) →
  mem_read buf p n = Some X.
Proof.
  intros Hp Hn Hfit Hlen Hall. rewrite mem_read_Some by done. f_equal.
  symmetry. apply list_eq. intros i. rewrite lookup_take.
  destruct (decide (i < Z.to_nat n)%nat) as [Hi|Hi].
  - rewrite lookup_drop. by apply Hall.
  - apply lookup_ge_None. lia.
Qed.

(** A load below a store sees the old bytes. *)
Lemma mem_write_read_below buf p data buf' q n :
  mem_write buf p data = Some buf' →
  q + n <= p →
  mem_read buf' q n = mem_read buf q n.
Proof.
  intros Hw Hq. pose proof (mem_write_length _ _ _ _ Hw) as Hlen.
  destruct (mem_read buf q n) as [X|] eqn:Hr.
  - pose proof (mem_read_length _ _ _ _ Hr) as HX.
    pose proof (mem_read_inv _ _ _ _ Hr) as (Hq0 & Hn & Hfit & _).
    apply mem_read_ext; [lia..|].
    intros i Hi. rewrite (mem_read_lookup _ _ _ _ i Hr).
    rewrite decide_True by done.
    rewrite (mem_write_lookup _ _ _ _ _ Hw).
    by rewrite decide_False by lia.
  - unfold mem_read in *. rewrite Hlen. by destruct (_ && _ && _).
Qed.

(** Two stores side by side are one store of the two ranges. *)
Lemma mem_write_app buf p d1 d2 buf1 buf2 :
  mem_write buf p d1 = Some buf1 →
  mem_write buf1 (p + Z.of_nat (length d1)) d2 = Some buf2 →
  mem_write buf p (d1 ++ d2) = Some buf2.
Proof.
  intros H1 H2. pose proof (mem_write_length _ _ _ _ H1) as Hl1.
  pose proof (mem_write_inv _ _ _ _ H1) as (Hp & Hf1 & _).
  pose proof (mem_write_inv _ _ _ _ H2) as (_ & Hf2 & _).
  destruct (mem_write buf p (d1 ++ d2)) as [buf3|] eqn:H3.
  2:{ rewrite mem_write_Some in H3; [done|lia|rewrite length_app; lia]. }
  f_equal. apply list_eq. intros i.
  rewrite (mem_write_lookup _ _ _ _ i H3), (mem_write_lookup _ _ _ _ i H2),
    (mem_write_lookup _ _ _ _ i H1).
  rewrite length_app. replace (Z.to_nat (p + Z.of_nat (length d1)))
    with (Z.to_nat p + length d1)%nat by lia.
  destruct (decide (Z.to_nat p <= i < Z.to_nat p + length d1)%nat) as [Ha|Ha].
  - rewrite decide_True by lia. rewrite decide_False by lia.
    by rewrite lookup_app_l by lia.
  - destruct (decide (Z.to_nat p + length d1 <= i
                      < Z.to_nat p + length d1 + length d2)%nat) as [Hb|Hb].
    + rewrite decide_True by lia. rewrite lookup_app_r by lia. f_equal. lia.
    + by rewrite decide_False by lia.
Qed.

(** A store inside a range that has been loaded. *)
Lemma mem_write_within buf p n X k data :
  mem_read buf p n = Some X →
  0 <= k → k + Z.of_nat (length data) <= n →
  ∃ buf', mem_write buf (p + k) data = Some buf'
    ∧ mem_read buf' p n
      = Some (take (Z.to_nat k) X ++ data
                ++ drop (Z.to_nat k + length data) X).
Proof.
  intros Hr Hk Hfit.
  pose proof (mem_read_inv _ _ _ _ Hr) as (Hp & Hn & Hlen & _).
  pose proof (mem_read_length _ _ _ _ Hr) as HX.
  destruct (mem_write buf (p + k) data) as [buf'|] eqn:Hw.
  2:{ rewrite mem_write_Some in Hw; [done|lia..]. }
  exists buf'. split; [done|].
  pose proof (mem_write_length _ _ _ _ Hw) as Hl.
  apply mem_read_ext; [lia..| |].
  { rewrite !length_app, length_take, length_drop. lia. }
  intros i Hi. rewrite (mem_write_lookup _ _ _ _ _ Hw).
  replace (Z.to_nat (p + k)) with (Z.to_nat p + Z.to_nat k)%nat by lia.
  destruct (decide (i < Z.to_nat k)%nat) as [Ha|Ha].
  - rewrite lookup_app_l by (rewrite length_take; lia).
    rewrite lookup_take, decide_True by lia.
    rewrite decide_False by lia.
    rewrite (mem_read_lookup _ _ _ _ i Hr). by rewrite decide_True by lia.
  - rewrite lookup_app_r by (rewrite length_take; lia).
    rewrite length_take. replace (Z.to_nat k `min` length X)%nat
      with (Z.to_nat k) by lia.
    destruct (decide (i < Z.to_nat k + length data)%nat) as [Hb|Hb].
    + rewrite lookup_app_l by lia. rewrite decide_True by lia. f_equal. lia.
    + rewrite lookup_app_r by lia. rewrite lookup_drop.
      rewrite decide_False by lia.
      rewrite (mem_read_lookup _ _ _ _ _ Hr). rewrite decide_True by lia.
      f_equal. lia.
Qed.

(** A buffer that agrees with another one outside a range is that one
    after a store of what the range holds. *)
Lemma mem_write_from_read buf buf' p data :
  length buf' = length buf →
  mem_read buf' p (Z.of_nat (length data)) = Some data →
  (∀ i : nat, ¬ (Z.to_nat p <= i < Z.to_nat p + length data)%nat →
     buf' !! i = buf !! i) →
  mem_write buf p data = Some buf'.
Proof.
  intros Hlen Hr Hout.
  pose proof (mem_read_inv _ _ _ _ Hr) as (Hp & _ & Hfit & _).
  destruct (mem_write buf p data) as [buf2|] eqn:Hw.
  2:{ rewrite mem_write_Some in Hw; [done|lia..]. }
  f_equal. apply list_eq. intros i.
  rewrite (mem_write_lookup _ _ _ _ i Hw).
  destruct (decide (Z.to_nat p <= i < Z.to_nat p + length data)%nat) as [Hi|Hi].
  - rewrite (mem_read_lookup _ _ _ _ (i - Z.to_nat p) Hr).
    rewrite decide_True by lia. f_equal. lia.
  - symmetry. by apply Hout.
Qed.

(** * The kernel header block *)

Section kernel_header.
Context `{CowReaderI R, CowWriterI W}.
Implicit Types s : Snapuserd R W.

(** The five stores of [ConstructKernelCowHeader] amount to one store
    of the header block. *)
Lemma ConstructKernelCowHeader_store s :
  sink_has_room (bufsink_ s) BLOCK_SIZE →
  ∃ buf, ConstructKernelCowHeader s
         = Ok (set_bufsink s (set_buffer (bufsink_ s) buf))
    ∧ mem_write (buffer_ (bufsink_ s))
        (sizeof_dm_user_header + buffer_offset_ (bufsink_ s))
        kernel_header_block = Some buf.
Proof.
  intros Hroom. unfold ConstructKernelCowHeader.
  rewrite (GetPayloadBuffer_room _ _ Hroom) by done.
  destruct (sink_write_room _ _ (zeros BLOCK_SIZE) Hroom ltac:(by vm_compute))
    as (b0 & Hw0 & ->).
  set (payload := sizeof_dm_user_header + buffer_offset_ (bufsink_ s)) in *.
  cbn [mbind outcome_bind]. unfold sink_write. cbn [set_buffer buffer_].
  pose proof (mem_write_read _ _ _ _ Hw0) as Hr0.
  change (Z.of_nat (length (zeros BLOCK_SIZE))) with BLOCK_SIZE in Hr0.
  destruct (mem_write_within _ _ _ _ 0 (le_bytes 4 SNAP_MAGIC) Hr0
              ltac:(done) ltac:(by vm_compute)) as (b1 & Hw1 & Hr1).
  rewrite Z.add_0_r in Hw1. rewrite Hw1.
  cbn [lift_mem mbind outcome_bind set_buffer buffer_].
  destruct (mem_write_within _ _ _ _ 4 (le_bytes 4 SNAPSHOT_VALID) Hr1
              ltac:(done) ltac:(by vm_compute)) as (b2 & Hw2 & Hr2).
  rewrite Hw2. cbn [lift_mem mbind outcome_bind set_buffer buffer_].
  destruct (mem_write_within _ _ _ _ 8 (le_bytes 4 SNAPSHOT_DISK_VERSION) Hr2
              ltac:(done) ltac:(by vm_compute)) as (b3 & Hw3 & Hr3).
  rewrite Hw3. cbn [lift_mem mbind outcome_bind set_buffer buffer_].
  destruct (mem_write_within _ _ _ _ 12 (le_bytes 4 CHUNK_SIZE) Hr3
              ltac:(done) ltac:(by vm_compute)) as (b4 & Hw4 & Hr4).
  rewrite Hw4. cbn [lift_mem mbind outcome_bind set_buffer buffer_].
  exists b4. split; [done|].
  pose proof (mem_write_inv _ _ _ _ Hw0) as (Hp & _ & _).
  apply mem_write_from_read.
  - rewrite (mem_write_length _ _ _ _ Hw4), (mem_write_length _ _ _ _ Hw3),
      (mem_write_length _ _ _ _ Hw2), (mem_write_length _ _ _ _ Hw1).
    apply (mem_write_length _ _ _ _ Hw0).
  - change (Z.of_nat (length kernel_header_block)) with BLOCK_SIZE.
    rewrite Hr4. reflexivity.
  - change (length kernel_header_block) with 4096%nat. intros i Hi.
    rewrite (mem_write_lookup _ _ _ _ i Hw4), decide_False
      by (rewrite le_bytes_length; lia).
    rewrite (mem_write_lookup _ _ _ _ i Hw3), decide_False
      by (rewrite le_bytes_length; lia).
    rewrite (mem_write_lookup _ _ _ _ i Hw2), decide_False
      by (rewrite le_bytes_length; lia).
    rewrite (mem_write_lookup _ _ _ _ i Hw1), decide_False
      by (rewrite le_bytes_length; lia).
    rewrite (mem_write_lookup _ _ _ _ i Hw0), decide_False
      by (rewrite zeros_length; change (Z.to_nat BLOCK_SIZE) with 4096%nat; lia).
    done.
Qed.

(** X12: with room for a block at the sink's offset,
    [ConstructKernelCowHeader] leaves in the payload the 16 bytes of
    the kernel's [disk_header], little-endian [SNAP_MAGIC],
    [SNAPSHOT_VALID], [SNAPSHOT_DISK_VERSION] and [CHUNK_SIZE],
    followed by 4080 zero bytes.  The bytes before the block (the
    request header among them) and every other member of the device
    are unchanged. *)
Theorem ConstructKernelCowHeader_bytes s :
  sink_has_room (bufsink_ s) BLOCK_SIZE →
  let payload := sizeof_dm_user_header + buffer_offset_ (bufsink_ s) in
  ∃ buf, ConstructKernelCowHeader s
         = Ok (set_bufsink s (set_buffer (bufsink_ s) buf))
    ∧ mem_read buf payload BLOCK_SIZE = Some kernel_header_block
    ∧ mem_read buf 0 payload = mem_read (buffer_ (bufsink_ s)) 0 payload
    ∧ length buf = length (buffer_ (bufsink_ s)).
Proof.
  intros Hroom payload.
  destruct (ConstructKernelCowHeader_store s Hroom) as (buf & Hc & Hw).
  fold payload in Hw. exists buf. split; [done|]. split; [|split].
  - apply (mem_write_read _ _ _ _ Hw).
  - apply (mem_write_read_below _ _ _ _ _ _ Hw). lia.
  - apply (mem_write_length _ _ _ _ Hw).
Qed.
End kernel_header.

Lemma X12_witness :
  let s := one_block_device [zero_op 5] in
  let payload := sizeof_dm_user_header + buffer_offset_ (bufsink_ s) in
  ∃ buf, ConstructKernelCowHeader s
         = Ok (set_bufsink s (set_buffer (bufsink_ s) buf))
    ∧ mem_read buf payload BLOCK_SIZE = Some kernel_header_block
    ∧ mem_read buf 0 payload = mem_read (buffer_ (bufsink_ s)) 0 payload
    ∧ length buf = length (buffer_ (bufsink_ s)).
Proof.
  apply (ConstructKernelCowHeader_bytes (one_block_device [zero_op 5])).
  split; [|split; [|split]]; by vm_compute.
Defined.

(** * The byte image of an area and its typed view *)

Lemma le_value_le_bytes (n : nat) v :
  0 <= v < 256 ^ Z.of_nat n → le_value (le_bytes n v) = v.
Proof.
  revert v. induction n as [|n IH]; intros v Hv.
  - cbn in *. lia.
  - cbn [le_bytes le_value fold_right]. fold (le_value (le_bytes n (v / 256))).
    rewrite IH.
    + pose proof (Z.div_mod v 256 ltac:(done)). lia.
    + rewrite Nat2Z.inj_succ, Z.pow_succ_r in Hv by lia.
      split; [apply Z.div_pos; lia|].
      apply Z.div_lt_upper_bound; lia.
Qed.

Lemma exceptions_of_bytes_exception de rest (n : nat) :
  exception_fits de = true →
  exceptions_of_bytes (S n) (exception_bytes de ++ rest)
  = de :: exceptions_of_bytes n rest.
Proof.
  unfold exception_fits. rewrite !andb_true_iff.
  intros [[[Ho1 Ho2] Hn1] Hn2].
  apply Z.leb_le in Ho1, Hn1. apply Z.ltb_lt in Ho2, Hn2.
  cbn [exceptions_of_bytes]. unfold exception_bytes.
  rewrite <- app_assoc.
  rewrite (take_app_length' (le_bytes 8 (old_chunk de)))
    by (by rewrite le_bytes_length).
  rewrite (drop_app_length' (le_bytes 8 (old_chunk de)))
    by (by rewrite le_bytes_length).
  rewrite (take_app_length' (le_bytes 8 (new_chunk de)))
    by (by rewrite le_bytes_length).
  rewrite app_assoc.
  rewrite drop_app_length'
    by (rewrite length_app, !le_bytes_length; done).
  rewrite !le_value_le_bytes by (change (256 ^ Z.of_nat 8) with (2 ^ 64); lia).
  by destruct de.
Qed.

Lemma exceptions_of_bytes_area a rest (n : nat) :
  forallb exception_fits a = true →
  exceptions_of_bytes (length a + n) (area_bytes a ++ rest)
  = a ++ exceptions_of_bytes n rest.
Proof.
  induction a as [|de a IH]; [done|].
  cbn [forallb]. intros [Hde Ha]%andb_true_iff. specialize (IH Ha).
  cbn [length Nat.add area_bytes flat_map app]. fold (area_bytes a).
  rewrite <- app_assoc. rewrite exceptions_of_bytes_exception by done.
  by rewrite IH.
Qed.

Section page_round_trip.
Context `{CowReaderI R, CowWriterI W}.
Implicit Types s : Snapuserd R W.

(** X13: the byte image [ReadDiskExceptions] copies into the payload
    decodes back to the stored area.  When the chunk id selects an
    area of the vector, the area is a full page whose fields fit a
    [uint64_t] and the sink has room for a page, the typed view of the
    payload that a merge-complete write is scanned through,
    [exceptions_at], begins with exactly the entries of that area. *)
Theorem ReadDiskExceptions_round_trip s chunk read_size area :
  let idx := wrap64 (quot (lldiv (to_sll chunk) (stride_of EXCEPTIONS_PER_AREA))) in
  let payload := sizeof_dm_user_header + buffer_offset_ (bufsink_ s) in
  exceptions_per_area_ s = EXCEPTIONS_PER_AREA →
  sink_has_room (bufsink_ s) AREA_SIZE →
  read_size <= AREA_SIZE →
  vec_ s !! Z.to_nat idx = Some area →
  length area = Z.to_nat EXCEPTIONS_PER_AREA →
  forallb exception_fits area = true →
  ∃ s', ReadDiskExceptions s chunk read_size = Ok (true, s')
    ∧ take (length area) (exceptions_at s' payload) = area.
Proof.
  intros idx payload Hepa Hroom Hsize Harea Hlen Hfits.
  pose proof (lookup_lt_Some _ _ _ Harea) as Hidx.
  unfold ReadDiskExceptions. rewrite Hepa. fold idx.
  assert (Hidx0 : 0 <= idx) by (unfold idx, wrap64; apply Z.mod_pos_bound; done).
  rewrite (proj2 (Z.ltb_lt _ _)) by lia.
  change (wrap64 (EXCEPTIONS_PER_AREA * sizeof_disk_exception)) with AREA_SIZE.
  rewrite Z.gtb_ltb, (proj2 (Z.ltb_ge _ _)) by lia.
  rewrite (GetPayloadBuffer_room _ _ Hroom) by done.
  rewrite Harea. cbn [lift_mem mbind outcome_bind].
  pose proof (area_bytes_length area) as Hab. rewrite Hlen in Hab.
  assert (Hab' : Z.of_nat (length (area_bytes area)) = AREA_SIZE).
  { rewrite Hab. by vm_compute. }
  rewrite mem_read_Some by (rewrite ?Hab'; done).
  change (Z.to_nat 0) with 0%nat. rewrite drop_0.
  rewrite take_ge by lia. cbn [lift_mem mbind outcome_bind].
  destruct (sink_write_room _ _ (area_bytes area) Hroom ltac:(lia))
    as (buf & Hw & ->). cbn [mbind outcome_bind]. eexists. split; [done|].
  unfold exceptions_at. cbn [set_bufsink bufsink_ set_buffer buffer_].
  pose proof (mem_write_length _ _ _ _ Hw) as Hl.
  apply mem_write_inv in Hw as (Hp & Hfit & ->). fold payload.
  fold payload in Hp, Hfit.
  rewrite drop_app_length' by (rewrite length_take; lia).
  set (rest := drop _ (buffer_ (bufsink_ s))).
  set (n := Z.to_nat _).
  assert (Hn : (length area <= n)%nat).
  { unfold n. rewrite length_app. unfold sizeof_disk_exception in *.
    apply Nat2Z.inj_le. rewrite Z2Nat.id by (apply Z.div_pos; lia).
    apply Z.div_le_lower_bound; lia. }
  replace n with (length area + (n - length area))%nat by lia.
  rewrite exceptions_of_bytes_area by done.
  by rewrite take_app_length.
Qed.
End page_round_trip.

Lemma X13_witness :
  ∃ s', ReadDiskExceptions (one_block_device [zero_op 5]) 1 BLOCK_SIZE = Ok (true, s')
    ∧ take (length ({| old_chunk := 5; new_chunk := 2 |}
                    :: replicate 255 zero_exception))
        (exceptions_at s'
           (sizeof_dm_user_header
            + buffer_offset_ (bufsink_ (one_block_device [zero_op 5]))))
      = {| old_chunk := 5; new_chunk := 2 |} :: replicate 255 zero_exception.
Proof.
  apply (ReadDiskExceptions_round_trip (one_block_device [zero_op 5]) 1 BLOCK_SIZE).
  - vm_compute. reflexivity.
  - split; [|split; [|split]]; by vm_compute.
  - by vm_compute.
  - vm_compute. reflexivity.
  - vm_compute. reflexivity.
  - vm_compute. reflexivity.
Defined.

(** * The data read path, block by block *)

Lemma land_block_mask (n : Z) : Z.land (BLOCK_SIZE * n) (BLOCK_SIZE - 1) = 0.
Proof.
  change (BLOCK_SIZE - 1) with (Z.ones 12). rewrite Z.land_ones by done.
  change BLOCK_SIZE with (2 ^ 12). rewrite Z.mul_comm. apply Z.mod_mul. done.
Qed.

Section read_blocks.
Context `{CowReaderI R, CowWriterI W}.
Implicit Types s : Snapuserd R W.

Lemma expected_blocks_sink s b chunk n :
  expected_blocks (set_bufsink s b) chunk n = expected_blocks s chunk n.
Proof.
  revert chunk. induction n as [|n IH]; intros chunk; [done|].
  cbn [expected_blocks]. cbn [set_bufsink chunk_map_].
  destruct (chunk_map_ s !! chunk) as [op|]; [|done]. cbn.
  change (op_block (set_bufsink s b) op) with (op_block s op).
  destruct (op_block s op); [|done]. cbn. by rewrite IH.
Qed.

Lemma expected_blocks_length s chunk n ods :
  expected_blocks s chunk n = Some ods → length ods = n.
Proof.
  revert chunk ods. induction n as [|n IH]; intros chunk ods.
  { by intros [= <-]. }
  cbn [expected_blocks].
  destruct (chunk_map_ s !! chunk) as [op|]; [|done]. cbn.
  destruct (op_block s op); [|done]. cbn.
  destruct (expected_blocks s (chunk + 1) n) as [rest|] eqn:Hrest; [|done].
  cbn. intros [= <-]. cbn [length]. f_equal. by eapply IH.
Qed.

Lemma set_bufsink_same s : set_bufsink s (bufsink_ s) = s.
Proof. by destruct s. Qed.

Lemma sink_at_same b : sink_at b (buffer_offset_ b) (buffer_ b) = b.
Proof. by destruct b. Qed.

(** A block that can be produced is stored at the payload pointer. *)
Lemma dispatch_op_block s op d :
  op_block s op = Some d → Z.of_nat (length d) = BLOCK_SIZE →
  sink_has_room (bufsink_ s) BLOCK_SIZE →
  ∃ buf, mem_write (buffer_ (bufsink_ s))
           (sizeof_dm_user_header + buffer_offset_ (bufsink_ s)) d = Some buf
    ∧ dispatch_op s op
      = Ok (true, set_bufsink s (set_buffer (bufsink_ s) buf)).
Proof.
  intros Hblk Hlen Hroom.
  destruct (sink_write_room _ _ d Hroom ltac:(lia)) as (buf & Hw & Hsw).
  exists buf. split; [done|].
  unfold op_block in Hblk. unfold dispatch_op.
  destruct (type op); try done.
  - unfold ProcessCopyOp. rewrite (GetPayloadBuffer_room _ _ Hroom) by done.
    rewrite Hblk, Hlen, Z.eqb_refl, Hsw. done.
  - unfold ProcessReplaceOp, ReadData_into_sink, GetBuffer.
    rewrite Hblk, Hlen. rewrite (GetPayloadBuffer_room _ _ Hroom) by done.
    rewrite Hsw. done.
  - unfold ProcessZeroOp. rewrite (GetPayloadBuffer_room _ _ Hroom) by done.
    injection Hblk as <-. rewrite Hsw. done.
Qed.

(** A block that cannot be produced makes the dispatch return [false]
    and leaves the device as it is. *)
Lemma dispatch_op_fail s op :
  op_block s op = None →
  sink_has_room (bufsink_ s) BLOCK_SIZE →
  dispatch_op s op = Ok (false, s).
Proof.
  intros Hblk Hroom. unfold op_block in Hblk. unfold dispatch_op.
  destruct (type op); try done.
  - unfold ProcessCopyOp. rewrite (GetPayloadBuffer_room _ _ Hroom) by done.
    by rewrite Hblk.
  - unfold ProcessReplaceOp, ReadData_into_sink. by rewrite Hblk.
Qed.

(** One pass of the loop of [ReadData] over a block that can be
    produced. *)
Lemma ReadData_loop_step f s ck rs log op d :
  0 < rs → 0 <= ck → ck + 1 < 2 ^ 64 →
  chunk_map_ s !! ck = Some op →
  op_block s op = Some d → Z.of_nat (length d) = BLOCK_SIZE →
  sink_has_room (bufsink_ s) BLOCK_SIZE →
  ∃ buf, mem_write (buffer_ (bufsink_ s))
           (sizeof_dm_user_header + buffer_offset_ (bufsink_ s)) d = Some buf
    ∧ ReadData_loop (S f) s ck rs log
      = let s1 := set_bufsink s (sink_at (bufsink_ s)
                    (buffer_offset_ (bufsink_ s) + BLOCK_SIZE) buf) in
        _ ← CHECK CHECK_copy_is_last
              (negb (is_type kCowCopyOp op) || (rs - BLOCK_SIZE =? 0));
        if IsChunkIdMetadata (exceptions_per_area_ s) (ck + 1) then
          _ ← CHECK CHECK_boundary_is_last (rs - BLOCK_SIZE =? 0);
          Ok (true, set_bufsink s (sink_at (bufsink_ s) 0 buf), log ++ [op])
        else ReadData_loop f s1 (ck + 1) (rs - BLOCK_SIZE) (log ++ [op]).
Proof.
  intros Hrs Hck0 Hck Hmap Hblk Hlen Hroom.
  destruct (dispatch_op_block s op d Hblk Hlen Hroom) as (buf & Hw & Hd).
  exists buf. split; [done|].
  cbn [ReadData_loop]. rewrite Z.gtb_ltb, (proj2 (Z.ltb_lt _ _) Hrs).
  cbn [negb]. rewrite Hmap, Hd. cbn [mbind outcome_bind negb].
  destruct Hroom as (Hsz & Hoff & Hfit & Hmax).
  unfold UpdateBufferOffset, ResetBufferOffset, set_bufsink, set_buffer, sink_at.
  cbn [bufsink_ buffer_size_ buffer_offset_ buffer_ exceptions_per_area_
       reader_ writer_ cowop_iter_ vec_ chunk_map_ num_sectors_
       metadata_read_done_ backing_store_fd_ ctrl_fd_].
  unfold sizeof_dm_user_header, BLOCK_SIZE in *.
  rewrite !wrap64_small by lia. done.
Qed.

(** The loop over a run of blocks: it stores them one behind the other
    and either goes on with the rest of the request or, when the run
    is the whole request, returns [true] with the offset back at the
    start. *)
Lemma ReadData_loop_run (n : nat) :
  ∀ s ck rs log ods (f : nat),
    expected_blocks s ck n = Some ods →
    one_io (exceptions_per_area_ s) ck (BLOCK_SIZE * Z.of_nat n <? rs) ods
    = true →
    BLOCK_SIZE * Z.of_nat n <= rs →
    sink_has_room (bufsink_ s) (BLOCK_SIZE * Z.of_nat n) →
    0 <= ck → ck + Z.of_nat n < 2 ^ 64 →
    ∃ buf, mem_write (buffer_ (bufsink_ s))
             (sizeof_dm_user_header + buffer_offset_ (bufsink_ s))
             (concat ods.*2) = Some buf
      ∧ ReadData_loop (n + f) s ck rs log
        = if BLOCK_SIZE * Z.of_nat n <? rs then
            ReadData_loop f
              (set_bufsink s (sink_at (bufsink_ s)
                 (buffer_offset_ (bufsink_ s) + BLOCK_SIZE * Z.of_nat n) buf))
              (ck + Z.of_nat n) (rs - BLOCK_SIZE * Z.of_nat n) (log ++ ods.*1)
          else Ok (true, set_bufsink s (sink_at (bufsink_ s) 0 buf),
                   log ++ ods.*1).
Proof.
  induction n as [|n IH]; intros s ck rs log ods f Hexp Hio Hrs Hroom Hck0 Hck.
  { injection Hexp as <-. cbn [fmap list_fmap concat].
    pose proof Hroom as (Hsz & Hoff & Hfit & Hmax).
    exists (buffer_ (bufsink_ s)). split.
    { unfold sizeof_dm_user_header, BLOCK_SIZE in *.
      rewrite mem_write_Some by (cbn [length]; lia).
      cbn [length app]. rewrite Nat.add_0_r. by rewrite take_drop. }
    change (Z.of_nat 0) with 0. rewrite Z.mul_0_r, !Z.add_0_r, Z.sub_0_r.
    rewrite app_nil_r. cbn [Nat.add].
    rewrite sink_at_same, set_bufsink_same.
    destruct (Z.ltb_spec 0 rs) as [Hpos|Hz]; [done|].
    assert (rs = 0) as -> by lia. by destruct f. }
  cbn [expected_blocks] in Hexp.
  destruct (chunk_map_ s !! ck) as [op|] eqn:Hmap; [|done].
  cbn [mbind option_bind] in Hexp.
  destruct (op_block s op) as [d|] eqn:Hblk; [|done].
  cbn [mbind option_bind] in Hexp.
  destruct (expected_blocks s (ck + 1) n) as [rest|] eqn:Hrest; [|done].
  injection Hexp as <-.
  cbn [one_io] in Hio. apply andb_true_iff in Hio as [Hio Hio_rest].
  apply andb_true_iff in Hio as [Hlen Hlast]. apply Z.eqb_eq in Hlen.
  pose proof Hroom as (Hsz & Hoff & Hfit & Hmax).
  assert (Hroom1 : sink_has_room (bufsink_ s) BLOCK_SIZE).
  { unfold sink_has_room, BLOCK_SIZE in *. split; [done|]. split; [done|].
    split; [lia|done]. }
  cbn [Nat.add].
  destruct (ReadData_loop_step (n + f) s ck rs log op d ltac:(unfold BLOCK_SIZE in *; lia)
              Hck0 ltac:(lia) Hmap Hblk Hlen Hroom1) as (buf1 & Hw1 & Hstep).
  rewrite Hstep. clear Hstep. cbn zeta.
  set (s1 := set_bufsink s (sink_at (bufsink_ s)
               (buffer_offset_ (bufsink_ s) + BLOCK_SIZE) buf1)).
  pose proof (mem_write_length _ _ _ _ Hw1) as Hl1.
  assert (Hroom' : sink_has_room (bufsink_ s1) (BLOCK_SIZE * Z.of_nat n)).
  { unfold sink_has_room, s1, sink_at, BLOCK_SIZE in *.
    cbn [set_bufsink bufsink_ buffer_size_ buffer_offset_ buffer_].
    rewrite Hl1. split; [done|]. split; [lia|]. split; [lia|done]. }
  assert (Hexp' : expected_blocks s1 (ck + 1) n = Some rest).
  { unfold s1. by rewrite expected_blocks_sink. }
  assert (Hmore : (BLOCK_SIZE * Z.of_nat n <? rs - BLOCK_SIZE)
                  = (BLOCK_SIZE * Z.of_nat (S n) <? rs)).
  { unfold BLOCK_SIZE.
    destruct (Z.ltb_spec (4096 * Z.of_nat n) (rs - 4096));
      destruct (Z.ltb_spec (4096 * Z.of_nat (S n)) rs); try done; lia. }
  assert (Hio' : one_io (exceptions_per_area_ s1) (ck + 1)
                   (BLOCK_SIZE * Z.of_nat n <? rs - BLOCK_SIZE) rest = true).
  { by rewrite Hmore. }
  destruct (IH s1 (ck + 1) (rs - BLOCK_SIZE) (log ++ [op]) rest f Hexp' Hio'
              ltac:(unfold BLOCK_SIZE in *; lia) Hroom' ltac:(lia) ltac:(lia))
    as (buf2 & Hw2 & Hloop).
  assert (Hw : mem_write (buffer_ (bufsink_ s))
                 (sizeof_dm_user_header + buffer_offset_ (bufsink_ s))
                 (d ++ concat rest.*2) = Some buf2).
  { apply (mem_write_app _ _ _ _ buf1); [done|].
    rewrite Hlen. unfold s1, sink_at in Hw2.
    cbn [set_bufsink bufsink_ buffer_ buffer_offset_] in Hw2.
    by rewrite Z.add_assoc in Hw2. }
  exists buf2. cbn [fmap list_fmap concat fst snd]. split; [exact Hw|].
  assert (Hs2 : ∀ off, set_bufsink s1 (sink_at (bufsink_ s1) off buf2)
                       = set_bufsink s (sink_at (bufsink_ s) off buf2)) by done.
  rewrite Hmore in Hloop.
  replace (rs - BLOCK_SIZE - BLOCK_SIZE * Z.of_nat n)
    with (rs - BLOCK_SIZE * Z.of_nat (S n)) in Hloop by lia.
  replace (ck + 1 + Z.of_nat n) with (ck + Z.of_nat (S n)) in Hloop by lia.
  rewrite !Hs2 in Hloop.
  replace (buffer_offset_ (bufsink_ s1) + BLOCK_SIZE * Z.of_nat n)
    with (buffer_offset_ (bufsink_ s) + BLOCK_SIZE * Z.of_nat (S n)) in Hloop
    by (unfold s1, sink_at; cbn [set_bufsink bufsink_ buffer_offset_]; lia).
  rewrite <- app_assoc in Hloop. cbn [app] in Hloop.
  (* the checks of this pass *)
  apply orb_true_iff in Hlast as [Hlast|Hlast].
  - apply andb_true_iff in Hlast as [Hnil Hnomore].
    apply bool_decide_eq_true in Hnil. subst rest.
    apply negb_true_iff in Hnomore.
    apply expected_blocks_length in Hexp'. cbn [length] in Hexp'. subst n.
    assert (Hrs1 : rs = BLOCK_SIZE).
    { apply Z.ltb_ge in Hnomore. unfold BLOCK_SIZE in *. lia. }
    rewrite Hnomore in Hloop |- *. subst rs.
    rewrite Z.sub_diag, Z.eqb_refl, orb_true_r.
    cbn [CHECK mbind outcome_bind].
    destruct (IsChunkIdMetadata _ _).
    + cbn [fmap list_fmap concat] in Hw, Hw2 |- *.
      unfold s1, sink_at in Hw2.
      cbn [set_bufsink bufsink_ buffer_ buffer_offset_] in Hw2.
      apply mem_write_inv in Hw2 as (_ & _ & ->).
      cbn [length app]. rewrite Nat.add_0_r, take_drop. done.
    + exact Hloop.
  - apply andb_true_iff in Hlast as [Hcopy Hmeta].
    apply negb_true_iff in Hmeta. rewrite Hcopy, Hmeta.
    cbn [orb CHECK mbind outcome_bind]. exact Hloop.
Qed.

Lemma ReadData_fuel (n : nat) : Z.to_nat (BLOCK_SIZE * Z.of_nat n / BLOCK_SIZE) = n.
Proof. rewrite Z.mul_comm, Z.div_mul by done. apply Nat2Z.id. Qed.

(** X14: a read of [n] blocks from [chunk] on whose chunks are all
    mapped, whose blocks can all be produced, and in which only the
    last block may belong to a Copy or end at a metadata chunk id,
    succeeds: [ReadData] returns [true], the sink holds the [n] blocks
    one behind the other from the payload pointer on (the rest of the
    buffer is untouched, the contents being those of one store of the
    concatenated blocks), and the offset of the sink is back at 0. *)
Theorem ReadData_blocks s chunk (n : nat) ods :
  expected_blocks s chunk n = Some ods →
  one_io (exceptions_per_area_ s) chunk false ods = true →
  sink_has_room (bufsink_ s) (BLOCK_SIZE * Z.of_nat n) →
  0 <= chunk → chunk + Z.of_nat n < 2 ^ 64 →
  let payload := sizeof_dm_user_header + buffer_offset_ (bufsink_ s) in
  ∃ buf, mem_write (buffer_ (bufsink_ s)) payload (concat ods.*2) = Some buf
    ∧ ReadData s chunk (BLOCK_SIZE * Z.of_nat n)
      = Ok (true, set_bufsink s (sink_at (bufsink_ s) 0 buf))
    ∧ mem_read buf payload (Z.of_nat (length (concat ods.*2)))
      = Some (concat ods.*2).
Proof.
  intros Hexp Hio Hroom Hck0 Hck payload.
  pose proof (ReadData_loop_run n s chunk (BLOCK_SIZE * Z.of_nat n) [] ods 0 Hexp)
    as Hrun.
  rewrite Z.ltb_irrefl in Hrun.
  destruct (Hrun Hio ltac:(lia) Hroom Hck0 Hck) as (buf & Hw & Hloop).
  exists buf. split; [done|]. split; [|by eapply mem_write_read].
  unfold ReadData, ReadData_log. rewrite land_block_mask.
  cbn [Z.eqb CHECK mbind outcome_bind]. rewrite ReadData_fuel.
  rewrite Nat.add_0_r in Hloop. by rewrite Hloop.
Qed.

(** X15: when the first [k] blocks of a longer read can be served and
    the operation mapped at the next chunk cannot produce its block
    (the reader or the base device fails, or the type of the
    operation is unknown), [ReadData] returns [false] at once: the
    [k] blocks are in the sink, and the offset of the sink is left
    at [k * BLOCK_SIZE]; the reset at the end of the function is not
    reached. *)
Theorem ReadData_failed_block s chunk (k : nat) ods bad (j : nat) :
  expected_blocks s chunk k = Some ods →
  one_io (exceptions_per_area_ s) chunk true ods = true →
  chunk_map_ s !! (chunk + Z.of_nat k) = Some bad →
  op_block s bad = None →
  sink_has_room (bufsink_ s) (BLOCK_SIZE * Z.of_nat (S k)) →
  0 <= chunk → chunk + Z.of_nat k < 2 ^ 64 →
  let payload := sizeof_dm_user_header + buffer_offset_ (bufsink_ s) in
  ∃ buf, mem_write (buffer_ (bufsink_ s)) payload (concat ods.*2) = Some buf
    ∧ ReadData s chunk (BLOCK_SIZE * Z.of_nat (S k + j))
      = Ok (false, set_bufsink s (sink_at (bufsink_ s)
                     (buffer_offset_ (bufsink_ s) + BLOCK_SIZE * Z.of_nat k) buf)).
Proof.
  intros Hexp Hio Hbad Hblk Hroom Hck0 Hck payload.
  pose proof Hroom as (Hsz & Hoff & Hfit & Hmax).
  assert (Hroomk : sink_has_room (bufsink_ s) (BLOCK_SIZE * Z.of_nat k)).
  { unfold sink_has_room, BLOCK_SIZE in *. split; [done|]. split; [done|].
    split; [lia|done]. }
  pose proof (ReadData_loop_run k s chunk (BLOCK_SIZE * Z.of_nat (S k + j)) []
                ods (S j) Hexp) as Hrun.
  assert (Hmore : (BLOCK_SIZE * Z.of_nat k <? BLOCK_SIZE * Z.of_nat (S k + j))
                  = true) by (apply Z.ltb_lt; unfold BLOCK_SIZE; lia).
  rewrite Hmore in Hrun.
  destruct (Hrun Hio ltac:(unfold BLOCK_SIZE; lia) Hroomk Hck0 Hck)
    as (buf & Hw & Hloop).
  exists buf. split; [done|].
  unfold ReadData, ReadData_log. rewrite land_block_mask.
  cbn [Z.eqb CHECK mbind outcome_bind]. rewrite ReadData_fuel.
  replace (S k + j)%nat with (k + S j)%nat at 1 by lia. rewrite Hloop.
  set (sk := set_bufsink s _).
  cbn [ReadData_loop].
  rewrite Z.gtb_ltb, (proj2 (Z.ltb_lt _ _)) by (unfold BLOCK_SIZE; lia).
  cbn [negb]. change (chunk_map_ sk) with (chunk_map_ s). rewrite Hbad.
  rewrite dispatch_op_fail; [done|done|].
  pose proof (mem_write_length _ _ _ _ Hw) as Hl.
  unfold sk, sink_has_room, sink_at, BLOCK_SIZE in *.
  cbn [set_bufsink bufsink_ buffer_size_ buffer_offset_ buffer_].
  rewrite Hl. split; [done|]. split; [lia|]. split; [lia|done].
Qed.

(** X16: a read that runs past the mapped chunks aborts the daemon:
    when the first [k] blocks of a longer read can be served and the
    next chunk id has no entry in the ChunkMap, [ReadData] fails
    [CHECK(cow_op != nullptr)]; the request is not answered with an
    error. *)
Theorem ReadData_unmapped_chunk s chunk (k : nat) ods (j : nat) :
  expected_blocks s chunk k = Some ods →
  one_io (exceptions_per_area_ s) chunk true ods = true →
  chunk_map_ s !! (chunk + Z.of_nat k) = None →
  sink_has_room (bufsink_ s) (BLOCK_SIZE * Z.of_nat k) →
  0 <= chunk → chunk + Z.of_nat k < 2 ^ 64 →
  ReadData s chunk (BLOCK_SIZE * Z.of_nat (S k + j))
  = CheckFailed CHECK_cow_op_nonnull.
Proof.
  intros Hexp Hio Hbad Hroom Hck0 Hck.
  pose proof (ReadData_loop_run k s chunk (BLOCK_SIZE * Z.of_nat (S k + j)) []
                ods (S j) Hexp) as Hrun.
  assert (Hmore : (BLOCK_SIZE * Z.of_nat k <? BLOCK_SIZE * Z.of_nat (S k + j))
                  = true) by (apply Z.ltb_lt; unfold BLOCK_SIZE; lia).
  rewrite Hmore in Hrun.
  destruct (Hrun Hio ltac:(unfold BLOCK_SIZE; lia) Hroom Hck0 Hck)
    as (buf & Hw & Hloop).
  unfold ReadData, ReadData_log. rewrite land_block_mask.
  cbn [Z.eqb CHECK mbind outcome_bind]. rewrite ReadData_fuel.
  replace (S k + j)%nat with (k + S j)%nat at 1 by lia. rewrite Hloop.
  set (sk := set_bufsink s _).
  cbn [ReadData_loop].
  rewrite Z.gtb_ltb, (proj2 (Z.ltb_lt _ _)) by (unfold BLOCK_SIZE; lia).
  cbn [negb]. change (chunk_map_ sk) with (chunk_map_ s). by rewrite Hbad.
Qed.
End read_blocks.

Lemma X14_witness :
  let s := mapped_device [(2, zero_op 5); (3, replace_op 6)] in
  let ods := [(zero_op 5, zeros BLOCK_SIZE);
              (replace_op 6, replicate (Z.to_nat BLOCK_SIZE) 0xAB)] in
  let payload := sizeof_dm_user_header + buffer_offset_ (bufsink_ s) in
  ∃ buf, mem_write (buffer_ (bufsink_ s)) payload (concat ods.*2) = Some buf
    ∧ ReadData s 2 (BLOCK_SIZE * Z.of_nat 2)
      = Ok (true, set_bufsink s (sink_at (bufsink_ s) 0 buf))
    ∧ mem_read buf payload (Z.of_nat (length (concat ods.*2)))
      = Some (concat ods.*2).
Proof.
  apply (ReadData_blocks (mapped_device [(2, zero_op 5); (3, replace_op 6)]) 2 2).
  - vm_compute. reflexivity.
  - vm_compute. reflexivity.
  - split; [|split; [|split]]; by vm_compute.
  - lia.
  - by vm_compute.
Defined.

Lemma X15_witness :
  let s := mapped_device [(2, zero_op 5); (3, unreadable_op 6)] in
  let ods := [(zero_op 5, zeros BLOCK_SIZE)] in
  let payload := sizeof_dm_user_header + buffer_offset_ (bufsink_ s) in
  ∃ buf, mem_write (buffer_ (bufsink_ s)) payload (concat ods.*2) = Some buf
    ∧ ReadData s 2 (BLOCK_SIZE * Z.of_nat (2 + 0))
      = Ok (false, set_bufsink s (sink_at (bufsink_ s)
                     (buffer_offset_ (bufsink_ s) + BLOCK_SIZE * Z.of_nat 1) buf)).
Proof.
  apply (ReadData_failed_block
           (mapped_device [(2, zero_op 5); (3, unreadable_op 6)]) 2 1
           [(zero_op 5, zeros BLOCK_SIZE)] (unreadable_op 6) 0).
  - vm_compute. reflexivity.
  - vm_compute. reflexivity.
  - vm_compute. reflexivity.
  - vm_compute. reflexivity.
  - split; [|split; [|split]]; by vm_compute.
  - lia.
  - by vm_compute.
Defined.

Lemma X16_witness :
  ReadData (mapped_device [(2, zero_op 5)]) 2 (BLOCK_SIZE * Z.of_nat (2 + 0))
  = CheckFailed CHECK_cow_op_nonnull.
Proof.
  apply (ReadData_unmapped_chunk (mapped_device [(2, zero_op 5)]) 2 1
           [(zero_op 5, zeros BLOCK_SIZE)] 0).
  - vm_compute. reflexivity.
  - vm_compute. reflexivity.
  - vm_compute. reflexivity.
  - split; [|split; [|split]]; by vm_compute.
  - lia.
  - by vm_compute.
Defined.

(** * What a request leaves alone *)

Ltac ok_step H :=
  match type of H with
  | mbind _ ?m = Ok _ =>
      let E := fresh "E" in
      destruct m eqn:E; cbn [mbind outcome_bind] in H; [|discriminate H..]
  end.

Tactic Notation "ok_bind" hyp(H) "as" ident(x) :=
  match type of H with
  | mbind _ ?m = Ok _ =>
      let E := fresh "E" in
      destruct m as [x| |] eqn:E; cbn [mbind outcome_bind] in H;
      [|discriminate H..]
  end.

Section frames.
Context `{CowReaderI R, CowWriterI W}.
Implicit Types s : Snapuserd R W.

Lemma only_sink_refl s : only_sink s s.
Proof. split; [by destruct s|done]. Qed.

Lemma only_sink_trans s1 s2 s3 :
  only_sink s1 s2 → only_sink s2 s3 → only_sink s1 s3.
Proof.
  intros [E1 Z1] [E2 Z2]. split; [|congruence].
  rewrite E2 at 1. rewrite E1. done.
Qed.

Lemma only_sink_set s b :
  buffer_size_ b = buffer_size_ (bufsink_ s) → only_sink s (set_bufsink s b).
Proof. intros Hb. by split. Qed.

Lemma only_sink_set_trans s s' b :
  only_sink s s' → buffer_size_ b = buffer_size_ (bufsink_ s') →
  only_sink s (set_bufsink s' b).
Proof.
  intros Hs Hb. eapply only_sink_trans; [exact Hs|by apply only_sink_set].
Qed.

Lemma sink_write_only_sink s p data b :
  sink_write (bufsink_ s) p data = Ok b → only_sink s (set_bufsink s b).
Proof.
  intros Hw. apply only_sink_set. by apply sink_write_Ok in Hw as [? _].
Qed.

Lemma set_header_type_only_sink s header v s' :
  set_header_type s header v = Ok s' → only_sink s s'.
Proof.
  unfold set_header_type, sink_store. intros Hs. ok_step Hs.
  injection Hs as <-. by eapply sink_write_only_sink.
Qed.

Lemma ConstructKernelCowHeader_only_sink s s' :
  ConstructKernelCowHeader s = Ok s' → only_sink s s'.
Proof.
  unfold ConstructKernelCowHeader.
  destruct (GetPayloadBuffer _ _) as [p|]; [|done]. intros Hs.
  ok_step Hs. ok_step Hs. ok_step Hs. ok_step Hs. ok_step Hs.
  injection Hs as <-. apply only_sink_set.
  repeat match goal with
         | Hw : sink_write _ _ _ = Ok _ |- _ =>
             apply sink_write_Ok in Hw as [? _]
         end.
  congruence.
Qed.

Lemma dispatch_op_only_sink s op ret s' :
  dispatch_op s op = Ok (ret, s') → only_sink s s'.
Proof.
  unfold dispatch_op, ProcessReplaceOp, ProcessZeroOp, ProcessCopyOp,
    ReadData_into_sink, GetBuffer.
  destruct (type op); try (intros [= <- <-]; apply only_sink_refl).
  - destruct (GetPayloadBuffer _ _) as [p|]; [|done].
    destruct (backing_store_fd_ s _) as [data|];
      [|intros [= <- <-]; apply only_sink_refl].
    destruct (_ =? _); [|intros [= <- <-]; apply only_sink_refl].
    intros Hs. ok_step Hs. injection Hs as <- <-.
    by eapply sink_write_only_sink.
  - destruct (CowReader_ReadData _ _) as [data|]; cbn [mbind outcome_bind];
      [|intros [= <- <-]; apply only_sink_refl].
    destruct (GetPayloadBuffer _ _) as [p|]; cbn [mbind outcome_bind];
      [|intros [= <- <-]; apply only_sink_refl].
    destruct (sink_write _ _ _) eqn:E; cbn [mbind outcome_bind negb]; [|done..].
    intros [= <- <-]. by eapply sink_write_only_sink.
  - destruct (GetPayloadBuffer _ _) as [p|]; [|done].
    intros Hs. ok_step Hs. injection Hs as <- <-.
    by eapply sink_write_only_sink.
Qed.

Lemma ReadData_loop_only_sink blocks s ck rs log ret s' log' :
  ReadData_loop blocks s ck rs log = Ok (ret, s', log') → only_sink s s'.
Proof.
  revert s ck rs log. induction blocks as [|blocks IH]; intros s ck rs log;
    cbn [ReadData_loop].
  { destruct (negb _); intros [= <- <- <-]; by apply only_sink_set. }
  destruct (negb _); [intros [= <- <- <-]; by apply only_sink_set|].
  destruct (chunk_map_ s !! ck) as [op|]; [|done].
  destruct (dispatch_op s op) as [[r s1]| |] eqn:Hd; [|done..].
  apply dispatch_op_only_sink in Hd.
  cbn [mbind outcome_bind]. destruct r; cbn [negb];
    [|by intros [= <- <- <-]].
  destruct (CHECK CHECK_copy_is_last _); [|done..].
  cbn [mbind outcome_bind].
  destruct (_ =? NUM_SNAPSHOT_HDR_CHUNKS).
  - destruct (CHECK _ _); [|done..]. cbn [mbind outcome_bind].
    intros [= <- <- <-].
    eapply only_sink_trans; [exact Hd|]. by split.
  - intros Hrec%IH. eapply only_sink_trans; [|exact Hrec].
    by apply only_sink_set_trans.
Qed.

Lemma ReadData_only_sink s chunk size ret s' :
  ReadData s chunk size = Ok (ret, s') → only_sink s s'.
Proof.
  unfold ReadData, ReadData_log.
  destruct (CHECK _ _); [|done..]. cbn [mbind outcome_bind].
  destruct (ReadData_loop _ _ _ _ _) as [[[r s1] l]| |] eqn:Hl; [|done..].
  cbn [mbind outcome_bind]. intros [= <- <-].
  by eapply ReadData_loop_only_sink.
Qed.

Lemma ReadDiskExceptions_only_sink s chunk read_size ret s' :
  ReadDiskExceptions s chunk read_size = Ok (ret, s') → only_sink s s'.
Proof.
  unfold ReadDiskExceptions, ZerofillDiskExceptions.
  destruct (_ <? _).
  - destruct (_ >? _); [intros [= <- <-]; apply only_sink_refl|].
    destruct (GetPayloadBuffer _ _) as [p|]; [|done].
    destruct (vec_ s !! _) as [area|]; [|done]. cbn [lift_mem mbind outcome_bind].
    destruct (mem_read _ _ _) as [data|]; [|done].
    cbn [lift_mem mbind outcome_bind].
    intros Hs. ok_step Hs. injection Hs as <- <-.
    by eapply sink_write_only_sink.
  - destruct (_ >? _); [intros [= <- <-]; apply only_sink_refl|].
    destruct (GetPayloadBuffer _ _) as [p|]; [|done].
    intros Hs. ok_step Hs. injection Hs as <- <-.
    by eapply sink_write_only_sink.
Qed.

Lemma Run_read_serve_only_sink s header read_size offset s' :
  Run_read_serve s header read_size offset = Ok s' → only_sink s s'.
Proof.
  unfold Run_read_serve. intros Hs.
  destruct (set_header_type s header DM_USER_RESP_SUCCESS) as [s1| |] eqn:H1;
    [|done..].
  apply set_header_type_only_sink in H1. cbn [mbind outcome_bind] in Hs.
  ok_step Hs. destruct (_ =? 0).
  - ok_step Hs. ok_step Hs. apply ConstructKernelCowHeader_only_sink in Hs.
    by eapply only_sink_trans.
  - destruct (chunk_map_ s1 !! _).
    + destruct (ReadData _ _ _) as [[ok s2]| |] eqn:H2; [|done..].
      apply ReadData_only_sink in H2. cbn [mbind outcome_bind] in Hs.
      destruct ok; cbn [negb] in Hs.
      * injection Hs as <-. by eapply only_sink_trans.
      * apply set_header_type_only_sink in Hs.
        eapply only_sink_trans; [exact H1|]. by eapply only_sink_trans.
    + destruct (ReadDiskExceptions _ _ _) as [[ok s2]| |] eqn:H2; [|done..].
      apply ReadDiskExceptions_only_sink in H2. cbn [mbind outcome_bind] in Hs.
      destruct ok; cbn [negb] in Hs.
      * injection Hs as <-. by eapply only_sink_trans.
      * apply set_header_type_only_sink in Hs.
        eapply only_sink_trans; [exact H1|]. by eapply only_sink_trans.
Qed.

(** ** The control device *)

Lemma ctrl_write_inv c frame ok c' :
  ctrl_write c frame = (ok, c') →
  ctrl_in c' = ctrl_in c
  ∧ ctrl_wr_fail c' = tail (ctrl_wr_fail c)
  ∧ (if ok then ctrl_out c' = ctrl_out c ++ [frame]
     else ctrl_out c' = ctrl_out c ∧ head (ctrl_wr_fail c) = Some true).
Proof.
  unfold ctrl_write. destruct (ctrl_wr_fail c) as [|[] rest];
    intros [= <- <-]; cbn; done.
Qed.

Lemma tail_subseteq {A} (l : list A) : tail l ⊆ l.
Proof. destruct l; [done|]. cbn. set_solver. Qed.

Lemma only_io_refl s : only_io s s.
Proof. split; [by destruct s|done]. Qed.

Lemma only_io_trans s1 s2 s3 : only_io s1 s2 → only_io s2 s3 → only_io s1 s3.
Proof.
  intros (E1 & Z1 & F1) (E2 & Z2 & F2). split; [|split; [congruence|set_solver]].
  rewrite E2 at 1. rewrite E1. done.
Qed.

Lemma only_sink_io s s' : only_sink s s' → only_io s s'.
Proof.
  intros [E Z]. split; [|split; [done|]].
  - rewrite E at 1. rewrite E. done.
  - rewrite E. done.
Qed.

Lemma WriteDmUserPayload_inv s size ok s' :
  WriteDmUserPayload s size = Ok (ok, s') →
  ∃ frame,
    mem_read (buffer_ (bufsink_ s)) 0 (sizeof_dm_user_header + size) = Some frame
    ∧ ctrl_write (ctrl_fd_ s) frame = (ok, ctrl_fd_ s')
    ∧ s' = set_ctrl s (ctrl_fd_ s').
Proof.
  unfold WriteDmUserPayload.
  destruct (mem_read _ _ _) as [frame|]; [|done].
  cbn [lift_mem mbind outcome_bind].
  destruct (ctrl_write _ _) as [o c] eqn:Hc. intros [= <- <-].
  by exists frame.
Qed.

Lemma WriteDmUserPayload_only_io s size ok s' :
  WriteDmUserPayload s size = Ok (ok, s') →
  only_io s s'
  ∧ (ok = false → head (ctrl_wr_fail (ctrl_fd_ s)) = Some true).
Proof.
  intros (frame & _ & Hc & E)%WriteDmUserPayload_inv.
  apply ctrl_write_inv in Hc as (_ & Hf & Hout).
  split.
  - split; [|split].
    + rewrite E at 1. rewrite E. done.
    + rewrite E. done.
    + rewrite Hf. apply tail_subseteq.
  - intros ->. by destruct Hout.
Qed.

Lemma head_elem_of {A} (l : list A) x : head l = Some x → x ∈ l.
Proof. destruct l; [done|]. intros [= ->]. set_solver. Qed.

(** A read request changes the sink and the control device only; when
    it returns [false], a write to the control device has failed. *)
Lemma Run_read_loop_only_io fuel s header remaining offset ok s' :
  Run_read_loop fuel s header remaining offset = Ok (ok, s') →
  only_io s s' ∧ (ok = false → true ∈ ctrl_wr_fail (ctrl_fd_ s)).
Proof.
  revert s remaining offset.
  induction fuel as [|fuel IH]; intros s remaining offset;
    cbn [Run_read_loop].
  { intros [= <- <-]. split; [apply only_io_refl|done]. }
  intros Hs.
  destruct (Run_read_serve _ _ _ _) as [s1| |] eqn:H1; [|done..].
  apply Run_read_serve_only_sink, only_sink_io in H1.
  cbn [mbind outcome_bind] in Hs.
  destruct (WriteDmUserPayload _ _) as [[o s2]| |] eqn:H2; [|done..].
  apply WriteDmUserPayload_only_io in H2 as [H2 Hfail].
  cbn [mbind outcome_bind] in Hs.
  pose proof (only_io_trans _ _ _ H1 H2) as H12.
  destruct H1 as (_ & _ & F1).
  destruct o; cbn [negb] in Hs.
  - destruct (_ =? 0).
    + injection Hs as <- <-. done.
    + apply IH in Hs as [H3 Hf3]. split; [by eapply only_io_trans|].
      intros Hok. specialize (Hf3 Hok). destruct H12 as (_ & _ & F12).
      by apply F12.
  - injection Hs as <- <-. split; [done|]. intros _.
    specialize (Hfail eq_refl). apply head_elem_of in Hfail. by apply F1.
Qed.

(** ** A merge-complete write *)

Lemma GetNumberOfMergedOps_loop_length fuel epa merged area off u m tr tr' m' area' :
  GetNumberOfMergedOps_loop fuel epa merged area off u m tr
  = (tr', Ok (m', area')) →
  length area' = length area.
Proof.
  revert area off m tr.
  induction fuel as [|fuel IH]; intros area off m tr;
    cbn [GetNumberOfMergedOps_loop].
  { by destruct (negb _); intros [= <- <- <-]. }
  destruct (negb _); [by intros [= <- <- <-]|].
  destruct (area_load merged _) as [mde|]; [|done].
  destruct (_ || _); [done|].
  destruct (area_load area _) as [cde|]; [|done].
  destruct (negb (new_chunk cde =? 0)).
  - destruct (area_store area _ _) as [area1|] eqn:Hstore; [|done].
    apply area_store_inv in Hstore as (j & _ & _ & ->).
    intros Hrec%IH. by rewrite Hrec, length_insert.
  - destruct (old_chunk cde =? 0); [|by intros [= <- <- <-]].
    destruct (new_chunk cde =? 0); [|done]. by intros [= <- <- <-].
Qed.

(** [ProcessMergeComplete] rewrites one area in place and moves the
    merge state; the sink and the control device are not touched. *)
Lemma ProcessMergeComplete_geometry s chunk buffer ok s' :
  ProcessMergeComplete s chunk buffer = Ok (ok, s') →
  same_geometry s s' ∧ bufsink_ s' = bufsink_ s ∧ ctrl_fd_ s' = ctrl_fd_ s.
Proof.
  unfold ProcessMergeComplete.
  set (epa := exceptions_per_area_ s).
  set (idx := Z.to_nat (wrap64 (quot (lldiv (to_sll chunk) (stride_of epa))))).
  destruct (GetHeader (reader_ s)) as [header|];
    [|intros [= <- <-]; by repeat split].
  destruct (_ <? _); [|done]. cbn [CHECK mbind outcome_bind].
  destruct (vec_ s !! idx) as [area|] eqn:Harea; [|done].
  cbn [lift_mem mbind outcome_bind].
  destruct ((GetMergeStartOffset epa buffer area).2)
    as [[off un]| |] eqn:HA; [|done..].
  cbn [mbind outcome_bind].
  destruct ((GetNumberOfMergedOps epa buffer area _ _).2)
    as [[m area']| |] eqn:HB; [|done..].
  cbn [mbind outcome_bind].
  destruct (CHECK _ _); [|done..]. cbn [mbind outcome_bind].
  unfold GetNumberOfMergedOps in HB.
  destruct (GetNumberOfMergedOps_loop _ _ _ _ _ _ _ _) as [tr r] eqn:Hloop.
  cbn [snd] in HB. subst r.
  apply GetNumberOfMergedOps_loop_length in Hloop.
  assert (Hv : length <$> <[idx := area']> (vec_ s) = length <$> vec_ s).
  { rewrite list_fmap_insert, Hloop. apply list_insert_id.
    by rewrite list_lookup_fmap, Harea. }
  destruct (AdvanceMergedOps _ _) as [[o iter]| |]; [|done..].
  cbn [mbind outcome_bind]. destruct o; cbn [negb].
  - destruct (CommitMerge _ _) as [committed w].
    destruct committed; cbn [negb]; intros [= <- <-]; by repeat split.
  - intros [= <- <-]. by repeat split.
Qed.

Lemma only_sink_geometry s s' : only_sink s s' → same_geometry s s'.
Proof. intros [E Z]. rewrite E. by repeat split. Qed.

Lemma only_io_geometry s s' : only_io s s' → same_geometry s s'.
Proof. intros (E & Z & _). rewrite E. by repeat split. Qed.

Lemma same_geometry_trans s1 s2 s3 :
  same_geometry s1 s2 → same_geometry s2 s3 → same_geometry s1 s3.
Proof.
  intros (A1 & A2 & A3 & A4 & A5 & A6 & A7) (B1 & B2 & B3 & B4 & B5 & B6 & B7).
  repeat split; congruence.
Qed.

Lemma ReadDmUserPayload_only_io s buffer size ok s' :
  ReadDmUserPayload s buffer size = Ok (ok, s') →
  only_io s s' ∧ ctrl_wr_fail (ctrl_fd_ s') = ctrl_wr_fail (ctrl_fd_ s).
Proof.
  unfold ReadDmUserPayload, ctrl_read.
  destruct (_ <? _); [intros [= <- <-]; split; [apply only_io_refl|done]|].
  intros Hs. ok_step Hs. injection Hs as <- <-.
  apply sink_write_Ok in E as [Hz _]. by repeat split.
Qed.

(** The write path keeps the geometry of the device; when it returns
    [false], the write of the reply has failed. *)
Lemma Run_write_geometry s header ok s' :
  Run_write s header = Ok (ok, s') →
  same_geometry s s'
  ∧ ctrl_wr_fail (ctrl_fd_ s') ⊆ ctrl_wr_fail (ctrl_fd_ s)
  ∧ (ok = false → true ∈ ctrl_wr_fail (ctrl_fd_ s)).
Proof.
  unfold Run_write. intros Hs. ok_bind Hs as sector.
  destruct (_ =? 0).
  - ok_step Hs. ok_step Hs.
    destruct (set_header_type _ _ _) as [s1| |] eqn:H1; [|done..].
    apply set_header_type_only_sink, only_sink_io in H1.
    cbn [mbind outcome_bind] in Hs.
    apply WriteDmUserPayload_only_io in Hs as [H2 Hfail].
    pose proof (only_io_trans _ _ _ H1 H2) as H12.
    split; [by apply only_io_geometry|]. split; [by destruct H12 as (_ & _ & ?)|].
    intros Hok. specialize (Hfail Hok). apply head_elem_of in Hfail.
    destruct H1 as (_ & _ & F1). by apply F1.
  - ok_step Hs. ok_step Hs. ok_step Hs. ok_step Hs.
    destruct (GetPayloadBuffer _ _) as [buffer|]; [|done].
    destruct (set_header_type _ _ _) as [s1| |] eqn:H1; [|done..].
    apply set_header_type_only_sink, only_sink_io in H1.
    cbn [mbind outcome_bind] in Hs.
    destruct (ReadDmUserPayload _ _ _) as [[o s2]| |] eqn:H2; [|done..].
    apply ReadDmUserPayload_only_io in H2 as [H2 F2].
    cbn [mbind outcome_bind] in Hs.
    pose proof (only_io_trans _ _ _ H1 H2) as H12. clear H1 H2.
    assert (∃ s3, only_io s s3
              ∧ (sink_load (bufsink_ s3) (header + hdr_type) 4 ≫= λ ty,
                 (if ty =? DM_USER_RESP_SUCCESS then
                    '(ok, s) ← ProcessMergeComplete s3 (SectorToChunk sector)
                                 (exceptions_at s3 buffer);
                    if negb ok then set_header_type s header DM_USER_RESP_ERROR
                    else Ok s
                  else Ok s3) ≫= λ s, WriteDmUserPayload s 0) = Ok (ok, s'))
      as (s3 & H3 & Hs3).
    { destruct o; cbn [negb] in Hs.
      - cbn [mbind outcome_bind] in Hs. by exists s2.
      - destruct (set_header_type s2 _ _) as [s3| |] eqn:H3; [|done..].
        apply set_header_type_only_sink, only_sink_io in H3.
        cbn [mbind outcome_bind] in Hs. exists s3.
        split; [by eapply only_io_trans|done]. }
    clear Hs H12. ok_step Hs3.
    assert (∃ s4, same_geometry s s4
              ∧ ctrl_wr_fail (ctrl_fd_ s4) ⊆ ctrl_wr_fail (ctrl_fd_ s)
              ∧ WriteDmUserPayload s4 0 = Ok (ok, s')) as (s4 & G4 & F4 & Hs4).
    { destruct (_ =? DM_USER_RESP_SUCCESS).
      - destruct (ProcessMergeComplete _ _ _) as [[o1 s4]| |] eqn:H4; [|done..].
        apply ProcessMergeComplete_geometry in H4 as (G4 & B4 & C4).
        cbn [mbind outcome_bind] in Hs3.
        pose proof (same_geometry_trans _ _ _ (only_io_geometry _ _ H3) G4) as G.
        assert (F : ctrl_wr_fail (ctrl_fd_ s4) ⊆ ctrl_wr_fail (ctrl_fd_ s)).
        { rewrite C4. by destruct H3 as (_ & _ & ?). }
        destruct o1; cbn [negb] in Hs3.
        + cbn [mbind outcome_bind] in Hs3. by exists s4.
        + destruct (set_header_type s4 _ _) as [s5| |] eqn:H5; [|done..].
          apply set_header_type_only_sink in H5.
          cbn [mbind outcome_bind] in Hs3. exists s5.
          split; [|split; [|done]].
          * eapply same_geometry_trans; [exact G|by apply only_sink_geometry].
          * destruct H5 as [E5 _]. rewrite E5. done.
      - cbn [mbind outcome_bind] in Hs3. exists s3.
        split; [by apply only_io_geometry|].
        split; [by destruct H3 as (_ & _ & ?)|done]. }
    apply WriteDmUserPayload_only_io in Hs4 as [H5 Hfail].
    split; [|split].
    + eapply same_geometry_trans; [exact G4|by apply only_io_geometry].
    + destruct H5 as (_ & _ & F5). intros x Hx. by apply F4, F5.
    + intros Hok. specialize (Hfail Hok). apply head_elem_of in Hfail.
      by apply F4.
Qed.
End frames.

(** * One pass of the request loop *)

Section run.
Context `{CowReaderI R, CowWriterI W}.
Implicit Types s : Snapuserd R W.

(** The state in which the request is dispatched: the sink is cleared
    and holds the 32 bytes of the header. *)
Lemma Run_header s :
  sizeof_dm_user_header <= buffer_size_ (bufsink_ s) →
  sizeof_dm_user_header <= Z.of_nat (length (ctrl_in (ctrl_fd_ s))) →
  let bytes := take (Z.to_nat sizeof_dm_user_header) (ctrl_in (ctrl_fd_ s)) in
  let buf := bytes ++ zeros (buffer_size_ (bufsink_ s) - sizeof_dm_user_header) in
  ReadDmUserHeader (set_bufsink s (Clear (bufsink_ s)))
  = Ok (true, set_ctrl (set_bufsink s (sink_at (bufsink_ s) 0 buf))
                (ctrl_after_read (ctrl_fd_ s) sizeof_dm_user_header)).
Proof.
  intros Hsize Hin bytes buf.
  unfold ReadDmUserHeader, ctrl_read. cbn [set_bufsink ctrl_fd_ bufsink_].
  rewrite (proj2 (Z.ltb_ge _ _)) by lia.
  unfold sink_write, Clear. cbn [buffer_].
  assert (Hb : length bytes = Z.to_nat sizeof_dm_user_header).
  { unfold bytes. rewrite length_take. lia. }
  fold bytes.
  rewrite mem_write_Some
    by (rewrite ?zeros_length, ?Hb; unfold sizeof_dm_user_header in *; lia).
  change (Z.to_nat 0) with 0%nat. rewrite take_0. cbn [app Nat.add].
  rewrite Hb. subst buf. unfold zeros. rewrite drop_replicate.
  replace (Z.to_nat (buffer_size_ (bufsink_ s)) - Z.to_nat sizeof_dm_user_header)%nat
    with (Z.to_nat (buffer_size_ (bufsink_ s) - sizeof_dm_user_header))
    by (unfold sizeof_dm_user_header in *; lia).
  done.
Qed.

Lemma take_drop_take {A} (l : list A) (k n m : nat) :
  (k + n <= m)%nat → take n (drop k (take m l)) = take n (drop k l).
Proof.
  intros Hk. apply list_eq. intros i. rewrite !lookup_take.
  destruct (decide (i < n)%nat); [|done].
  rewrite !lookup_drop, lookup_take. by rewrite decide_True by lia.
Qed.

(** A field of the header in the sink is the field of the request. *)
Lemma header_field s (off n : Z) rest :
  sizeof_dm_user_header <= Z.of_nat (length (ctrl_in (ctrl_fd_ s))) →
  0 <= off → 0 <= n → off + n <= sizeof_dm_user_header →
  mem_read
    (take (Z.to_nat sizeof_dm_user_header) (ctrl_in (ctrl_fd_ s)) ++ rest) off n
  = Some (take (Z.to_nat n) (drop (Z.to_nat off) (ctrl_in (ctrl_fd_ s)))).
Proof.
  intros Hin Hoff Hn Hfit.
  rewrite mem_read_app_l by (rewrite ?length_take; lia).
  rewrite mem_read_Some by (rewrite ?length_take; lia).
  f_equal. apply take_drop_take. lia.
Qed.

(** The pass up to the dispatch on the request type: the sink is
    cleared and the header is read into it. *)
Lemma Run_prefix s ok s' :
  Run s = Ok (ok, s') →
  (ctrl_read (ctrl_fd_ s) sizeof_dm_user_header = None
   ∧ ok = false ∧ only_sink s s')
  ∨ ∃ s1 ty, only_io s s1
      ∧ ctrl_wr_fail (ctrl_fd_ s1) = ctrl_wr_fail (ctrl_fd_ s)
      ∧ (if ty =? DM_USER_REQ_MAP_READ then
           len ← sink_load (bufsink_ s1) (0 + hdr_len) 8;
           Run_read_loop (Z.to_nat (len / PAYLOAD_SIZE) + 1) s1 0 len 0
         else if ty =? DM_USER_REQ_MAP_WRITE then Run_write s1 0
         else Ok (true, s1)) = Ok (ok, s').
Proof.
  unfold Run. intros Hs. ok_step Hs.
  set (s0 := set_bufsink s (Clear (bufsink_ s))) in *.
  assert (H0s : only_sink s s0) by (by apply only_sink_set).
  unfold ReadDmUserHeader in Hs.
  change (ctrl_fd_ s0) with (ctrl_fd_ s) in Hs.
  destruct (ctrl_read (ctrl_fd_ s) sizeof_dm_user_header) as [[bytes c]|] eqn:Hr.
  2:{ cbn [mbind outcome_bind negb] in Hs. injection Hs as <- <-. by left. }
  destruct (sink_write _ _ _) as [b1| |] eqn:Hw; [|done..].
  cbn [mbind outcome_bind negb] in Hs.
  set (s1 := set_ctrl (set_bufsink s0 b1) c) in *.
  assert (Hc : ctrl_wr_fail c = ctrl_wr_fail (ctrl_fd_ s)).
  { unfold ctrl_read in Hr. destruct (_ <? _); [done|].
    by injection Hr as <- <-. }
  assert (H1s : only_io s s1).
  { apply sink_write_Ok in Hw as [Hz _].
    split; [done|]. split; [done|]. by rewrite <- Hc. }
  unfold GetHeaderPtr in E. destruct (CHECK _ _); [|done..].
  cbn [mbind outcome_bind] in E. injection E as <-.
  ok_bind Hs as ty. right. by exists s1, ty.
Qed.

(** X17: a pass of the request loop that returns, whatever the
    request and whether it is answered with success or with an error,
    leaves the ChunkMap, [exceptions_per_area_], [num_sectors_], the
    metadata flag, the base device and the size of the sink as they
    were, and neither adds nor removes an area nor changes the size
    of one. *)
Theorem Run_same_geometry s ok s' :
  Run s = Ok (ok, s') → same_geometry s s'.
Proof.
  intros [(_ & _ & Hs)|(s1 & ty & H1 & _ & Hs)]%Run_prefix.
  { by apply only_sink_geometry. }
  destruct (ty =? DM_USER_REQ_MAP_READ).
  - ok_step Hs. apply Run_read_loop_only_io in Hs as [H2 _].
    apply only_io_geometry. by eapply only_io_trans.
  - destruct (ty =? DM_USER_REQ_MAP_WRITE).
    + apply Run_write_geometry in Hs as (G & _).
      eapply same_geometry_trans; [by apply only_io_geometry|done].
    + injection Hs as <- <-. by apply only_io_geometry.
Qed.

End run.

Lemma X17_witness :
  same_geometry
    (small_device [replace_op 10; copy_op 20 30]
       (merge_request (zeros BLOCK_SIZE)) [])
    (after_run (small_device [replace_op 10; copy_op 20 30]
                  (merge_request (zeros BLOCK_SIZE)) [])).
Proof.
  apply (Run_same_geometry _ true). vm_compute. reflexivity.
Defined.


(** * The dispatch on the request type *)

Section dispatch.
Context `{CowReaderI R, CowWriterI W}.
Implicit Types s : Snapuserd R W.

Lemma request_field_load s (off n : Z) :
  sizeof_dm_user_header <= Z.of_nat (length (ctrl_in (ctrl_fd_ s))) →
  0 <= off → 0 <= n → off + n <= sizeof_dm_user_header →
  sink_load (bufsink_ (with_request s)) off n
  = Ok (request_field (ctrl_fd_ s) off n).
Proof.
  intros Hin Hoff Hn Hfit. unfold sink_load, with_request.
  cbn [set_ctrl set_bufsink bufsink_ sink_at buffer_].
  by rewrite header_field by done.
Qed.

(** [Run] up to the [switch]. *)
Lemma Run_dispatch s :
  sizeof_dm_user_header <= buffer_size_ (bufsink_ s) →
  sizeof_dm_user_header <= Z.of_nat (length (ctrl_in (ctrl_fd_ s))) →
  Run s
  = let ty := request_field (ctrl_fd_ s) hdr_type 4 in
    if ty =? DM_USER_REQ_MAP_READ then
      let len := request_field (ctrl_fd_ s) hdr_len 8 in
      Run_read_loop (Z.to_nat (len / PAYLOAD_SIZE) + 1) (with_request s) 0 len 0
    else if ty =? DM_USER_REQ_MAP_WRITE then Run_write (with_request s) 0
    else Ok (true, with_request s).
Proof.
  intros Hsize Hin. unfold Run, GetHeaderPtr.
  rewrite (proj2 (Z.leb_le _ _) Hsize). cbn [CHECK mbind outcome_bind].
  rewrite (Run_header s Hsize Hin). cbn [mbind outcome_bind negb].
  fold (with_request s).
  rewrite !request_field_load by done. cbn [mbind outcome_bind].
  by destruct (_ =? DM_USER_REQ_MAP_READ).
Qed.

Lemma with_request_only_io s :
  only_io s (with_request s)
  ∧ ctrl_wr_fail (ctrl_fd_ (with_request s)) = ctrl_wr_fail (ctrl_fd_ s).
Proof. by repeat split. Qed.

(** X19: only a write request changes more than the sink and the
    control device.  When the type field of the queued request header
    is not [DM_USER_REQ_MAP_WRITE] and the pass returns, the areas,
    the ChunkMap, the merge iterator, the reader, the writer and all
    the other members are as before; reads have no side effect on the
    metadata. *)
Theorem Run_read_only_io s ok s' :
  request_field (ctrl_fd_ s) hdr_type 4 ≠ DM_USER_REQ_MAP_WRITE →
  Run s = Ok (ok, s') →
  only_io s s'.
Proof.
  intros Hty Hs.
  destruct (Z.le_gt_cases sizeof_dm_user_header
              (Z.of_nat (length (ctrl_in (ctrl_fd_ s))))) as [Hin|Hin].
  - destruct (Z.le_gt_cases sizeof_dm_user_header (buffer_size_ (bufsink_ s)))
      as [Hsize|Hsize].
    2:{ unfold Run, GetHeaderPtr in Hs.
        by rewrite (proj2 (Z.leb_gt _ _) Hsize) in Hs. }
    rewrite (Run_dispatch s Hsize Hin) in Hs. cbn zeta in Hs.
    destruct (with_request_only_io s) as [H1 _].
    destruct (_ =? DM_USER_REQ_MAP_READ).
    + apply Run_read_loop_only_io in Hs as [H2 _]. by eapply only_io_trans.
    + rewrite (proj2 (Z.eqb_neq _ _) Hty) in Hs. by injection Hs as <- <-.
  - unfold Run, GetHeaderPtr in Hs.
    destruct (CHECK _ _); [|done..]. cbn [mbind outcome_bind] in Hs.
    unfold ReadDmUserHeader, ctrl_read in Hs.
    cbn [set_bufsink ctrl_fd_] in Hs.
    rewrite (proj2 (Z.ltb_lt _ _)) in Hs by lia.
    cbn [mbind outcome_bind negb] in Hs. injection Hs as <- <-.
    by apply only_sink_io, only_sink_set.
Qed.

(** ** A flush *)

(** X20: a write request for sector 0 with length 0 (a flush) is
    answered with one frame of 32 bytes, the request header with its
    type set to [DM_USER_RESP_SUCCESS], and changes nothing but the
    sink and the control device; the pass returns what the write of
    that frame returns. *)
Theorem Run_flush s :
  let c := ctrl_fd_ s in
  let bytes := take (Z.to_nat sizeof_dm_user_header) (ctrl_in c) in
  sizeof_dm_user_header <= buffer_size_ (bufsink_ s) →
  sizeof_dm_user_header <= Z.of_nat (length (ctrl_in c)) →
  request_field c hdr_type 4 = DM_USER_REQ_MAP_WRITE →
  request_field c hdr_sector 8 = 0 →
  request_field c hdr_len 8 = 0 →
  ∃ s', Run s
        = Ok ((ctrl_write (ctrl_after_read c sizeof_dm_user_header)
                 (response_header bytes DM_USER_RESP_SUCCESS)).1, s')
    ∧ ctrl_fd_ s'
      = (ctrl_write (ctrl_after_read c sizeof_dm_user_header)
           (response_header bytes DM_USER_RESP_SUCCESS)).2
    ∧ only_io s s'.
Proof.
  intros c bytes Hsize Hin Hty Hsec Hlen.
  rewrite (Run_dispatch s Hsize Hin). cbn zeta. fold c. rewrite Hty.
  change (DM_USER_REQ_MAP_WRITE =? DM_USER_REQ_MAP_READ) with false.
  rewrite Z.eqb_refl. unfold Run_write.
  change (0 + hdr_sector) with hdr_sector. change (0 + hdr_len) with hdr_len.
  rewrite !request_field_load by done. fold c. rewrite Hsec, Hlen.
  cbn [mbind outcome_bind Z.eqb CHECK].
  unfold set_header_type, sink_store, sink_write, with_request.
  cbn [set_ctrl set_bufsink bufsink_ sink_at buffer_]. fold c bytes.
  assert (Hb : length bytes = Z.to_nat sizeof_dm_user_header).
  { unfold bytes. rewrite length_take. lia. }
  set (rest := zeros _).
  assert (Hr : mem_read (bytes ++ rest) 0 sizeof_dm_user_header = Some bytes).
  { rewrite mem_read_app_l by (rewrite ?Hb; unfold sizeof_dm_user_header; lia).
    rewrite mem_read_Some by (rewrite ?Hb; unfold sizeof_dm_user_header; lia).
    change (Z.to_nat 0) with 0%nat. rewrite drop_0.
    by rewrite take_ge by lia. }
  destruct (mem_write_within _ _ _ _ hdr_type (le_bytes 4 DM_USER_RESP_SUCCESS)
              Hr ltac:(done) ltac:(by vm_compute)) as (buf & Hw & Hr').
  rewrite Hw. cbn [lift_mem mbind outcome_bind].
  unfold WriteDmUserPayload.
  cbn [set_ctrl set_bufsink bufsink_ set_buffer buffer_ ctrl_fd_].
  rewrite Z.add_0_r, Hr'. cbn [lift_mem mbind outcome_bind].
  change (take (Z.to_nat hdr_type) bytes ++ le_bytes 4 DM_USER_RESP_SUCCESS
          ++ drop (Z.to_nat hdr_type + length (le_bytes 4 DM_USER_RESP_SUCCESS)) bytes)
    with (response_header bytes DM_USER_RESP_SUCCESS).
  destruct (ctrl_write _ _) as [ok c'] eqn:Hc.
  eexists. split; [done|]. split; [done|].
  apply ctrl_write_inv in Hc as (_ & Hf & _).
  split; [done|]. split; [done|].
  cbn [set_ctrl ctrl_fd_]. rewrite Hf. cbn [ctrl_after_read ctrl_wr_fail].
  apply tail_subseteq.
Qed.
End dispatch.

Lemma X19_witness :
  only_io
    (small_device [zero_op 5] (header_bytes 1 DM_USER_REQ_MAP_READ 0 16 BLOCK_SIZE) [])
    (after_run (small_device [zero_op 5]
                  (header_bytes 1 DM_USER_REQ_MAP_READ 0 16 BLOCK_SIZE) [])).
Proof.
  apply (Run_read_only_io _ true).
  - vm_compute. discriminate.
  - vm_compute. reflexivity.
Defined.

Lemma X20_witness :
  let s := small_device [zero_op 5] (header_bytes 3 DM_USER_REQ_MAP_WRITE 0 0 0) [] in
  let c := ctrl_fd_ s in
  let bytes := take (Z.to_nat sizeof_dm_user_header) (ctrl_in c) in
  ∃ s', Run s
        = Ok ((ctrl_write (ctrl_after_read c sizeof_dm_user_header)
                 (response_header bytes DM_USER_RESP_SUCCESS)).1, s')
    ∧ ctrl_fd_ s'
      = (ctrl_write (ctrl_after_read c sizeof_dm_user_header)
           (response_header bytes DM_USER_RESP_SUCCESS)).2
    ∧ only_io s s'.
Proof.
  apply (Run_flush
           (small_device [zero_op 5] (header_bytes 3 DM_USER_REQ_MAP_WRITE 0 0 0) [])).
  - by vm_compute.
  - by vm_compute.
  - vm_compute. reflexivity.
  - vm_compute. reflexivity.
  - vm_compute. reflexivity.
Defined.

(** * The frames of a reply *)

Lemma reply_sizes_last len :
  0 <= len <= PAYLOAD_SIZE → reply_sizes len = [len].
Proof.
  intros Hlen. unfold reply_sizes.
  assert (Hp : PAYLOAD_SIZE = 65536) by done.
  assert (Hq : (len - 1) / PAYLOAD_SIZE <= 0).
  { rewrite Hp in *. Z.div_mod_to_equations. lia. }
  rewrite Z.max_l by lia. cbn [Z.to_nat replicate app].
  by rewrite Z.mul_0_r, Z.sub_0_r.
Qed.

Lemma reply_sizes_more len :
  PAYLOAD_SIZE < len →
  reply_sizes len = PAYLOAD_SIZE :: reply_sizes (len - PAYLOAD_SIZE).
Proof.
  intros Hlen. unfold reply_sizes.
  assert (Hp : PAYLOAD_SIZE = 65536) by done.
  replace (len - 1) with (len - PAYLOAD_SIZE - 1 + 1 * PAYLOAD_SIZE) by lia.
  rewrite Z.div_add by (rewrite Hp; lia).
  assert (Hq : 0 <= (len - PAYLOAD_SIZE - 1) / PAYLOAD_SIZE).
  { apply Z.div_pos; lia. }
  rewrite !Z.max_r by lia.
  replace (Z.to_nat ((len - PAYLOAD_SIZE - 1) / PAYLOAD_SIZE + 1))
    with (S (Z.to_nat ((len - PAYLOAD_SIZE - 1) / PAYLOAD_SIZE))) by lia.
  cbn [replicate app]. f_equal. f_equal. f_equal. lia.
Qed.

Section reply.
Context `{CowReaderI R, CowWriterI W}.
Implicit Types s : Snapuserd R W.

Lemma only_sink_ctrl s s' : only_sink s s' → ctrl_fd_ s' = ctrl_fd_ s.
Proof. intros [E _]. by rewrite E. Qed.

Lemma Run_read_loop_frames fuel s header len offset s' :
  0 <= len → len <= PAYLOAD_SIZE * Z.of_nat fuel → (0 < fuel)%nat →
  Run_read_loop fuel s header len offset = Ok (true, s') →
  ∃ frames,
    ctrl_out (ctrl_fd_ s') = ctrl_out (ctrl_fd_ s) ++ frames
    ∧ (λ f, Z.of_nat (length f)) <$> frames
      = (λ sz, sizeof_dm_user_header + sz) <$> reply_sizes len.
Proof.
  assert (Hp : PAYLOAD_SIZE = 65536) by done.
  revert s len offset.
  induction fuel as [|fuel IH]; intros s len offset Hlen Hfuel Hpos; [lia|].
  cbn [Run_read_loop]. intros Hs.
  destruct (Run_read_serve _ _ _ _) as [s1| |] eqn:H1; [|done..].
  apply Run_read_serve_only_sink, only_sink_ctrl in H1.
  cbn [mbind outcome_bind] in Hs.
  destruct (WriteDmUserPayload _ _) as [[o s2]| |] eqn:H2; [|done..].
  cbn [mbind outcome_bind] in Hs.
  destruct o; cbn [negb] in Hs; [|done].
  apply WriteDmUserPayload_inv in H2 as (frame & Hr & Hc & _).
  apply ctrl_write_inv in Hc as (_ & _ & Hout). rewrite H1 in Hout.
  pose proof (mem_read_inv _ _ _ _ Hr) as (_ & Hn & _).
  apply mem_read_length in Hr.
  destruct (Z.le_gt_cases len PAYLOAD_SIZE) as [Hle|Hgt].
  - rewrite Z.min_r in Hs, Hr, Hn by lia.
    rewrite Z.sub_diag in Hs. cbn [Z.eqb] in Hs. injection Hs as <-.
    exists [frame]. split; [done|].
    rewrite reply_sizes_last by lia. cbn. f_equal. lia.
  - rewrite Z.min_l in Hs, Hr, Hn by lia.
    rewrite (proj2 (Z.eqb_neq _ _)) in Hs by lia.
    apply IH in Hs as (frames & Hout' & Hsz); [|lia|lia|lia].
    exists (frame :: frames). split.
    + rewrite Hout', Hout, <- app_assoc. done.
    + rewrite reply_sizes_more by lia. cbn [fmap list_fmap].
      fold (@fmap list _ _ _ (λ f : list Z, Z.of_nat (length f)) frames).
      fold (@fmap list _ _ _ (λ sz, sizeof_dm_user_header + sz)
              (reply_sizes (len - PAYLOAD_SIZE))).
      rewrite Hsz. f_equal. lia.
Qed.

(** X21: the reply to a read request of [len] bytes is split into
    frames of at most [PAYLOAD_SIZE] payload bytes.  When the pass
    returns [true], it has appended to the control device
    [ceil(len / PAYLOAD_SIZE)] frames (one for [len = 0]), each a
    32-byte header followed by [PAYLOAD_SIZE] payload bytes but for
    the last, which carries the rest; the payload sizes add up to
    [len]. *)
Theorem Run_read_frames s s' :
  let c := ctrl_fd_ s in
  let len := request_field c hdr_len 8 in
  sizeof_dm_user_header <= Z.of_nat (length (ctrl_in c)) →
  request_field c hdr_type 4 = DM_USER_REQ_MAP_READ →
  0 <= len →
  Run s = Ok (true, s') →
  ∃ frames,
    ctrl_out (ctrl_fd_ s') = ctrl_out c ++ frames
    ∧ (λ f, Z.of_nat (length f)) <$> frames
      = (λ sz, sizeof_dm_user_header + sz) <$> reply_sizes len.
Proof.
  intros c len Hin Hty Hlen Hs.
  assert (Hp : PAYLOAD_SIZE = 65536) by done.
  destruct (Z.le_gt_cases sizeof_dm_user_header (buffer_size_ (bufsink_ s)))
    as [Hsize|Hsize].
  2:{ unfold Run, GetHeaderPtr in Hs.
      by rewrite (proj2 (Z.leb_gt _ _) Hsize) in Hs. }
  rewrite (Run_dispatch s Hsize Hin) in Hs. cbn zeta in Hs.
  fold c in Hs. rewrite Hty in Hs. cbn [Z.eqb DM_USER_REQ_MAP_READ] in Hs.
  fold len in Hs.
  apply Run_read_loop_frames in Hs; [done|done| |lia].
  pose proof (Z.div_mod len PAYLOAD_SIZE ltac:(lia)) as Hd.
  pose proof (Z.mod_pos_bound len PAYLOAD_SIZE ltac:(lia)) as Hm.
  assert (0 <= len / PAYLOAD_SIZE) by (apply Z.div_pos; lia).
  rewrite Nat2Z.inj_add, Z2Nat.id by done. lia.
Qed.
End reply.

Lemma X21_witness :
  let s := small_device [zero_op 5]
             (header_bytes 1 DM_USER_REQ_MAP_READ 0 16 BLOCK_SIZE) [] in
  ∃ frames,
    ctrl_out (ctrl_fd_ (after_run s)) = ctrl_out (ctrl_fd_ s) ++ frames
    ∧ (λ f, Z.of_nat (length f)) <$> frames
      = (λ sz, sizeof_dm_user_header + sz)
          <$> reply_sizes (request_field (ctrl_fd_ s) hdr_len 8).
Proof.
  apply (Run_read_frames
           (small_device [zero_op 5]
              (header_bytes 1 DM_USER_REQ_MAP_READ 0 16 BLOCK_SIZE) [])).
  - by vm_compute.
  - vm_compute. reflexivity.
  - by vm_compute.
  - vm_compute. reflexivity.
Defined.

(** * Read requests, from the request to the reply *)

Lemma mem_read_two buf p a b X Y :
  mem_read buf p a = Some X → mem_read buf (p + a) b = Some Y →
  mem_read buf p (a + b) = Some (X ++ Y).
Proof.
  intros HX HY.
  pose proof (mem_read_inv _ _ _ _ HX) as (Hp & Ha & _ & _).
  pose proof (mem_read_inv _ _ _ _ HY) as (_ & Hb & Hfit & _).
  pose proof (mem_read_length _ _ _ _ HX) as HlX.
  pose proof (mem_read_length _ _ _ _ HY) as HlY.
  apply mem_read_ext; [lia..|rewrite length_app; lia|].
  intros i Hi. destruct (decide (i < Z.to_nat a)%nat) as [Hlt|Hge].
  - rewrite lookup_app_l by lia. rewrite (mem_read_lookup _ _ _ _ i HX).
    by rewrite decide_True by lia.
  - rewrite lookup_app_r by lia. rewrite (mem_read_lookup _ _ _ _ _ HY).
    rewrite decide_True by lia. f_equal. lia.
Qed.

Lemma mem_read_prefix buf p n X m :
  mem_read buf p n = Some X → 0 <= m <= n →
  mem_read buf p m = Some (take (Z.to_nat m) X).
Proof.
  intros HX Hm.
  pose proof (mem_read_inv _ _ _ _ HX) as (Hp & Hn & Hfit & _).
  pose proof (mem_read_length _ _ _ _ HX) as HlX.
  apply mem_read_ext; [lia..|rewrite length_take; lia|].
  intros i Hi. rewrite lookup_take, decide_True by lia.
  rewrite (mem_read_lookup _ _ _ _ i HX). by rewrite decide_True by lia.
Qed.

Section read_replies.
Context `{CowReaderI R, CowWriterI W}.
Implicit Types s : Snapuserd R W.

(** A read of at most [PAYLOAD_SIZE] bytes is one pass: serve, then
    reply. *)
Lemma Run_read_once s :
  let c := ctrl_fd_ s in
  let len := request_field c hdr_len 8 in
  sizeof_dm_user_header <= buffer_size_ (bufsink_ s) →
  sizeof_dm_user_header <= Z.of_nat (length (ctrl_in c)) →
  request_field c hdr_type 4 = DM_USER_REQ_MAP_READ →
  0 <= len <= PAYLOAD_SIZE →
  Run s = (s2 ← Run_read_serve (with_request s) 0 len 0;
           WriteDmUserPayload s2 len).
Proof.
  intros c len Hsize Hin Hty Hlen.
  rewrite (Run_dispatch s Hsize Hin). cbn zeta. fold c. rewrite Hty.
  cbn [Z.eqb DM_USER_REQ_MAP_READ]. fold len.
  rewrite Nat.add_1_r. cbn [Run_read_loop].
  rewrite Z.min_r by lia.
  destruct (Run_read_serve _ _ _ _) as [s2| |]; [|done..].
  cbn [mbind outcome_bind].
  destruct (WriteDmUserPayload s2 len) as [[[] s3]| |]; [|done..].
  cbn [mbind outcome_bind negb]. by rewrite Z.sub_diag.
Qed.

(** The pass that serves a read, after the response type has been
    preset: the header of the reply is in the sink, the payload is
    still zero. *)
Lemma Run_read_serve_header s read_size offset :
  let c := ctrl_fd_ s in
  let size := buffer_size_ (bufsink_ s) in
  sizeof_dm_user_header <= size →
  sizeof_dm_user_header <= Z.of_nat (length (ctrl_in c)) →
  ∃ buf2,
    mem_read buf2 0 sizeof_dm_user_header
    = Some (response_header (request_bytes s) DM_USER_RESP_SUCCESS)
    ∧ Z.of_nat (length buf2) = size
    ∧ Run_read_serve (with_request s) 0 read_size offset
      = let s2 := set_bufsink (with_request s) (sink_at (bufsink_ s) 0 buf2) in
        let sector := request_field c hdr_sector 8 in
        if sector =? 0 then
          _ ← CHECK CHECK_metadata_read_done (metadata_read_done_ s);
          _ ← CHECK CHECK_read_size_is_block (read_size =? BLOCK_SIZE);
          ConstructKernelCowHeader s2
        else
          let chunk := SectorToChunk sector in
          '(ok, s3) ←
            (match chunk_map_ s !! chunk with
             | None => ReadDiskExceptions s2 chunk read_size
             | Some _ =>
                 ReadData s2 (wrap64 (chunk + Z.shiftr offset BLOCK_SHIFT))
                   read_size
             end);
          if negb ok then set_header_type s3 0 DM_USER_RESP_ERROR else Ok s3.
Proof.
  intros c size Hsize Hin.
  set (bytes := request_bytes s).
  assert (Hb : length bytes = Z.to_nat sizeof_dm_user_header).
  { unfold bytes, request_bytes. fold c. rewrite length_take. lia. }
  set (rest := zeros (size - sizeof_dm_user_header)).
  assert (Hrest : length rest = Z.to_nat (size - sizeof_dm_user_header))
    by apply zeros_length.
  assert (Hr : mem_read (bytes ++ rest) 0 sizeof_dm_user_header = Some bytes).
  { rewrite mem_read_app_l by (rewrite ?Hb; unfold sizeof_dm_user_header; lia).
    rewrite mem_read_Some by (rewrite ?Hb; unfold sizeof_dm_user_header; lia).
    change (Z.to_nat 0) with 0%nat. rewrite drop_0.
    by rewrite take_ge by lia. }
  destruct (mem_write_within _ _ _ _ hdr_type (le_bytes 4 DM_USER_RESP_SUCCESS)
              Hr ltac:(done) ltac:(by vm_compute)) as (buf2 & Hw & Hr').
  exists buf2. split; [exact Hr'|]. split.
  { rewrite (mem_write_length _ _ _ _ Hw), length_app, Hb, Hrest.
    unfold sizeof_dm_user_header in *. lia. }
  unfold Run_read_serve, set_header_type, sink_store, sink_write.
  change (buffer_ (bufsink_ (with_request s))) with (bytes ++ rest).
  rewrite Hw. cbn [lift_mem mbind outcome_bind].
  change (set_bufsink (with_request s)
            (set_buffer (bufsink_ (with_request s)) buf2))
    with (set_bufsink (with_request s) (sink_at (bufsink_ s) 0 buf2)).
  unfold sink_load. cbn [set_bufsink sink_at bufsink_ buffer_].
  rewrite (mem_write_read_above _ _ _ _ (0 + hdr_sector) 8 Hw) by done.
  unfold bytes, request_bytes. rewrite header_field by done.
  cbn [lift_mem mbind outcome_bind]. fold (request_field c hdr_sector 8).
  destruct (_ =? 0); [done|]. done.
Qed.

(** The sink in which a read is served has room for [n] bytes when
    the buffer is large enough. *)
Lemma served_room s buf2 n :
  Z.of_nat (length buf2) = buffer_size_ (bufsink_ s) →
  sizeof_dm_user_header + n <= buffer_size_ (bufsink_ s) < 2 ^ 64 →
  sink_has_room
    (bufsink_ (set_bufsink (with_request s) (sink_at (bufsink_ s) 0 buf2))) n.
Proof.
  intros Hl Hn. unfold sink_has_room.
  cbn [set_bufsink bufsink_ sink_at buffer_size_ buffer_offset_ buffer_].
  split; [done|]. split; [done|]. split; [lia|lia].
Qed.

(** The reply to a read whose payload has been stored at the payload
    pointer. *)
Lemma reply_frame s buf2 buf3 data len :
  mem_read buf2 0 sizeof_dm_user_header
  = Some (response_header (request_bytes s) DM_USER_RESP_SUCCESS) →
  mem_write buf2 sizeof_dm_user_header data = Some buf3 →
  0 <= len <= Z.of_nat (length data) →
  let s3 := set_bufsink (with_request s) (sink_at (bufsink_ s) 0 buf3) in
  let c := ctrl_after_read (ctrl_fd_ s) sizeof_dm_user_header in
  let frame := response_header (request_bytes s) DM_USER_RESP_SUCCESS
               ++ take (Z.to_nat len) data in
  WriteDmUserPayload s3 len
  = Ok ((ctrl_write c frame).1, set_ctrl s3 (ctrl_write c frame).2).
Proof.
  intros Hh Hw Hlen s3 c frame. unfold WriteDmUserPayload.
  change (buffer_ (bufsink_ s3)) with buf3.
  change (ctrl_fd_ s3) with c.
  assert (Hr : mem_read buf3 0 (sizeof_dm_user_header + len) = Some frame).
  { apply mem_read_two.
    - rewrite (mem_write_read_below _ _ _ _ 0 sizeof_dm_user_header Hw) by lia.
      done.
    - apply (mem_read_prefix _ _ (Z.of_nat (length data))); [|done].
      apply (mem_write_read _ _ _ _ Hw). }
  rewrite Hr. cbn [lift_mem mbind outcome_bind].
  by destruct (ctrl_write c frame).
Qed.

(** [ReadDiskExceptions] stores the page of the chunk id. *)
Lemma ReadDiskExceptions_store s chunk read_size :
  exceptions_per_area_ s = EXCEPTIONS_PER_AREA →
  sink_has_room (bufsink_ s) AREA_SIZE →
  read_size <= AREA_SIZE →
  Forall (fun area => length area = Z.to_nat EXCEPTIONS_PER_AREA) (vec_ s) →
  ∃ buf, mem_write (buffer_ (bufsink_ s))
           (sizeof_dm_user_header + buffer_offset_ (bufsink_ s))
           (metadata_page s chunk) = Some buf
    ∧ ReadDiskExceptions s chunk read_size
      = Ok (true, set_bufsink s (set_buffer (bufsink_ s) buf)).
Proof.
  intros Hepa Hroom Hsize Hfull.
  unfold ReadDiskExceptions, ZerofillDiskExceptions, metadata_page.
  rewrite Hepa.
  set (idx := wrap64 (quot (lldiv (to_sll chunk) (stride_of EXCEPTIONS_PER_AREA)))).
  change (wrap64 (EXCEPTIONS_PER_AREA * sizeof_disk_exception)) with AREA_SIZE.
  rewrite !Z.gtb_ltb, !(proj2 (Z.ltb_ge AREA_SIZE read_size)) by lia.
  rewrite (GetPayloadBuffer_room _ _ Hroom) by done.
  destruct (decide (idx < Z.of_nat (length (vec_ s)))) as [Hin|Hout].
  - rewrite (proj2 (Z.ltb_lt _ _) Hin).
    assert (Hidx : 0 <= idx) by (apply Z.mod_pos_bound; done).
    destruct (lookup_lt_is_Some_2 (vec_ s) (Z.to_nat idx)) as [area Harea];
      [lia|].
    rewrite Harea. cbn [lift_mem mbind outcome_bind default].
    assert (Hlen : Z.of_nat (length (area_bytes area)) = AREA_SIZE).
    { rewrite area_bytes_length.
      rewrite Forall_forall in Hfull.
      rewrite (Hfull area) by (by eapply list_elem_of_lookup_2).
      done. }
    rewrite mem_read_Some by lia.
    change (Z.to_nat 0) with 0%nat. rewrite drop_0, take_ge by lia.
    cbn [lift_mem mbind outcome_bind].
    destruct (sink_write_room _ _ (area_bytes area) Hroom) as (buf & Hw & ->);
      [lia|].
    by exists buf.
  - rewrite (proj2 (Z.ltb_ge _ _)) by lia.
    destruct (sink_write_room _ _ (zeros AREA_SIZE) Hroom) as (buf & Hw & ->);
      [by vm_compute|].
    by exists buf.
Qed.

Lemma metadata_page_length s chunk :
  Forall (fun area => length area = Z.to_nat EXCEPTIONS_PER_AREA) (vec_ s) →
  Z.of_nat (length (metadata_page s chunk)) = AREA_SIZE.
Proof.
  intros Hfull. unfold metadata_page.
  destruct (decide _) as [Hin|Hout]; [|by vm_compute].
  set (idx := wrap64 _) in *.
  assert (Hidx : 0 <= idx) by (apply Z.mod_pos_bound; done).
  destruct (lookup_lt_is_Some_2 (vec_ s) (Z.to_nat idx)) as [area Harea];
    [lia|].
  rewrite Harea. change (default [] (Some area)) with area.
  rewrite area_bytes_length.
  rewrite Forall_forall in Hfull.
  pose proof (Hfull area ltac:(by eapply list_elem_of_lookup_2)) as Hl.
  cbn beta in Hl. by rewrite Hl.
Qed.

(** X22: a read request of at most a page for a chunk id that is not
    in the ChunkMap is answered with one frame: the request header
    with its type set to [DM_USER_RESP_SUCCESS], followed by the first
    [len] bytes of the page of that chunk id, the byte image of the
    area [chunk / (exceptions_per_area_ + 1)] or zeroes behind the
    last area. *)
Theorem Run_read_metadata s :
  let c := ctrl_fd_ s in
  let sector := request_field c hdr_sector 8 in
  let len := request_field c hdr_len 8 in
  sizeof_dm_user_header <= Z.of_nat (length (ctrl_in c)) →
  request_field c hdr_type 4 = DM_USER_REQ_MAP_READ →
  sector ≠ 0 →
  chunk_map_ s !! SectorToChunk sector = None →
  0 <= len <= AREA_SIZE →
  exceptions_per_area_ s = EXCEPTIONS_PER_AREA →
  sizeof_dm_user_header + AREA_SIZE <= buffer_size_ (bufsink_ s) < 2 ^ 64 →
  Forall (fun area => length area = Z.to_nat EXCEPTIONS_PER_AREA) (vec_ s) →
  replies_with s
    (response_header (request_bytes s) DM_USER_RESP_SUCCESS
     ++ take (Z.to_nat len) (metadata_page s (SectorToChunk sector))).
Proof.
  intros c sector len Hin Hty Hsec Hmap Hlen Hepa Hsize Hfull.
  assert (Ha : AREA_SIZE = 4096) by done.
  assert (Hp : PAYLOAD_SIZE = 65536) by done.
  assert (Hh : sizeof_dm_user_header = 32) by done.
  unfold replies_with.
  rewrite (Run_read_once s) by (fold c; fold len; lia). fold c len.
  destruct (Run_read_serve_header s len 0 ltac:(lia) Hin)
    as (buf2 & Hr2 & Hl2 & ->).
  cbn zeta. fold c sector. rewrite (proj2 (Z.eqb_neq _ _) Hsec), Hmap.
  set (s2 := set_bufsink (with_request s) (sink_at (bufsink_ s) 0 buf2)).
  destruct (ReadDiskExceptions_store s2 (SectorToChunk sector) len Hepa
              (served_room s buf2 AREA_SIZE Hl2 Hsize) ltac:(lia) Hfull)
    as (buf3 & Hw & ->).
  cbn [mbind outcome_bind negb].
  change (metadata_page s2 (SectorToChunk sector))
    with (metadata_page s (SectorToChunk sector)) in Hw.
  change (sizeof_dm_user_header + buffer_offset_ (bufsink_ s2))
    with sizeof_dm_user_header in Hw.
  change (buffer_ (bufsink_ s2)) with buf2 in Hw.
  change (set_bufsink s2 (set_buffer (bufsink_ s2) buf3))
    with (set_bufsink (with_request s) (sink_at (bufsink_ s) 0 buf3)).
  rewrite (reply_frame s buf2 buf3 _ len Hr2 Hw)
    by (rewrite metadata_page_length by done; lia).
  eexists. split; [done|done].
Qed.

Lemma expected_blocks_with_request s chunk n :
  expected_blocks (with_request s) chunk n = expected_blocks s chunk n.
Proof.
  revert chunk. induction n as [|n IH]; intros chunk; [done|].
  cbn [expected_blocks].
  change (chunk_map_ (with_request s)) with (chunk_map_ s).
  destruct (chunk_map_ s !! chunk) as [op|]; [|done]. cbn.
  change (op_block (with_request s) op) with (op_block s op).
  destruct (op_block s op); [|done]. cbn. by rewrite IH.
Qed.

(** Blocks that one call can serve are whole blocks. *)
Lemma one_io_bytes epa chunk more (ods : list (CowOperation * list Z)) :
  one_io epa chunk more ods = true →
  Z.of_nat (length (concat ods.*2)) = BLOCK_SIZE * Z.of_nat (length ods).
Proof.
  revert chunk. induction ods as [|[op d] ods IH]; intros chunk Hio; [done|].
  cbn [one_io] in Hio.
  apply andb_true_iff in Hio as [Hio Hrest].
  apply andb_true_iff in Hio as [Hd%Z.eqb_eq _].
  specialize (IH _ Hrest).
  cbn [fmap list_fmap concat snd length]. rewrite length_app.
  fold (@fmap list _ _ _ (@snd CowOperation (list Z)) ods).
  unfold BLOCK_SIZE in *. lia.
Qed.

(** X23: a read request of [n] blocks for a chunk id that is in the
    ChunkMap is answered with one frame: the request header with its
    type set to [DM_USER_RESP_SUCCESS], followed by the blocks of the
    operations mapped at the [n] chunks from that id on.  The blocks
    must be servable by one call of [ReadData] and fit the sink. *)
Theorem Run_read_data s (n : nat) ods :
  let c := ctrl_fd_ s in
  let sector := request_field c hdr_sector 8 in
  let chunk := SectorToChunk sector in
  sizeof_dm_user_header <= Z.of_nat (length (ctrl_in c)) →
  request_field c hdr_type 4 = DM_USER_REQ_MAP_READ →
  0 < sector →
  request_field c hdr_len 8 = BLOCK_SIZE * Z.of_nat n →
  (0 < n)%nat → BLOCK_SIZE * Z.of_nat n <= PAYLOAD_SIZE →
  expected_blocks s chunk n = Some ods →
  one_io (exceptions_per_area_ s) chunk false ods = true →
  sizeof_dm_user_header + BLOCK_SIZE * Z.of_nat n
    <= buffer_size_ (bufsink_ s) < 2 ^ 64 →
  chunk + Z.of_nat n < 2 ^ 64 →
  replies_with s
    (response_header (request_bytes s) DM_USER_RESP_SUCCESS
     ++ concat ods.*2).
Proof.
  intros c sector chunk Hin Hty Hsec Hlen Hn Hfits Hexp Hio Hsize Hck.
  assert (Hb : BLOCK_SIZE = 4096) by done.
  assert (Hh : sizeof_dm_user_header = 32) by done.
  assert (Hck0 : 0 <= chunk).
  { unfold chunk, SectorToChunk. apply Z.shiftr_nonneg. lia. }
  unfold replies_with.
  rewrite (Run_read_once s) by (fold c; rewrite ?Hlen; lia). fold c.
  rewrite Hlen.
  destruct (Run_read_serve_header s (BLOCK_SIZE * Z.of_nat n) 0 ltac:(lia) Hin)
    as (buf2 & Hr2 & Hl2 & ->).
  cbn zeta. fold c sector chunk.
  rewrite (proj2 (Z.eqb_neq _ _)) by lia.
  assert (Hmap : ∃ op, chunk_map_ s !! chunk = Some op).
  { destruct n as [|n]; [lia|]. cbn [expected_blocks] in Hexp.
    destruct (chunk_map_ s !! chunk) as [op|]; [by exists op|done]. }
  destruct Hmap as [op ->].
  change (Z.shiftr 0 BLOCK_SHIFT) with 0. rewrite Z.add_0_r.
  rewrite wrap64_small by lia.
  set (s2 := set_bufsink (with_request s) (sink_at (bufsink_ s) 0 buf2)).
  assert (Hexp2 : expected_blocks s2 chunk n = Some ods).
  { unfold s2. by rewrite expected_blocks_sink, expected_blocks_with_request. }
  pose proof (ReadData_loop_run n s2 chunk (BLOCK_SIZE * Z.of_nat n) [] ods 0
                Hexp2) as Hrun.
  rewrite Z.ltb_irrefl in Hrun.
  destruct (Hrun Hio ltac:(lia) (served_room s buf2 _ Hl2 Hsize) Hck0 Hck)
    as (buf3 & Hw & Hloop).
  unfold ReadData, ReadData_log. rewrite land_block_mask.
  cbn [Z.eqb CHECK mbind outcome_bind]. rewrite ReadData_fuel.
  rewrite Nat.add_0_r in Hloop. rewrite Hloop.
  cbn [mbind outcome_bind negb].
  change (sizeof_dm_user_header + buffer_offset_ (bufsink_ s2))
    with sizeof_dm_user_header in Hw.
  change (buffer_ (bufsink_ s2)) with buf2 in Hw.
  change (set_bufsink s2 (sink_at (bufsink_ s2) 0 buf3))
    with (set_bufsink (with_request s) (sink_at (bufsink_ s) 0 buf3)).
  pose proof (mem_write_inv _ _ _ _ Hw) as (_ & Hfit & _).
  pose proof (one_io_bytes _ _ _ _ Hio) as Hcl.
  rewrite (expected_blocks_length _ _ _ _ Hexp) in Hcl.
  rewrite (reply_frame s buf2 buf3 _ (BLOCK_SIZE * Z.of_nat n) Hr2 Hw)
    by lia.
  rewrite <- Hcl, Nat2Z.id, take_ge by lia.
  eexists. split; [done|done].
Qed.

(** X24: a read request of one block for sector 0, once the metadata
    has been read, is answered with one frame: the request header
    with its type set to [DM_USER_RESP_SUCCESS], followed by the
    kernel header block that [ConstructKernelCowHeader] builds. *)
Theorem Run_read_sector_0 s :
  let c := ctrl_fd_ s in
  sizeof_dm_user_header <= Z.of_nat (length (ctrl_in c)) →
  request_field c hdr_type 4 = DM_USER_REQ_MAP_READ →
  request_field c hdr_sector 8 = 0 →
  request_field c hdr_len 8 = BLOCK_SIZE →
  metadata_read_done_ s = true →
  sizeof_dm_user_header + BLOCK_SIZE <= buffer_size_ (bufsink_ s) < 2 ^ 64 →
  replies_with s
    (response_header (request_bytes s) DM_USER_RESP_SUCCESS
     ++ kernel_header_block).
Proof.
  intros c Hin Hty Hsec Hlen Hdone Hsize.
  assert (Hb : BLOCK_SIZE = 4096) by done.
  assert (Hh : sizeof_dm_user_header = 32) by done.
  assert (Hp : PAYLOAD_SIZE = 65536) by done.
  unfold replies_with.
  rewrite (Run_read_once s) by (fold c; rewrite ?Hlen; lia). fold c.
  rewrite Hlen.
  destruct (Run_read_serve_header s BLOCK_SIZE 0 ltac:(lia) Hin)
    as (buf2 & Hr2 & Hl2 & ->).
  cbn zeta. fold c. rewrite Hsec, Hdone.
  cbn [Z.eqb CHECK mbind outcome_bind]. rewrite Z.eqb_refl.
  cbn [CHECK mbind outcome_bind].
  set (s2 := set_bufsink (with_request s) (sink_at (bufsink_ s) 0 buf2)).
  destruct (ConstructKernelCowHeader_store s2
              (served_room s buf2 BLOCK_SIZE Hl2 Hsize)) as (buf3 & -> & Hw).
  cbn [mbind outcome_bind].
  change (sizeof_dm_user_header + buffer_offset_ (bufsink_ s2))
    with sizeof_dm_user_header in Hw.
  change (buffer_ (bufsink_ s2)) with buf2 in Hw.
  change (set_bufsink s2 (set_buffer (bufsink_ s2) buf3))
    with (set_bufsink (with_request s) (sink_at (bufsink_ s) 0 buf3)).
  rewrite (reply_frame s buf2 buf3 _ BLOCK_SIZE Hr2 Hw) by (by vm_compute).
  change (take (Z.to_nat BLOCK_SIZE) kernel_header_block)
    with kernel_header_block.
  eexists. split; [done|done].
Qed.
End read_replies.

Lemma X22_witness :
  let s := small_device [zero_op 5]
             (header_bytes 1 DM_USER_REQ_MAP_READ 0 8 BLOCK_SIZE) [] in
  replies_with s
    (response_header (request_bytes s) DM_USER_RESP_SUCCESS
     ++ take (Z.to_nat (request_field (ctrl_fd_ s) hdr_len 8))
          (metadata_page s
             (SectorToChunk (request_field (ctrl_fd_ s) hdr_sector 8)))).
Proof.
  apply (Run_read_metadata
           (small_device [zero_op 5]
              (header_bytes 1 DM_USER_REQ_MAP_READ 0 8 BLOCK_SIZE) [])).
  - by vm_compute.
  - vm_compute. reflexivity.
  - vm_compute. discriminate.
  - vm_compute. reflexivity.
  - by vm_compute.
  - vm_compute. reflexivity.
  - by vm_compute.
  - constructor; [vm_compute; reflexivity|constructor].
Defined.

Lemma X23_witness :
  let s := small_device [zero_op 5]
             (header_bytes 1 DM_USER_REQ_MAP_READ 0 16 BLOCK_SIZE) [] in
  replies_with s
    (response_header (request_bytes s) DM_USER_RESP_SUCCESS
     ++ concat [(zero_op 5, zeros BLOCK_SIZE)].*2).
Proof.
  apply (Run_read_data
           (small_device [zero_op 5]
              (header_bytes 1 DM_USER_REQ_MAP_READ 0 16 BLOCK_SIZE) []) 1).
  - by vm_compute.
  - vm_compute. reflexivity.
  - by vm_compute.
  - vm_compute. reflexivity.
  - lia.
  - by vm_compute.
  - vm_compute. reflexivity.
  - vm_compute. reflexivity.
  - by vm_compute.
  - by vm_compute.
Defined.

Lemma X24_witness :
  let s := small_device [zero_op 5]
             (header_bytes 1 DM_USER_REQ_MAP_READ 0 0 BLOCK_SIZE) [] in
  replies_with s
    (response_header (request_bytes s) DM_USER_RESP_SUCCESS
     ++ kernel_header_block).
Proof.
  apply (Run_read_sector_0
           (small_device [zero_op 5]
              (header_bytes 1 DM_USER_REQ_MAP_READ 0 0 BLOCK_SIZE) [])).
  - by vm_compute.
  - vm_compute. reflexivity.
  - vm_compute. reflexivity.
  - vm_compute. reflexivity.
  - vm_compute. reflexivity.
  - by vm_compute.
Defined.

(** * Write requests, from the request to the reply *)

Lemma response_header_length bytes v :
  length bytes = Z.to_nat sizeof_dm_user_header →
  length (response_header bytes v) = Z.to_nat sizeof_dm_user_header.
Proof.
  intros Hb. unfold response_header.
  rewrite !length_app, length_take, length_drop, le_bytes_length, Hb.
  by vm_compute.
Qed.

Lemma header_store bytes rest v :
  length bytes = Z.to_nat sizeof_dm_user_header →
  mem_write (bytes ++ rest) (0 + hdr_type) (le_bytes 4 v)
  = Some (response_header bytes v ++ rest).
Proof.
  intros Hb.
  assert (Hn : length bytes = 32%nat) by (by rewrite Hb).
  rewrite mem_write_Some
    by (rewrite ?length_app, ?le_bytes_length, ?Hn; unfold hdr_type; lia).
  f_equal. unfold response_header. rewrite le_bytes_length.
  change (Z.to_nat (0 + hdr_type)) with 8%nat.
  change (Z.to_nat hdr_type) with 8%nat.
  change (Z.to_nat hdr_flags) with 12%nat.
  rewrite take_app_le, drop_app_le by lia.
  by rewrite <- !app_assoc.
Qed.

Lemma response_header_again bytes v w :
  length bytes = Z.to_nat sizeof_dm_user_header →
  response_header (response_header bytes v) w = response_header bytes w.
Proof.
  intros Hb.
  assert (Hn : length bytes = 32%nat) by (by rewrite Hb).
  unfold response_header.
  change (Z.to_nat hdr_type) with 8%nat.
  change (Z.to_nat hdr_flags) with 12%nat.
  rewrite take_app_length' by (rewrite length_take; lia).
  do 2 f_equal. rewrite (app_assoc (take 8 bytes)).
  by rewrite drop_app_length'
    by (rewrite length_app, length_take, le_bytes_length; lia).
Qed.

Lemma response_header_frame hdr rest :
  length hdr = Z.to_nat sizeof_dm_user_header →
  mem_read (hdr ++ rest) 0 (sizeof_dm_user_header + 0) = Some hdr.
Proof.
  intros Hb.
  assert (Hn : length hdr = 32%nat) by (by rewrite Hb).
  rewrite mem_read_app_l by (unfold sizeof_dm_user_header; lia).
  rewrite mem_read_Some by (unfold sizeof_dm_user_header; lia).
  change (Z.to_nat 0) with 0%nat. rewrite drop_0. by rewrite take_ge by lia.
Qed.

Lemma response_header_type bytes v rest :
  length bytes = Z.to_nat sizeof_dm_user_header →
  mem_read (response_header bytes v ++ rest) (0 + hdr_type) 4
  = Some (le_bytes 4 v).
Proof.
  intros Hb.
  assert (Hn : length bytes = 32%nat) by (by rewrite Hb).
  pose proof (response_header_length bytes v Hb) as Hl.
  change (Z.to_nat sizeof_dm_user_header) with 32%nat in Hl.
  change (0 + hdr_type) with 8.
  rewrite mem_read_app_l by lia.
  rewrite mem_read_Some by lia.
  f_equal. unfold response_header.
  change (Z.to_nat hdr_type) with 8%nat. change (Z.to_nat 8) with 8%nat.
  rewrite drop_app_length' by (rewrite length_take; lia).
  by rewrite take_app_length' by (by rewrite le_bytes_length).
Qed.

Lemma sink_at_room b buf n :
  Z.of_nat (length buf) = buffer_size_ b →
  sizeof_dm_user_header + n <= buffer_size_ b < 2 ^ 64 →
  sink_has_room (sink_at b 0 buf) n.
Proof.
  intros Hl Hn. unfold sink_has_room.
  cbn [sink_at buffer_size_ buffer_offset_ buffer_].
  split; [done|]. split; [done|]. split; [lia|lia].
Qed.

Section write_replies.
Context `{CowReaderI R, CowWriterI W}.
Implicit Types s : Snapuserd R W.

Lemma request_bytes_length s :
  sizeof_dm_user_header <= Z.of_nat (length (ctrl_in (ctrl_fd_ s))) →
  length (request_bytes s) = Z.to_nat sizeof_dm_user_header.
Proof. intros Hin. unfold request_bytes. rewrite length_take. lia. Qed.

(** [header->type = v] on a sink that holds a header. *)
Lemma set_header_type_sink s bytes rest v :
  buffer_ (bufsink_ s) = bytes ++ rest →
  length bytes = Z.to_nat sizeof_dm_user_header →
  set_header_type s 0 v
  = Ok (set_bufsink s
          (set_buffer (bufsink_ s) (response_header bytes v ++ rest))).
Proof.
  intros Hbuf Hb. unfold set_header_type, sink_store, sink_write.
  by rewrite Hbuf, header_store by done.
Qed.

(** A merge-completion write up to the read of its page. *)
Lemma Run_write_prefix s :
  let c := ctrl_fd_ s in
  let sector := request_field c hdr_sector 8 in
  let size := buffer_size_ (bufsink_ s) in
  let rest := zeros (size - sizeof_dm_user_header) in
  sizeof_dm_user_header <= Z.of_nat (length (ctrl_in c)) →
  request_field c hdr_type 4 = DM_USER_REQ_MAP_WRITE →
  0 < sector →
  request_field c hdr_len 8 = BLOCK_SIZE →
  chunk_map_ s !! SectorToChunk sector = None →
  sizeof_dm_user_header + BLOCK_SIZE <= size < 2 ^ 64 →
  Run s
  = let s1 := set_bufsink (with_request s)
                (sink_at (bufsink_ s) 0
                   (response_header (request_bytes s) DM_USER_RESP_SUCCESS
                    ++ rest)) in
    '(ok, s) ← ReadDmUserPayload s1 sizeof_dm_user_header BLOCK_SIZE;
    s ← (if negb ok then set_header_type s 0 DM_USER_RESP_ERROR else Ok s);
    ty ← sink_load (bufsink_ s) (0 + hdr_type) 4;
    s ←
      (if ty =? DM_USER_RESP_SUCCESS then
         '(ok, s) ← ProcessMergeComplete s (SectorToChunk sector)
                      (exceptions_at s sizeof_dm_user_header);
         if negb ok then set_header_type s 0 DM_USER_RESP_ERROR
         else Ok s
       else Ok s);
    WriteDmUserPayload s 0.
Proof.
  intros c sector size rest Hin Hty Hsec Hlen Hmap Hsize.
  assert (Hh : sizeof_dm_user_header = 32) by done.
  assert (Hb : BLOCK_SIZE = 4096) by done.
  pose proof (request_bytes_length s Hin) as Hrb.
  rewrite (Run_dispatch s) by (fold c; fold size; lia). cbn zeta. fold c.
  rewrite Hty.
  change (DM_USER_REQ_MAP_WRITE =? DM_USER_REQ_MAP_READ) with false.
  rewrite Z.eqb_refl. unfold Run_write.
  change (0 + hdr_sector) with hdr_sector. change (0 + hdr_len) with hdr_len.
  rewrite !request_field_load by done. fold c sector. rewrite Hlen.
  cbn [mbind outcome_bind].
  rewrite (proj2 (Z.eqb_neq _ _)) by lia.
  change (Z.min PAYLOAD_SIZE BLOCK_SIZE) with BLOCK_SIZE.
  rewrite Z.eqb_refl. cbn [CHECK mbind outcome_bind].
  rewrite (proj2 (Z.gtb_lt _ _)) by lia. cbn [CHECK mbind outcome_bind].
  change (chunk_map_ (with_request s)) with (chunk_map_ s).
  rewrite bool_decide_true by done. cbn [CHECK mbind outcome_bind].
  change (bufsink_ (with_request s))
    with (sink_at (bufsink_ s) 0 (request_bytes s ++ rest)).
  rewrite (GetPayloadBuffer_room _ BLOCK_SIZE); [|apply sink_at_room|lia].
  2:{ rewrite length_app, Hrb. unfold rest. rewrite zeros_length.
      fold size. lia. }
  2:{ fold size. lia. }
  cbn [sink_at buffer_offset_]. rewrite Z.add_0_r.
  rewrite (set_header_type_sink _ (request_bytes s) rest) by done.
  done.
Qed.

Lemma mem_write_behind hdr rest (p : Z) data :
  Z.of_nat (length hdr) = p →
  (length data <= length rest)%nat →
  mem_write (hdr ++ rest) p data
  = Some (hdr ++ data ++ drop (length data) rest).
Proof.
  intros Hp Hd.
  rewrite mem_write_Some by (rewrite ?length_app; lia).
  f_equal. replace (Z.to_nat p) with (length hdr) by lia.
  rewrite take_app_length. do 2 f_equal.
  by rewrite drop_app_ge, Nat.add_comm, Nat.add_sub by lia.
Qed.

(** X26: a merge-completion write whose page is queued on the control
    device is answered by the result of [ProcessMergeComplete] on that
    page.  The page is read behind the header of the reply, the sink
    from there on is handed to [ProcessMergeComplete] as the merged
    area, and the reply is one frame of 32 bytes, the request header
    with its type set to [DM_USER_RESP_SUCCESS] when
    [ProcessMergeComplete] returns [true] and to [DM_USER_RESP_ERROR]
    when it returns [false]; a failure of one of its checks ends the
    pass without a reply. *)
Theorem Run_write_merge s :
  let c := ctrl_fd_ s in
  let sector := request_field c hdr_sector 8 in
  let s2 := with_merge_page s in
  sizeof_dm_user_header + BLOCK_SIZE <= Z.of_nat (length (ctrl_in c)) →
  request_field c hdr_type 4 = DM_USER_REQ_MAP_WRITE →
  0 < sector →
  request_field c hdr_len 8 = BLOCK_SIZE →
  chunk_map_ s !! SectorToChunk sector = None →
  sizeof_dm_user_header + BLOCK_SIZE <= buffer_size_ (bufsink_ s) < 2 ^ 64 →
  match ProcessMergeComplete s2 (SectorToChunk sector)
          (exceptions_at s2 sizeof_dm_user_header) with
  | Ok (ok, s3) =>
      let frame :=
        response_header (request_bytes s)
          (if ok then DM_USER_RESP_SUCCESS else DM_USER_RESP_ERROR) in
      let reply := ctrl_write (ctrl_fd_ s2) frame in
      ∃ s', Run s = Ok (reply.1, s') ∧ ctrl_fd_ s' = reply.2
        ∧ only_io s3 s'
  | CheckFailed k => Run s = CheckFailed k
  | Fault => Run s = Fault
  end.
Proof.
  intros c sector s2 Hin Hty Hsec Hlen Hmap Hsize.
  assert (Hh : sizeof_dm_user_header = 32) by done.
  assert (Hb : BLOCK_SIZE = 4096) by done.
  pose proof (request_bytes_length s ltac:(fold c; lia)) as Hrb.
  rewrite (Run_write_prefix s) by (fold c; fold sector; done || lia).
  cbn zeta. fold c sector.
  set (rest := zeros _).
  set (hdr := response_header (request_bytes s) DM_USER_RESP_SUCCESS).
  assert (Hhdr : length hdr = Z.to_nat sizeof_dm_user_header)
    by (by apply response_header_length).
  set (c1 := ctrl_after_read c sizeof_dm_user_header).
  set (page := take (Z.to_nat BLOCK_SIZE) (ctrl_in c1)).
  assert (Hpage : length page = Z.to_nat BLOCK_SIZE).
  { unfold page, c1. cbn [ctrl_after_read ctrl_in].
    rewrite length_take, length_drop. lia. }
  unfold ReadDmUserPayload, ctrl_read.
  change (ctrl_fd_ (set_bufsink (with_request s) (sink_at (bufsink_ s) 0 (hdr ++ rest))))
    with c1.
  rewrite (proj2 (Z.ltb_ge _ _))
    by (unfold c1; cbn [ctrl_after_read ctrl_in]; rewrite length_drop; lia).
  fold page. unfold sink_write.
  cbn [set_bufsink bufsink_ sink_at buffer_].
  rewrite mem_write_behind
    by (rewrite ?Hhdr, ?Hpage; unfold rest; rewrite ?zeros_length; lia).
  rewrite Hpage. cbn [lift_mem mbind outcome_bind negb].
  match goal with
  | |- context [sink_load (bufsink_ ?x)] => change x with s2
  end.
  assert (Hld : sink_load (bufsink_ s2) (0 + hdr_type) 4
                = Ok DM_USER_RESP_SUCCESS).
  { unfold sink_load.
    change (buffer_ (bufsink_ s2))
      with (hdr ++ page ++ drop (Z.to_nat BLOCK_SIZE) rest).
    unfold hdr. by rewrite response_header_type by done. }
  rewrite Hld. cbn [mbind outcome_bind].
  change (DM_USER_RESP_SUCCESS =? DM_USER_RESP_SUCCESS) with true.
  cbn match.
  destruct (ProcessMergeComplete s2 _ _) as [[ok s3]|k|] eqn:Hpm; [|done..].
  apply ProcessMergeComplete_geometry in Hpm as (_ & Hsink & Hctrl).
  cbn [mbind outcome_bind]. cbn zeta.
  assert (Hbuf : buffer_ (bufsink_ s3)
                 = hdr ++ page ++ drop (Z.to_nat BLOCK_SIZE) rest)
    by (by rewrite Hsink).
  destruct ok; cbn [negb mbind outcome_bind].
  - unfold WriteDmUserPayload. rewrite Hbuf, Hctrl.
    rewrite response_header_frame by done.
    cbn [lift_mem mbind outcome_bind]. fold hdr.
    destruct (ctrl_write (ctrl_fd_ s2) hdr) as [ok c'] eqn:Hc.
    eexists. split; [done|]. split; [done|].
    apply ctrl_write_inv in Hc as (_ & Hf & _).
    split; [by destruct s3|]. split; [done|].
    cbn [set_ctrl ctrl_fd_]. rewrite Hf, Hctrl. apply tail_subseteq.
  - rewrite (set_header_type_sink _ hdr _ _ Hbuf Hhdr).
    cbn [mbind outcome_bind]. unfold hdr at 1.
    rewrite response_header_again by done.
    set (frame := response_header (request_bytes s) DM_USER_RESP_ERROR).
    unfold WriteDmUserPayload.
    cbn [set_bufsink set_buffer bufsink_ buffer_ ctrl_fd_].
    rewrite response_header_frame by (by apply response_header_length).
    cbn [lift_mem mbind outcome_bind]. rewrite Hctrl.
    destruct (ctrl_write (ctrl_fd_ s2) frame) as [ok c'] eqn:Hc.
    eexists. split; [done|]. split; [done|].
    apply ctrl_write_inv in Hc as (_ & Hf & _).
    split; [by destruct s3|]. split; [done|].
    cbn [set_ctrl ctrl_fd_]. rewrite Hf, Hctrl. apply tail_subseteq.
Qed.
End write_replies.


Lemma X26_witness :
  let s := small_device [replace_op 10; copy_op 20 30]
             (merge_request (zeros BLOCK_SIZE)) [] in
  let s2 := with_merge_page s in
  match ProcessMergeComplete s2
          (SectorToChunk (request_field (ctrl_fd_ s) hdr_sector 8))
          (exceptions_at s2 sizeof_dm_user_header) with
  | Ok (ok, s3) =>
      let frame :=
        response_header (request_bytes s)
          (if ok then DM_USER_RESP_SUCCESS else DM_USER_RESP_ERROR) in
      let reply := ctrl_write (ctrl_fd_ s2) frame in
      ∃ s', Run s = Ok (reply.1, s') ∧ ctrl_fd_ s' = reply.2
        ∧ only_io s3 s'
  | CheckFailed k => Run s = CheckFailed k
  | Fault => Run s = Fault
  end.
Proof.
  apply (Run_write_merge
           (small_device [replace_op 10; copy_op 20 30]
              (merge_request (zeros BLOCK_SIZE)) [])).
  - by vm_compute.
  - vm_compute. reflexivity.
  - by vm_compute.
  - vm_compute. reflexivity.
  - vm_compute. reflexivity.
  - by vm_compute.
Defined.
